(** * GIFStream data preparation: a shallow embedding

    Two source files are embedded here.

    - [dataset_process/n3d_video_process.py]: the pose converter
      ([posetow2c_matrcs] and its four steps) and the keyframe planner
      ([frame_list]).
    - [examples/datasets/GIFStream_new.py]: the COLMAP calibration parser
      ([Parser.__init__]) and the sample dataset ([Dataset.__init__],
      [Dataset.__getitem__]).

    Python integers are [Z]; [//] is floor division, which is [Z.div].
    Real-valued quantities (intrinsics, distortion coefficients, remap
    tables, time stamps) are exact rationals [Qc]: rounding of the
    floating-point operations is not part of the model.  Python exceptions
    are values of [exn], threaded through the error monad [res].
    Dictionaries are [gmap]s, lists are lists. *)

From Stdlib Require Import ZArith QArith Qround Qcanon Lia Ascii.
From stdpp Require Import gmap strings pretty list sorting.

Local Open Scope Z_scope.

(** ** Exceptions and the error monad *)

Inductive exn : Set :=
  | IndexError
  | KeyError
  | ZeroDivisionError
  | UnboundLocalError
  | AssertionError
  | ValueError
  | LinAlgError.

Inductive res (A : Type) : Type :=
  | Ok (a : A)
  | Raise (e : exn).
Arguments Ok {A} a.
Arguments Raise {A} e.

#[global] Instance res_ret : MRet res := @Ok.
#[global] Instance res_bind : MBind res := λ A B f m,
  match m with
  | Ok a => f a
  | Raise e => Raise e
  end.
#[global] Instance res_fmap : FMap res := λ A B f m,
  match m with
  | Ok a => Ok (f a)
  | Raise e => Raise e
  end.

Definition is_Ok {A} (m : res A) : Prop := ∃ a, m = Ok a.

(** [a // b] on Python integers. *)
Definition py_floordiv (a b : Z) : res Z :=
  if decide (b = 0) then Raise ZeroDivisionError else Ok (a / b).

(** [l[i]] on a Python list: negative positions count from the end, a
    position outside the list raises [IndexError]. *)
Definition py_getitem {A} (l : list A) (i : Z) : res A :=
  let j := if decide (i < 0) then i + Z.of_nat (length l) else i in
  if decide (j < 0) then Raise IndexError
  else match l !! Z.to_nat j with
       | Some a => Ok a
       | None => Raise IndexError
       end.

(** [d[k]] on a Python dictionary. *)
Definition py_lookup {V} (d : gmap Z V) (k : Z) : res V :=
  match d !! k with
  | Some v => Ok v
  | None => Raise KeyError
  end.

(** [range(n)]. *)
Definition py_range (n : Z) : list Z := seqZ 0 n.

(** ** Keyframe planner ([n3d_video_process.py], main block) *)

(** [frame_list = [startframe + x * GOP
                   for x in range((endframe - startframe + GOP - 1) // GOP)]].
    The division raises for [GOP = 0]. *)
Definition frame_list (startframe endframe GOP : Z) : res (list Z) :=
  n ← py_floordiv (endframe - startframe + GOP - 1) GOP;
  mret ((λ x, startframe + x * GOP) <$> py_range n).

(** The set the specification describes: [S + k*G] for
    [k = 0 .. ceil((E-S)/G) - 1].  [ceil_div a b] is the ceiling of the
    rational [a/b] for positive [b], written with the floor of the
    negated quotient. *)
Definition ceil_div (a b : Z) : Z := - ((- a) / b).

Definition keyframe_set (S E G : Z) : list Z :=
  (λ k, S + k * G) <$> seqZ 0 (ceil_div (E - S) G).

(** A list of integers in strictly increasing order. *)
Fixpoint increasing (l : list Z) : Prop :=
  match l with
  | [] => True
  | x :: l' => match l' with [] => True | y :: _ => x < y end ∧ increasing l'
  end.


(** ** Numbers *)

#[global] Instance Qc_inhabited : Inhabited Qc := populate 0%Qc.

(** [a / b] on Python numbers whose divisor is an [int]. *)
Definition py_truediv (a b : Z) : res Qc :=
  if decide (b = 0) then Raise ZeroDivisionError
  else Ok (Qc_of_Z a / Qc_of_Z b)%Qc.

(** [int(q)]: truncation towards zero. *)
Definition Qc_trunc (q : Qc) : Z := Z.quot (Qnum q) (Z.pos (Qden q)).

(** *** Doubles

    Where the program truncates a floating-point product to an integer,
    the rounding of the product decides the result, so it is modelled:
    [round_double q] is the IEEE 754 binary64 number nearest to the
    rational [q], ties going to the even significand.  Overflow is not
    modelled (it needs a magnitude of [2^1024]). *)

(** The floor of the binary logarithm of [n/d], for positive [n], [d]. *)
Definition floor_log2 (n d : Z) : Z :=
  let e0 := Z.log2 n - Z.log2 d in
  if decide (d * 2 ^ Z.max e0 0 ≤ n * 2 ^ Z.max (- e0) 0) then e0
  else e0 - 1.

(** The integer nearest to [n/d], ties to even, for positive [d]. *)
Definition round_half_even (n d : Z) : Z :=
  let q := n / d in
  let r := n mod d in
  if decide (2 * r < d) then q
  else if decide (d < 2 * r) then q + 1
  else if Z.even q then q else q + 1.

(** The double nearest to [n/d], for positive [n], [d]: a significand of
    53 bits times [2^e], with [e] no smaller than that of the subnormal
    numbers. *)
Definition round_double_pos (n d : Z) : Q :=
  let e := Z.max (floor_log2 n d - 52) (-1074) in
  let m := round_half_even (n * 2 ^ Z.max (- e) 0) (d * 2 ^ Z.max e 0) in
  Qmake (m * 2 ^ Z.max e 0) (Z.to_pos (2 ^ Z.max (- e) 0)).

Definition round_double (q : Qc) : Qc :=
  let n := Qnum q in
  let d := Z.pos (Qden q) in
  if decide (n = 0) then 0%Qc
  else if decide (0 < n) then Q2Qc (round_double_pos n d)
  else (- Q2Qc (round_double_pos (- n) d))%Qc.

(** [n * s] for an [int] [n] and a [float] [s], as a double: [n] is
    converted to a double first.  [s] is given as the exact quotient it
    was computed from; the double the program holds is its rounding. *)
Definition float_mul_int (n : Z) (s : Qc) : Qc :=
  round_double (round_double (Qc_of_Z n) * round_double s).

(** [a[y, x]] on a two-dimensional array stored as a list of rows. *)
Definition at2 {A} (a : list (list A)) (y x : nat) : option A :=
  a !! y ≫= (.!! x).

(** [l[a:b]] for non-negative [a], [b]. *)
Definition slice {A} (a b : nat) (l : list A) : list A :=
  take (b - a) (drop a l).

(** ** Calibration parser ([GIFStream_new.py], class [Parser]) *)

(** [cam.camera_type] is compared with both the numeric code and the
    model name. *)
Inductive camera_type_t : Set :=
  | TypeCode (c : Z)
  | TypeName (s : string).

Definition type_is (t : camera_type_t) (code : Z) (name : string) : bool :=
  match t with
  | TypeCode c => bool_decide (c = code)
  | TypeName s => bool_decide (s = name)
  end.

(** The two values the local [camtype] takes. *)
Inductive camtype_t : Set := perspective | fisheye.

#[global] Instance camtype_eq_dec : EqDecision camtype_t.
Proof. solve_decision. Defined.

Record Camera : Type := {
  cam_type : camera_type_t;
  cam_fx : Qc; cam_fy : Qc; cam_cx : Qc; cam_cy : Qc;
  cam_k1 : Qc; cam_k2 : Qc; cam_p1 : Qc; cam_p2 : Qc;
  cam_k3 : Qc; cam_k4 : Qc;
  cam_width : Z; cam_height : Z }.

(** One entry of [manager.images]; poses are outside this model. *)
Record Image : Type := {
  im_name : string;
  im_camera_id : Z }.

Abbreviation matrix := (list (list Qc)).
Abbreviation mask_t := (list (list bool)).

(** The variables of the first loop of [Parser.__init__]: the
    dictionaries it fills, and its locals [params] and [camtype], which
    are unbound ([None]) until some branch assigns them and keep their
    value from one iteration to the next. *)
Record ParseState : Type := {
  ps_camera_ids : list Z;
  ps_Ks_dict : gmap Z matrix;
  ps_params_dict : gmap Z (list Qc);
  ps_imsize_dict : gmap Z (Z * Z);
  ps_mask_dict : gmap Z (option mask_t);
  ps_params : option (list Qc);
  ps_camtype : option camtype_t }.

Definition parse_init : ParseState :=
  {| ps_camera_ids := []; ps_Ks_dict := ∅; ps_params_dict := ∅;
     ps_imsize_dict := ∅; ps_mask_dict := ∅;
     ps_params := None; ps_camtype := None |}.

(** The two [if]/[elif] chains on [type_] (lines 87-104).  The first chain
    handles codes 0 and 1, the second one codes 2 to 5; a tag that matches
    no branch leaves [params] and [camtype] as they were. *)
Definition assign_distortion (cam : Camera)
    (vars : option (list Qc) * option camtype_t)
    : option (list Qc) * option camtype_t :=
  let type_ := cam_type cam in
  let vars :=
    if type_is type_ 0 "SIMPLE_PINHOLE" then (Some [], Some perspective)
    else if type_is type_ 1 "PINHOLE" then (Some [], Some perspective)
    else vars in
  if type_is type_ 2 "SIMPLE_RADIAL" then
    (Some [cam_k1 cam; 0; 0; 0]%Qc, Some perspective)
  else if type_is type_ 3 "RADIAL" then
    (Some [cam_k1 cam; cam_k2 cam; 0; 0]%Qc, Some perspective)
  else if type_is type_ 4 "OPENCV" then
    (Some [cam_k1 cam; cam_k2 cam; cam_p1 cam; cam_p2 cam], Some perspective)
  else if type_is type_ 5 "OPENCV_FISHEYE" then
    (Some [cam_k1 cam; cam_k2 cam; cam_k3 cam; cam_k4 cam], Some fisheye)
  else vars.

(** Reading a local variable: unbound raises. *)
Definition read_local {A} (v : option A) : res A :=
  match v with
  | Some a => Ok a
  | None => Raise UnboundLocalError
  end.

(** [K = [[fx, 0, cx], [0, fy, cy], [0, 0, 1]]; K[:2, :] /= factor]. *)
Definition intrinsics (cam : Camera) (factor : Z) : matrix :=
  let f := Qc_of_Z factor in
  [ [cam_fx cam / f; 0 / f; cam_cx cam / f];
    [0 / f; cam_fy cam / f; cam_cy cam / f];
    [0; 0; 1] ]%Qc.

(** The body of [for k in imdata] (lines 68-111).  The assertion on
    [camtype] reads the local, which raises when no branch has bound it
    yet; once bound it holds one of the two accepted values. *)
Definition parse_image (cameras : gmap Z Camera) (factor : Z)
    (st : ParseState) (im : Image) : res ParseState :=
  let camera_id := im_camera_id im in
  cam ← py_lookup cameras camera_id;
  let K := intrinsics cam factor in
  let vars := assign_distortion cam (ps_params st, ps_camtype st) in
  camtype ← read_local vars.2;
  params ← read_local vars.1;
  w ← py_floordiv (cam_width cam) factor;
  h ← py_floordiv (cam_height cam) factor;
  mret {| ps_camera_ids := ps_camera_ids st ++ [camera_id];
          ps_Ks_dict := <[camera_id := K]> (ps_Ks_dict st);
          ps_params_dict := <[camera_id := params]> (ps_params_dict st);
          ps_imsize_dict := <[camera_id := (w, h)]> (ps_imsize_dict st);
          ps_mask_dict := <[camera_id := None]> (ps_mask_dict st);
          ps_params := Some params;
          ps_camtype := Some camtype |}.

Fixpoint parse_images (cameras : gmap Z Camera) (factor : Z)
    (st : ParseState) (imdata : list Image) : res ParseState :=
  match imdata with
  | [] => Ok st
  | im :: rest =>
      st' ← parse_image cameras factor st im;
      parse_images cameras factor st' rest
  end.

(** [inds = np.argsort(camera_names)] applied to the names and the camera
    ids: the pairs sorted by name (image names are unique in a
    reconstruction, so the order of equal names does not arise). *)
Definition name_le (a b : string * Z) : Prop := String.le a.1 b.1.

#[global] Instance name_le_dec : RelDecision name_le.
Proof. intros a b. unfold name_le. apply _. Defined.

Definition sort_by_name (names : list string) (ids : list Z)
    : list (string * Z) :=
  merge_sort name_le (zip names ids).

(** *** Resolution reconciliation (lines 216-227) *)

(** [K[0, :] *= s_width; K[1, :] *= s_height]. *)
Definition scale_rows (s_width s_height : Qc) (K : matrix) : matrix :=
  alter (fmap (λ v, v * s_height)%Qc) 1%nat
    (alter (fmap (λ v, v * s_width)%Qc) 0%nat K).

(** [(int(width * s_width), int(height * s_height))]: each product is a
    double, truncated towards zero. *)
Definition scale_size (s_width s_height : Qc) (sz : Z * Z) : Z * Z :=
  (Qc_trunc (float_mul_int sz.1 s_width),
   Qc_trunc (float_mul_int sz.2 s_height)).

(** One iteration of [for camera_id, K in self.Ks_dict.items()]. *)
Definition rescale_step (s_width s_height : Qc) (camera_id : Z) (K : matrix)
    (acc : res (gmap Z matrix * gmap Z (Z * Z)))
    : res (gmap Z matrix * gmap Z (Z * Z)) :=
  '(Ks, ims) ← acc;
  sz ← py_lookup ims camera_id;
  mret (<[camera_id := scale_rows s_width s_height K]> Ks,
        <[camera_id := scale_size s_width s_height sz]> ims).

Definition rescale (s_width s_height : Qc)
    (Ks : gmap Z matrix) (ims : gmap Z (Z * Z))
    : res (gmap Z matrix * gmap Z (Z * Z)) :=
  map_fold (rescale_step s_width s_height) (Ok (Ks, ims)) Ks.

(** The two scale factors: the image read from disk has shape
    [(height, width)]; [camera_id0] is [self.camera_ids[0]]. *)
Definition scale_factors (actual_shape : Z * Z) (factor : Z)
    (ims : gmap Z (Z * Z)) (camera_id0 : Z) : res (Qc * Qc) :=
  actual_height ← py_floordiv actual_shape.1 factor;
  actual_width ← py_floordiv actual_shape.2 factor;
  '(colmap_width, colmap_height) ← py_lookup ims camera_id0;
  s_height ← py_truediv actual_height colmap_height;
  s_width ← py_truediv actual_width colmap_width;
  mret (s_width, s_height).

(** *** Undistortion maps (lines 229-296) *)

(** What one iteration of the undistortion loop stores for a camera. *)
Record Undist : Type := {
  u_mapx : matrix;
  u_mapy : matrix;
  u_K : matrix;
  u_roi : Z * Z * Z * Z;        (* x, y, width, height *)
  u_mask : option mask_t }.

(** The radial factor [r].  The angle [theta = sqrt(x1**2 + y1**2)] only
    enters through its even powers, so [r] is a polynomial in
    [t = x1**2 + y1**2]. *)
Definition fisheye_r (params : list Qc) (t : Qc) : Qc :=
  (1 + params !!! 0%nat * t
     + params !!! 1%nat * (t * t)
     + params !!! 2%nat * (t * t * t)
     + params !!! 3%nat * (t * t * t * t))%Qc.

(** [K[0, 0]], [K[1, 1]], [K[0, 2]], [K[1, 2]]. *)
Definition K_fx (K : matrix) : Qc := (K !!! 0%nat) !!! 0%nat.
Definition K_fy (K : matrix) : Qc := (K !!! 1%nat) !!! 1%nat.
Definition K_cx (K : matrix) : Qc := (K !!! 0%nat) !!! 2%nat.
Definition K_cy (K : matrix) : Qc := (K !!! 1%nat) !!! 2%nat.

(** [mapx], [mapy] at destination pixel [(x, y)]. *)
Definition fisheye_source (K : matrix) (params : list Qc) (width height : Z)
    (x y : Z) : Qc * Qc :=
  let fx := K_fx K in
  let fy := K_fy K in
  let cx := K_cx K in
  let cy := K_cy K in
  let x1 := ((Qc_of_Z x - cx) / fx)%Qc in
  let y1 := ((Qc_of_Z y - cy) / fy)%Qc in
  let r := fisheye_r params (x1 * x1 + y1 * y1)%Qc in
  ((fx * x1 * r + Qc_of_Z (width / 2))%Qc,
   (fy * y1 * r + Qc_of_Z (height / 2))%Qc).

(** The two tables over the [meshgrid] of shape [(height, width)]. *)
Definition fisheye_maps (K : matrix) (params : list Qc) (width height : Z)
    : matrix * matrix :=
  let grid f :=
    (λ y, (λ x, f (fisheye_source K params width height x y))
            <$> seqZ 0 width) <$> seqZ 0 height in
  (grid fst, grid snd).

(** [(mapx > 0 and mapy > 0) and (mapx < width - 1 and mapy < height - 1)]. *)
Definition in_bounds (width height : Z) (mx my : Qc) : bool :=
  (bool_decide (0 < mx)%Qc && bool_decide (0 < my)%Qc)
  && (bool_decide (mx < Qc_of_Z (width - 1))%Qc
      && bool_decide (my < Qc_of_Z (height - 1))%Qc).

Definition fisheye_mask (width height : Z) (mapx mapy : matrix) : mask_t :=
  zip_with (zip_with (in_bounds width height)) mapx mapy.

(** [np.nonzero(mask)]: the positions [(y, x)] of the true entries, in
    row-major order. *)
Definition nonzero (mask : mask_t) : list (Z * Z) :=
  y ← seq 0 (length mask);
  x ← seq 0 (length (mask !!! y));
  if decide (at2 mask y x = Some true) then [(Z.of_nat y, Z.of_nat x)] else [].

(** [a.min()] and [a.max()] raise [ValueError] on an empty array. *)
Definition np_min (l : list Z) : res Z :=
  match l with
  | [] => Raise ValueError
  | x :: l' => Ok (foldr Z.min x l')
  end.

Definition np_max (l : list Z) : res Z :=
  match l with
  | [] => Raise ValueError
  | x :: l' => Ok (foldr Z.max x l')
  end.

(** [mask[y_min:y_max, x_min:x_max]]. *)
Definition crop {A} (y_min y_max x_min x_max : Z) (a : list (list A))
    : list (list A) :=
  slice (Z.to_nat x_min) (Z.to_nat x_max)
    <$> slice (Z.to_nat y_min) (Z.to_nat y_max) a.

(** [K_undist = K.copy(); K_undist[0, 2] -= x_min; K_undist[1, 2] -= y_min]. *)
Definition shift_principal_point (x_min y_min : Z) (K : matrix) : matrix :=
  alter (alter (λ v, v - Qc_of_Z y_min)%Qc 2%nat) 1%nat
    (alter (alter (λ v, v - Qc_of_Z x_min)%Qc 2%nat) 0%nat K).

(** The mask, the region of interest and the shifted intrinsics, from the
    two tables (lines 275-287). *)
Definition fisheye_roi (K : matrix) (width height : Z) (mapx mapy : matrix)
    : res Undist :=
  let mask := fisheye_mask width height mapx mapy in
  let idx := nonzero mask in
  y_min ← np_min idx.*1;
  y_top ← np_max idx.*1;
  x_min ← np_min idx.*2;
  x_top ← np_max idx.*2;
  let y_max := y_top + 1 in
  let x_max := x_top + 1 in
  mret {| u_mapx := mapx; u_mapy := mapy;
          u_K := shift_principal_point x_min y_min K;
          u_roi := (x_min, y_min, x_max - x_min, y_max - y_min);
          u_mask := Some (crop y_min y_max x_min x_max mask) |}.

(** The [elif camtype == "fisheye"] branch. *)
Definition undistort_fisheye (K : matrix) (params : list Qc)
    (width height : Z) : res Undist :=
  let '(mapx, mapy) := fisheye_maps K params width height in
  fisheye_roi K width height mapx mapy.

(** *** Points seen by each image (lines 175-185) *)

(** [image_id_to_name = {v: k for k, v in name_to_image_id.items()}]:
    a later item replaces an earlier one with the same id. *)
Definition invert_names (name_to_image_id : list (string * Z))
    : gmap Z string :=
  foldl (λ m kv, <[kv.2 := kv.1]> m) ∅ name_to_image_id.

(** The body of [for image_id, _ in data]:
    [point_indices.setdefault(image_name, []).append(point_idx)]. *)
Definition add_observation (image_id_to_name : gmap Z string)
    (point3D_id_to_point3D_idx : gmap Z Z) (point_id : Z)
    (acc : res (gmap string (list Z))) (obs : Z * Z)
    : res (gmap string (list Z)) :=
  point_indices ← acc;
  image_name ← py_lookup image_id_to_name obs.1;
  point_idx ← py_lookup point3D_id_to_point3D_idx point_id;
  mret (<[image_name :=
            default [] (point_indices !! image_name) ++ [point_idx]]>
          point_indices).

(** The two nested loops over [manager.point3D_id_to_images.items()]. *)
Definition collect_point_indices (image_id_to_name : gmap Z string)
    (point3D_id_to_point3D_idx : gmap Z Z)
    (point3D_id_to_images : list (Z * list (Z * Z)))
    : res (gmap string (list Z)) :=
  foldl (λ acc item,
           foldl (add_observation image_id_to_name
                    point3D_id_to_point3D_idx item.1) acc item.2)
    (Ok ∅) point3D_id_to_images.

(** *** What lies between the first loop and the image size check

    Lines 121-216 do not touch the calibration tables, yet each of their
    statements can stop the parser before the tables are used again.
    The point tables are followed as written.  The other statements read
    files or call routines outside the source: what they did is given.
    [poses_and_metadata] stands for lines 121-174 (the inversion of the
    poses by [np.linalg.inv], [ext_metadata.json], [poses_bounds.npy],
    the conversion of the point arrays), [normalized_and_listed] for
    lines 183-203 (the conversion of the index lists, the normalisation
    of the world space and [os.listdir] on the [png] directory) and
    [first_image_read] for [imageio.imread] on line 216: [Ok ()] when
    all of them complete, else the exception of the first one that does
    not. *)
Record Loading : Type := {
  poses_and_metadata : res ();
  name_to_image_id : list (string * Z);
  point3D_id_to_point3D_idx : gmap Z Z;
  point3D_id_to_images : list (Z * list (Z * Z));
  normalized_and_listed : res ();
  first_image_read : res () }.

Definition run_loading (l : Loading) : res () :=
  _ ← poses_and_metadata l;
  _ ← collect_point_indices (invert_names (name_to_image_id l))
        (point3D_id_to_point3D_idx l) (point3D_id_to_images l);
  normalized_and_listed l.

(** The result of parsing: the attributes of [self] the dataset reads. *)
Record Parser : Type := {
  factor : Z;
  camera_names : list string;
  campaths : list string;
  camera_ids : list Z;
  Ks_dict : gmap Z matrix;
  params_dict : gmap Z (list Qc);
  imsize_dict : gmap Z (Z * Z);
  mask_dict : gmap Z (option mask_t);
  mapx_dict : gmap Z matrix;
  mapy_dict : gmap Z matrix;
  roi_undist_dict : gmap Z (Z * Z * Z * Z) }.

Section Undistortion.
(** The two OpenCV routines of the perspective branch are library code:
    they are taken as given functions. *)
Variable cv2_getOptimalNewCameraMatrix :
  matrix → list Qc → Z * Z → matrix * (Z * Z * Z * Z).
Variable cv2_initUndistortRectifyMap :
  matrix → list Qc → matrix → Z * Z → matrix * matrix.

(** The [if camtype == "perspective"] branch. *)
Definition undistort_perspective (K : matrix) (params : list Qc)
    (width height : Z) : Undist :=
  let '(K_undist, roi_undist) :=
    cv2_getOptimalNewCameraMatrix K params (width, height) in
  let '(mapx, mapy) :=
    cv2_initUndistortRectifyMap K params K_undist (width, height) in
  {| u_mapx := mapx; u_mapy := mapy; u_K := K_undist;
     u_roi := roi_undist; u_mask := None |}.

(** The branch on [camtype] (lines 244-289). *)
Definition undistort_camera (camtype : camtype_t) (K : matrix)
    (params : list Qc) (width height : Z) : res Undist :=
  match camtype with
  | perspective => Ok (undistort_perspective K params width height)
  | fisheye => undistort_fisheye K params width height
  end.

(** One iteration of [for camera_id in self.params_dict.keys()].  The
    local [camtype] is the one the first loop left behind. *)
Definition undistort_step (camtype : option camtype_t)
    (camera_id : Z) (params : list Qc) (acc : res Parser) : res Parser :=
  p ← acc;
  if decide (length params = 0%nat) then Ok p
  else
    K ← match Ks_dict p !! camera_id with
        | Some K => Ok K
        | None => Raise AssertionError
        end;
    '(width, height) ← py_lookup (imsize_dict p) camera_id;
    ct ← read_local camtype;
    u ← undistort_camera ct K params width height;
    mret {| factor := factor p;
            camera_names := camera_names p;
            campaths := campaths p;
            camera_ids := camera_ids p;
            Ks_dict := <[camera_id := u_K u]> (Ks_dict p);
            params_dict := params_dict p;
            imsize_dict :=
              <[camera_id := ((u_roi u).1.2, (u_roi u).2)]> (imsize_dict p);
            mask_dict := <[camera_id := u_mask u]> (mask_dict p);
            mapx_dict := <[camera_id := u_mapx u]> (mapx_dict p);
            mapy_dict := <[camera_id := u_mapy u]> (mapy_dict p);
            roi_undist_dict :=
              <[camera_id := u_roi u]> (roi_undist_dict p) |}.

Definition undistort_all (camtype : option camtype_t) (p : Parser)
    : res Parser :=
  map_fold (undistort_step camtype) (Ok p) (params_dict p).

(** [Parser.__init__], calibration part.  [cameras] is
    [manager.cameras], [imdata] the entries of [manager.images] in their
    order of enumeration, [loading] what lines 121-216 meet, [png_dirs]
    the sorted listing of the [png] directory, [actual_shape] the
    [(height, width)] of the image loaded from [campaths[0]]. *)
Definition Parser_init (cameras : gmap Z Camera) (imdata : list Image)
    (loading : Loading) (png_dirs : list string) (actual_shape : Z * Z)
    (factor : Z) : res Parser :=
  st ← parse_images cameras factor parse_init imdata;
  if decide (length imdata = 0%nat) then Raise ValueError
  else
    let sorted := sort_by_name (im_name <$> imdata) (ps_camera_ids st) in
    _ ← run_loading loading;
    _ ← py_getitem png_dirs 0;
    _ ← first_image_read loading;
    camera_id0 ← py_getitem sorted.*2 0;
    '(s_width, s_height) ←
      scale_factors actual_shape factor (ps_imsize_dict st) camera_id0;
    '(Ks, ims) ← rescale s_width s_height
                   (ps_Ks_dict st) (ps_imsize_dict st);
    undistort_all (ps_camtype st)
      {| factor := factor;
         camera_names := sorted.*1;
         campaths := png_dirs;
         camera_ids := sorted.*2;
         Ks_dict := Ks;
         params_dict := ps_params_dict st;
         imsize_dict := ims;
         mask_dict := ps_mask_dict st;
         mapx_dict := ∅;
         mapy_dict := ∅;
         roi_undist_dict := ∅ |}.
End Undistortion.

(** ** Sample dataset ([GIFStream_new.py], class [Dataset]) *)

Record Dataset : Type := {
  parser : Parser;
  split : string;
  start_frame : Z;
  GOP_size : Z;
  indices : list Z;
  cameras_length : nat }.

(** The index lists of [Dataset.__init__] (lines 335-343).  The
    comprehension only divides when [indices] is non-empty, that is for
    positive [GOP_size], so [x // GOP_size] never raises there. *)
Definition split_indices (n : nat) (split : string) (GOP_size : Z)
    (test_set : list Z) (remove_set : option (list Z)) : list Z :=
  let indices := py_range (Z.of_nat n * GOP_size) in
  let selected :=
    if decide (split = "train")
    then filter (λ x, x / GOP_size ∉ test_set) indices
    else filter (λ x, x / GOP_size ∈ test_set) indices in
  match remove_set with
  | None => selected
  | Some remove_set => filter (λ x, x / GOP_size ∉ remove_set) selected
  end.

Definition Dataset_init (parser : Parser) (split : string)
    (start_frame GOP_size : Z) (test_set : list Z)
    (remove_set : option (list Z)) : Dataset :=
  let n := length (camera_names parser) in
  {| parser := parser; split := split;
     start_frame := start_frame; GOP_size := GOP_size;
     indices := split_indices n split GOP_size test_set remove_set;
     cameras_length := n |}.

(** Whether the block of camera [c] survives the two filters. *)
Definition kept (split : string) (test_set : list Z)
    (remove_set : option (list Z)) (c : Z) : bool :=
  (if decide (split = "train") then bool_decide (c ∉ test_set)
   else bool_decide (c ∈ test_set))
  && match remove_set with
     | None => true
     | Some rs => bool_decide (c ∉ rs)
     end.

(** [Dataset.__len__]. *)
Definition Dataset_len (ds : Dataset) : Z := Z.of_nat (length (indices ds)).

(** The record [__getitem__] returns, without the pixel data: decoding,
    resizing, remapping and cropping of the image act on pixels only and
    are outside this model.  [s_cam] and [s_frame_idx] are the locals
    [cam] and [frame_idx] that select the image file
    [campaths[cam]/{frame_idx+1:05d}.png]. *)
Record Sample : Type := {
  s_cam : Z;
  s_frame_idx : Z;
  s_camera_path : string;
  s_image_id : Z;
  s_time : Qc;
  s_camera_id : Z }.

(** Lines 349-350: the camera comes from the stored global index, the
    frame from the position [item]. *)
Definition Dataset_locate (ds : Dataset) (item : Z) : res (Z * Z) :=
  g ← py_getitem (indices ds) item;
  cam ← py_floordiv g (GOP_size ds);
  q ← py_floordiv item (GOP_size ds);
  mret (cam, start_frame ds + item - q * GOP_size ds).

(** Line 407: [float(frame_idx - self.start_frame) / (self.GOP_size-1)]. *)
Definition Dataset_time (ds : Dataset) (frame_idx : Z) : res Qc :=
  py_truediv (frame_idx - start_frame ds) (GOP_size ds - 1).

(** [Dataset.__getitem__]. *)
Definition Dataset_getitem (ds : Dataset) (item : Z) : res Sample :=
  '(cam, frame_idx) ← Dataset_locate ds item;
  camera_path ← py_getitem (campaths (parser ds)) cam;
  camera_id ← py_getitem (camera_ids (parser ds)) cam;
  _ ← py_lookup (Ks_dict (parser ds)) camera_id;
  params ← py_lookup (params_dict (parser ds)) camera_id;
  _ ← py_lookup (mask_dict (parser ds)) camera_id;
  _ ← (if decide (0 < length params)%nat then
         _ ← py_lookup (mapx_dict (parser ds)) camera_id;
         _ ← py_lookup (mapy_dict (parser ds)) camera_id;
         _ ← py_lookup (roi_undist_dict (parser ds)) camera_id;
         Ok ()
       else Ok ());
  time ← Dataset_time ds frame_idx;
  mret {| s_cam := cam; s_frame_idx := frame_idx;
          s_camera_path := camera_path;
          s_image_id := item;
          s_time := time;
          s_camera_id :=
            if decide (split ds = "train") then camera_id - 1 else -1 |}.

(** A calibrated rig of two pinhole cameras and the two default splits
    over it, to run the dataset on. *)
Definition demo_K : matrix :=
  [ [Qc_of_Z 1000; Qc_of_Z 0; Qc_of_Z 640];
    [Qc_of_Z 0; Qc_of_Z 1000; Qc_of_Z 360];
    [Qc_of_Z 0; Qc_of_Z 0; Qc_of_Z 1] ].

Definition demo_parser : Parser :=
  {| factor := 1;
     camera_names := ["cam00.png"; "cam01.png"];
     campaths := ["png/cam00"; "png/cam01"];
     camera_ids := [1; 2];
     Ks_dict := {[ 1 := demo_K; 2 := demo_K ]};
     params_dict := {[ 1 := []; 2 := [] ]};
     imsize_dict := {[ 1 := (1280, 720); 2 := (1280, 720) ]};
     mask_dict := {[ 1 := None; 2 := None ]};
     mapx_dict := ∅; mapy_dict := ∅; roi_undist_dict := ∅ |}.

Definition demo_train : Dataset :=
  Dataset_init demo_parser "train" 0 50 [0] None.

Definition demo_test : Dataset :=
  Dataset_init demo_parser "test" 0 50 [0] None.

(** What the branches on [type_] assign for a camera's own tag, starting
    from unbound locals: [None] for a tag no branch matches. *)
Definition own_params (cam : Camera) : option (list Qc) :=
  (assign_distortion cam (None, None)).1.

Definition own_camtype (cam : Camera) : option camtype_t :=
  (assign_distortion cam (None, None)).2.

(** A 1280x720 camera with the model code [t], focal length [f] and
    first radial coefficient [k]; two images taken by cameras 1 and 2. *)
Definition demo_camera (t : Z) (f k : Qc) : Camera :=
  {| cam_type := TypeCode t;
     cam_fx := f; cam_fy := f;
     cam_cx := Qc_of_Z 640; cam_cy := Qc_of_Z 360;
     cam_k1 := k; cam_k2 := 0%Qc; cam_p1 := 0%Qc; cam_p2 := 0%Qc;
     cam_k3 := 0%Qc; cam_k4 := 0%Qc;
     cam_width := 1280; cam_height := 720 |}.

Definition demo_images : list Image :=
  [ {| im_name := "cam00.png"; im_camera_id := 1 |};
    {| im_name := "cam01.png"; im_camera_id := 2 |} ].

Definition demo_png_dirs : list string := ["png/cam00"; "png/cam01"].

(** A reconstruction without points, whose loading completes. *)
Definition demo_loading : Loading :=
  {| poses_and_metadata := Ok ();
     name_to_image_id := [];
     point3D_id_to_point3D_idx := ∅;
     point3D_id_to_images := [];
     normalized_and_listed := Ok ();
     first_image_read := Ok () |}.

(** A reconstruction whose point 7 is observed by image id 3, while the
    only named image has id 1. *)
Definition demo_loading_unnamed : Loading :=
  {| poses_and_metadata := Ok ();
     name_to_image_id := [("cam00.png", 1)];
     point3D_id_to_point3D_idx := {[ 7 := 0 ]};
     point3D_id_to_images := [(7, [(3, 0)])];
     normalized_and_listed := Ok ();
     first_image_read := Ok () |}.

(** Camera 1 is PINHOLE (code 1); camera 2 is FULL_OPENCV (code 6), a
    model outside the supported codes 0-5. *)
Definition demo_cameras_unsupported : gmap Z Camera :=
  {[ 1 := demo_camera 1 (Qc_of_Z 1000) 0%Qc;
     2 := demo_camera 6 (Qc_of_Z 1000) 0%Qc ]}.

(** What the first loop maintains for every camera it has stored: the
    intrinsics and the size come from that camera's record, a camera with
    distortion parameters has intrinsics, and the parameters stored for a
    camera with a supported tag are its own. *)
Definition parse_inv (cameras : gmap Z Camera) (factor : Z)
    (st : ParseState) : Prop :=
  ∀ id,
    (is_Some (ps_params_dict st !! id) → is_Some (ps_Ks_dict st !! id))
    ∧ (∀ K, ps_Ks_dict st !! id = Some K →
        ∃ cam, cameras !! id = Some cam
               ∧ K = intrinsics cam factor
               ∧ ps_imsize_dict st !! id
                 = Some (cam_width cam / factor, cam_height cam / factor))
    ∧ (∀ ps, ps_params_dict st !! id = Some ps →
        ∃ cam, cameras !! id = Some cam
               ∧ (is_Some (own_camtype cam) → own_params cam = Some ps)).

(** Two PINHOLE cameras, and the state the first loop reaches on them. *)
Definition demo_cameras : gmap Z Camera :=
  {[ 1 := demo_camera 1 (Qc_of_Z 1000) 0%Qc;
     2 := demo_camera 1 (Qc_of_Z 1200) 0%Qc ]}.

Definition demo_state : ParseState :=
  match parse_images demo_cameras 1 parse_init demo_images with
  | Ok st => st
  | Raise _ => parse_init
  end.

(** The destination pixel in row [i], column [j] is valid: it lies in the
    image and its source coordinates fall strictly inside
    [(0, width-1) x (0, height-1)]. *)
Definition valid_pixel (K : matrix) (params : list Qc) (width height : Z)
    (i j : nat) : Prop :=
  Z.of_nat i < height ∧ Z.of_nat j < width
  ∧ let s := fisheye_source K params width height (Z.of_nat j) (Z.of_nat i) in
    (0 < s.1)%Qc ∧ (0 < s.2)%Qc
    ∧ (s.1 < Qc_of_Z (width - 1))%Qc ∧ (s.2 < Qc_of_Z (height - 1))%Qc.




(** A reconstruction with one OPENCV_FISHEYE camera (code 5) on a 5x5
    image: unit focal length, principal point (2, 2), [k1 = 3/5]. *)
Definition demo_fisheye_camera : Camera :=
  {| cam_type := TypeCode 5;
     cam_fx := Qc_of_Z 1; cam_fy := Qc_of_Z 1;
     cam_cx := Qc_of_Z 2; cam_cy := Qc_of_Z 2;
     cam_k1 := Q2Qc (3 # 5); cam_k2 := 0%Qc; cam_p1 := 0%Qc; cam_p2 := 0%Qc;
     cam_k3 := 0%Qc; cam_k4 := 0%Qc;
     cam_width := 5; cam_height := 5 |}.

Definition demo_fisheye_cameras : gmap Z Camera :=
  {[ 1 := demo_fisheye_camera ]}.

Definition demo_fisheye_images : list Image :=
  [ {| im_name := "cam00.png"; im_camera_id := 1 |} ].

(** The parser's attributes for that reconstruction when the undistortion
    loop starts. *)
Definition demo_fisheye_K : matrix :=
  [ [Qc_of_Z 1; Qc_of_Z 0; Qc_of_Z 2];
    [Qc_of_Z 0; Qc_of_Z 1; Qc_of_Z 2];
    [Qc_of_Z 0; Qc_of_Z 0; Qc_of_Z 1] ].

Definition demo_fisheye_params : list Qc :=
  [Q2Qc (3 # 5); 0%Qc; 0%Qc; 0%Qc].


(** Stand-ins for the two OpenCV routines, to run closed examples: the
    intrinsics are kept, the region of interest is the whole image and the
    tables are the identity. *)
Definition identity_getOptimalNewCameraMatrix (K : matrix)
    (params : list Qc) (size : Z * Z) : matrix * (Z * Z * Z * Z) :=
  (K, (0, 0, size.1, size.2)).

Definition identity_initUndistortRectifyMap (K : matrix)
    (params : list Qc) (K_undist : matrix) (size : Z * Z)
    : matrix * matrix :=
  ((λ y, (λ x, Qc_of_Z x) <$> seqZ 0 size.1) <$> seqZ 0 size.2,
   (λ y, (λ x, Qc_of_Z y) <$> seqZ 0 size.1) <$> seqZ 0 size.2).

(** The entries the undistortion loop stores for camera [id] are those of
    the construction selected by [ct], run on the camera's reconciled
    intrinsics and size in [p]. *)
Definition undistorted_by
    (cv2_getOptimalNewCameraMatrix :
       matrix → list Qc → Z * Z → matrix * (Z * Z * Z * Z))
    (cv2_initUndistortRectifyMap :
       matrix → list Qc → matrix → Z * Z → matrix * matrix)
    (ct : camtype_t) (p p' : Parser) (id : Z) (params : list Qc) : Prop :=
  ∃ K width height u,
    Ks_dict p !! id = Some K
    ∧ imsize_dict p !! id = Some (width, height)
    ∧ undistort_camera cv2_getOptimalNewCameraMatrix
        cv2_initUndistortRectifyMap ct K params width height = Ok u
    ∧ Ks_dict p' !! id = Some (u_K u)
    ∧ imsize_dict p' !! id = Some ((u_roi u).1.2, (u_roi u).2)
    ∧ mask_dict p' !! id = Some (u_mask u)
    ∧ mapx_dict p' !! id = Some (u_mapx u)
    ∧ mapy_dict p' !! id = Some (u_mapy u)
    ∧ roi_undist_dict p' !! id = Some (u_roi u).

(** The loop leaves the entries of camera [id] as they were. *)
Definition untouched (p p' : Parser) (id : Z) : Prop :=
  Ks_dict p' !! id = Ks_dict p !! id
  ∧ imsize_dict p' !! id = imsize_dict p !! id
  ∧ mask_dict p' !! id = mask_dict p !! id
  ∧ mapx_dict p' !! id = mapx_dict p !! id
  ∧ mapy_dict p' !! id = mapy_dict p !! id
  ∧ roi_undist_dict p' !! id = roi_undist_dict p !! id.

(** A reconstruction mixing the two families on 5x5 images: camera 1 is
    the fisheye camera above, camera 2 is a PINHOLE camera, and the image
    of camera 2 is enumerated last. *)
Definition demo_pinhole_camera : Camera :=
  {| cam_type := TypeCode 1;
     cam_fx := Qc_of_Z 1; cam_fy := Qc_of_Z 1;
     cam_cx := Qc_of_Z 2; cam_cy := Qc_of_Z 2;
     cam_k1 := 0%Qc; cam_k2 := 0%Qc; cam_p1 := 0%Qc; cam_p2 := 0%Qc;
     cam_k3 := 0%Qc; cam_k4 := 0%Qc;
     cam_width := 5; cam_height := 5 |}.

Definition demo_mixed_cameras : gmap Z Camera :=
  {[ 1 := demo_fisheye_camera; 2 := demo_pinhole_camera ]}.

Definition demo_image_1 : Image :=
  {| im_name := "cam00.png"; im_camera_id := 1 |}.

Definition demo_image_2 : Image :=
  {| im_name := "cam01.png"; im_camera_id := 2 |}.



(** ** Pose converter ([n3d_video_process.py]) *)

Section PoseConverter.
(** The arrays hold floating-point numbers; the conversion only moves
    them, negates them and inverts matrices, so the scalar type is left
    open.  [linalg_inv] is [np.linalg.inv] on one square matrix, which
    raises [LinAlgError] on a singular one. *)
Context {F : Type}.
Variable fzero fone : F.
Variable fneg : F → F.
Variable linalg_inv : list (list F) → res (list (list F)).

(** [a[r, c]] with the shape known. *)
Definition entry (a : list (list F)) (r c : nat) : F :=
  default fzero (at2 a r c).

(** [poses.transpose(1, 2, 0)] on an array of shape [(N, 3, 5)]: the
    result has shape [(3, 5, N)]. *)
Definition transpose_120 (poses : list (list (list F)))
    : list (list (list F)) :=
  (λ r : nat,
     (λ c : nat, (λ P : list (list F), entry P r c) <$> poses) <$> seq 0 5)
    <$> seq 0 3.

(** [a[:, lo:hi, :]]. *)
Definition axis1_slice (lo hi : nat) (a : list (list (list F)))
    : list (list (list F)) :=
  slice lo hi <$> a.

(** [np.concatenate([a, b], axis=1)]. *)
Definition concatenate_axis1 (a b : list (list (list F)))
    : list (list (list F)) :=
  zip_with app a b.

(** [-a]. *)
Definition negate (a : list (list (list F))) : list (list (list F)) :=
  (λ row : list (list F), (λ col : list F, fneg <$> col) <$> row) <$> a.

Definition inversestep1 (newposes : list (list (list F)))
    : list (list (list F)) :=
  concatenate_axis1 (axis1_slice 1 2 newposes)
    (concatenate_axis1 (axis1_slice 0 1 newposes)
       (concatenate_axis1 (negate (axis1_slice 2 3 newposes))
          (concatenate_axis1 (axis1_slice 3 4 newposes)
             (axis1_slice 4 5 newposes)))).

Definition inversestep2 (newposes : list (list (list F)))
    : list (list (list F)) :=
  axis1_slice 0 4 newposes.

(** [newposes.transpose([2, 0, 1])], then the row [0, 0, 0, 1] appended
    to each of the [N] matrices. *)
Definition inversestep3 (newposes : list (list (list F)))
    : list (list (list F)) :=
  let N := length (default [] (head (default [] (head newposes)))) in
  let tmp : list (list (list F)) :=
    (λ n : nat,
       (λ row : list (list F),
          (λ col : list F, default fzero (col !! n)) <$> row) <$> newposes)
      <$> seq 0 N in
  let zeros := [[fzero; fzero; fzero; fone]] in
  (λ m : list (list F), m ++ zeros) <$> tmp.

(** [np.linalg.inv] on a stack of matrices. *)
Definition inversestep4 (c2w_mats : list (list (list F)))
    : res (list (list (list F))) :=
  mapM linalg_inv c2w_mats.

Definition posetow2c_matrcs (poses : list (list (list F)))
    : res (list (list (list F))) :=
  tmp ← inversestep4 (inversestep3 (inversestep2 (inversestep1 poses)));
  let N := length tmp in
  mret ((λ i : nat, default [] (tmp !! i)) <$> seq 0 N).

(** The composition as the specification words it, on one 3x5 record:
    permute the direction columns to (col1, col0, -col2) keeping the
    translation and the height/width/focal column, drop the last column,
    append the row (0, 0, 0, 1), invert. *)
Definition axis_remap (P : list (list F)) : list (list F) :=
  (λ row : list F,
     [ default fzero (row !! 1%nat); default fzero (row !! 0%nat);
       fneg (default fzero (row !! 2%nat));
       default fzero (row !! 3%nat); default fzero (row !! 4%nat) ])
    <$> P.

Definition drop_hwf (P : list (list F)) : list (list F) := take 4 <$> P.

Definition to_homogeneous (M : list (list F)) : list (list F) :=
  M ++ [[fzero; fzero; fzero; fone]].

Definition camera_to_world (P : list (list F)) : list (list F) :=
  to_homogeneous (drop_hwf (axis_remap P)).

Definition world_to_camera (P : list (list F)) : res (list (list F)) :=
  linalg_inv (camera_to_world P).

(** A 3x5 pose record. *)
Definition is_3x5 (P : list (list F)) : Prop :=
  length P = 3%nat ∧ Forall (λ row, length row = 5%nat) P.
End PoseConverter.

(** Exact Gauss-Jordan inversion over the rationals: it stands for
    [np.linalg.inv] when the converter is run on concrete poses. *)
Definition eliminate (k : nat) (prow row : list Qc) : list Qc :=
  zip_with (λ a b, a - (row !!! k) * b)%Qc row prow.

Definition gauss_jordan_step (m : matrix) (k : nat) : option matrix :=
  let top := take k m in
  let rest := drop k m in
  '(i, prow) ← list_find (λ row : list Qc, row !!! k ≠ 0%Qc) rest;
  let prow' := (λ v, v / (prow !!! k))%Qc <$> prow in
  Some ((eliminate k prow' <$> top)
          ++ prow' :: (eliminate k prow' <$> delete i rest)).

Definition identity_matrix (n : nat) : matrix :=
  (λ i : nat,
     (λ j : nat, if decide (i = j) then 1%Qc else 0%Qc) <$> seq 0 n)
    <$> seq 0 n.

Definition gauss_jordan_inv (m : matrix) : res matrix :=
  let n := length m in
  match foldl (λ acc k, acc ≫= λ a, gauss_jordan_step a k)
          (Some (zip_with app m (identity_matrix n))) (seq 0 n) with
  | Some a => Ok (drop n <$> a)
  | None => Raise LinAlgError
  end.

Definition mat_mul (a b : matrix) : matrix :=
  (λ row : list Qc,
     (λ j : nat,
        foldr Qcplus 0%Qc
          (zip_with Qcmult row ((λ brow : list Qc, brow !!! j) <$> b)))
       <$> seq 0 (length (default [] (head b))))
    <$> a.

(** One legacy pose record: a rotation by a quarter turn about the third
    axis, translation (1, 2, 3), and height, width, focal 720, 1280,
    1000. *)
Definition demo_pose : matrix :=
  [ [Qc_of_Z 0; Qc_of_Z (-1); Qc_of_Z 0; Qc_of_Z 1; Qc_of_Z 720];
    [Qc_of_Z 1; Qc_of_Z 0; Qc_of_Z 0; Qc_of_Z 2; Qc_of_Z 1280];
    [Qc_of_Z 0; Qc_of_Z 0; Qc_of_Z 1; Qc_of_Z 3; Qc_of_Z 1000] ].

(** *** Rotation to quaternion *)

Section Rotmat2qvec.
(** [np.linalg.eigh] is library code: it is taken as a given function
    returning the eigenvalues and the matrix whose columns are the
    eigenvectors.  It reads the lower triangle of its argument. *)
Variable linalg_eigh : matrix → list Qc * matrix.

(** [np.argmax]: the first position of the largest entry. *)
Fixpoint np_argmax_from (best : Qc) (besti i : nat) (l : list Qc) : nat :=
  match l with
  | [] => besti
  | x :: l' =>
      if decide (best < x)%Qc then np_argmax_from x i (S i) l'
      else np_argmax_from best besti (S i) l'
  end.

Definition np_argmax (l : list Qc) : nat :=
  match l with
  | [] => 0%nat
  | x :: l' => np_argmax_from x 0 1 l'
  end.

(** The matrix [K] of [rotmat2qvec]; [R.flat] is read row by row into
    [Rxx, Ryx, Rzx, Rxy, Ryy, Rzy, Rxz, Ryz, Rzz]. *)
Definition eigen_matrix (R : matrix) : matrix :=
  let e r c := default 0%Qc (at2 R r c) in
  let Rxx := e 0%nat 0%nat in let Ryx := e 0%nat 1%nat in
  let Rzx := e 0%nat 2%nat in let Rxy := e 1%nat 0%nat in
  let Ryy := e 1%nat 1%nat in let Rzy := e 1%nat 2%nat in
  let Rxz := e 2%nat 0%nat in let Ryz := e 2%nat 1%nat in
  let Rzz := e 2%nat 2%nat in
  let three := Qc_of_Z 3 in
  (λ row : list Qc, (λ v, v / three)%Qc <$> row)
    <$> [ [Rxx - Ryy - Rzz; 0; 0; 0];
          [Ryx + Rxy; Ryy - Rxx - Rzz; 0; 0];
          [Rzx + Rxz; Rzy + Ryz; Rzz - Rxx - Ryy; 0];
          [Ryz - Rzy; Rzx - Rxz; Rxy - Ryx; Rxx + Ryy + Rzz] ]%Qc.

Definition rotmat2qvec (R : matrix) : list Qc :=
  let '(eigvals, eigvecs) := linalg_eigh (eigen_matrix R) in
  let c := np_argmax eigvals in
  let qvec :=
    (λ r : nat, default 0%Qc (at2 eigvecs r c)) <$> [3; 0; 1; 2]%nat in
  if decide (default 0%Qc (qvec !! 0%nat) < 0)%Qc
  then (λ v, v * Qc_of_Z (-1))%Qc <$> qvec
  else qvec.
End Rotmat2qvec.

(** ** Records the dataset relies on *)

(** Every camera id listed in [camera_ids] has the entries that
    [Dataset.__getitem__] reads: intrinsics, size, mask and distortion
    parameters, and the two tables and the region of interest when the
    parameters are not empty; the lists of names and of ids have one entry
    per image. *)
Definition parser_complete (p : Parser) : Prop :=
  length (camera_ids p) = length (camera_names p)
  ∧ ∀ id, id ∈ camera_ids p →
      is_Some (Ks_dict p !! id)
      ∧ is_Some (imsize_dict p !! id)
      ∧ is_Some (mask_dict p !! id)
      ∧ ∃ params, params_dict p !! id = Some params
                  ∧ (params ≠ [] →
                     is_Some (mapx_dict p !! id)
                     ∧ is_Some (mapy_dict p !! id)
                     ∧ is_Some (roi_undist_dict p !! id)).

(** The pair of name and camera id of an image. *)
Definition name_and_id (im : Image) : string * Z :=
  (im_name im, im_camera_id im).


(** ** File names and paths *)

(** [str(n)] on an [int]. *)
Definition py_str (n : Z) : string := pretty n.

(** [os.path.join] on POSIX paths: a component that starts with the
    separator replaces what came before; otherwise it is appended, after
    a separator unless the path so far is empty or already ends in
    one. *)
Definition starts_with_sep (s : string) : bool :=
  match s with
  | String c _ => bool_decide (c = "/"%char)
  | EmptyString => false
  end.

Fixpoint ends_with_sep (s : string) : bool :=
  match s with
  | EmptyString => false
  | String c EmptyString => bool_decide (c = "/"%char)
  | String _ s' => ends_with_sep s'
  end.

Definition path_join2 (path b : string) : string :=
  if starts_with_sep b then b
  else if bool_decide (path = "") || ends_with_sep path then path +:+ b
  else path +:+ "/" +:+ b.

Definition os_path_join (a : string) (p : list string) : string :=
  foldl path_join2 a p.

(** ** Reconstruction driver ([n3d_video_process.py],
       [getcolmapsinglen3d]) *)

(** What the driver does to its surroundings, in order: directories it
    creates, shell commands it runs, files it moves.  Printing is left
    out. *)
Inductive action : Type :=
  | Makedirs (path : string)
  | System (cmd : string)
  | Move (src dst : string).

(** How the driver ends early: the [assert] on the project folder,
    [exit(exit_code)], or [os.listdir] on a missing directory. *)
Inductive stop : Type :=
  | AssertFailed
  | SystemExit (code : Z)
  | FileNotFound.

(** A script: the actions performed so far, and either the reason it
    stopped or its value. *)
Definition script (A : Type) : Type := list action * (stop + A).

#[global] Instance script_ret : MRet script := λ A a, ([], inr a).
#[global] Instance script_bind : MBind script := λ A B f m,
  match m with
  | (t, inl e) => (t, inl e)
  | (t, inr a) => let '(t', r) := f a in (t ++ t', r)
  end.

Definition emit (a : action) : script () := ([a], inr ()).
Definition halt {A} (e : stop) : script A := ([], inl e).

(** The five shell commands, as functions of the project folder. *)
Definition featureextract (folder : string) : string :=
  "colmap feature_extractor --database_path "
  +:+ os_path_join folder ["input.db"]
  +:+ " --image_path " +:+ os_path_join folder ["input"]
  +:+ " --SiftExtraction.max_image_size 4096 --SiftExtraction.max_num_features 106384 --SiftExtraction.estimate_affine_shape 1 --SiftExtraction.domain_size_pooling 1 --ImageReader.camera_model PINHOLE".

Definition featurematcher (folder : string) : string :=
  "colmap exhaustive_matcher --database_path "
  +:+ os_path_join folder ["input.db"].

Definition triandmap (folder : string) : string :=
  "colmap point_triangulator --database_path "
  +:+ os_path_join folder ["input.db"]
  +:+ " --image_path " +:+ os_path_join folder ["input"]
  +:+ " --output_path " +:+ os_path_join folder ["distorted/sparse"]
  +:+ " --input_path " +:+ os_path_join folder ["manual"]
  +:+ " --Mapper.ba_global_function_tolerance=0.000001".

Definition img_undist_cmd (folder : string) : string :=
  "colmap" +:+ " image_undistorter --image_path "
  +:+ os_path_join folder ["input"]
  +:+ " --input_path " +:+ os_path_join folder ["distorted/sparse"]
  +:+ " --output_path " +:+ folder
  +:+ " --output_type COLMAP".

Definition removeinput (folder : string) : string :=
  "rm -r " +:+ os_path_join folder ["input"].

Definition colmap_commands (folder : string) : list string :=
  [ featureextract folder; featurematcher folder; triandmap folder;
    img_undist_cmd folder; removeinput folder ].

(** The moves of the final loop: every listed entry except ['0'] goes
    from [sparse/] to [sparse/0/]. *)
Definition move_to_sparse_0 (folder file : string) : action :=
  Move (os_path_join folder ["sparse"; file])
       (os_path_join folder ["sparse"; "0"; file]).

Section Driver.
(** The surroundings: which paths exist, the exit status of each shell
    command, and the listing of a directory ([None] when it is
    missing). *)
Variable os_path_exists : string → bool.
Variable os_system : string → Z.
Variable os_listdir : string → option (list string).

(** [if not os.path.exists(path): os.makedirs(path)]. *)
Definition ensure_dir (path : string) : script () :=
  if os_path_exists path then mret () else emit (Makedirs path).

(** [exit_code = os.system(cmd); if exit_code != 0: exit(exit_code)]. *)
Definition run_checked (cmd : string) : script () :=
  emit (System cmd);;
  let exit_code := os_system cmd in
  if decide (exit_code ≠ 0) then halt (SystemExit exit_code) else mret ().

Definition listdir (path : string) : script (list string) :=
  match os_listdir path with
  | Some files => mret files
  | None => halt FileNotFound
  end.

(** [for file in files: if file == '0': continue; shutil.move(...)]. *)
Fixpoint move_files (folder : string) (files : list string) : script () :=
  match files with
  | [] => mret ()
  | file :: rest =>
      (if decide (file = "0") then mret ()
       else emit (move_to_sparse_0 folder file));;
      move_files folder rest
  end.

Definition getcolmapsinglen3d (folder : string) (offset : Z) : script () :=
  let folder := os_path_join folder ["colmap_" +:+ py_str offset] in
  if negb (os_path_exists folder) then halt AssertFailed
  else
    ensure_dir (os_path_join folder ["tmp"]);;
    ensure_dir (os_path_join folder ["distorted/sparse"]);;
    run_checked (featureextract folder);;
    run_checked (featurematcher folder);;
    run_checked (triandmap folder);;
    run_checked (img_undist_cmd folder);;
    run_checked (removeinput folder);;
    files ← listdir (folder +:+ "/sparse");
    emit (Makedirs (folder +:+ "/sparse/0"));;
    move_files folder files.
End Driver.

(** The shell commands and the moves of a trace. *)
Definition commands_run (t : list action) : list string :=
  omap (λ a, match a with System c => Some c | _ => None end) t.

Definition moves_done (t : list action) : list (string * string) :=
  omap (λ a, match a with Move src dst => Some (src, dst) | _ => None end) t.


(** ** Numbered file names *)

(** The padding of the format specification [0wd]. *)
Fixpoint zeros (n : nat) : string :=
  match n with
  | O => ""
  | S n => String "0" (zeros n)
  end.

(** [format(n, "0wd")], the [{n:0wd}] of an f-string: the decimal digits
    padded with zeros to [w] characters, the sign of a negative number
    coming first and counting towards the width. *)
Definition format_0d (w : nat) (n : Z) : string :=
  if decide (n < 0) then
    let digits := py_str (- n) in
    "-" +:+ zeros (w - 1 - String.length digits) +:+ digits
  else
    let digits := py_str n in
    zeros (w - String.length digits) +:+ digits.

(** Every character of the string satisfies [P]. *)
Fixpoint string_all (P : ascii → bool) (s : string) : bool :=
  match s with
  | EmptyString => true
  | String c s' => P c && string_all P s'
  end.

Definition is_digit (c : ascii) : bool :=
  bool_decide (c ∈ ["0"; "1"; "2"; "3"; "4"; "5"; "6"; "7"; "8"; "9"]%char).

(** A numeral as [str] prints it for a number that is not negative:
    digits only, not empty, and no leading zero except for ["0"]
    itself. *)
Definition numeral (s : string) : Prop :=
  string_all is_digit s = true
  ∧ s ≠ ""
  ∧ ∀ t, s = String "0" t → t = "".

(** ** Staging of the key frames ([n3d_video_process.py], main block) *)

(** [sorted(names)] on strings. *)
Definition py_sorted (names : list string) : list string :=
  merge_sort String.le names.

(** Lines 259-269 for one key frame: the copies [(image_path, save_path)]
    of [for ind, cam in enumerate(camera_names)]. *)
Definition stage_copies (root_dir folder_name : string)
    (camera_names : list string) (frame : Z) : list (string * string) :=
  let output_path := os_path_join root_dir [folder_name; "png"] in
  let first_frame_path :=
    os_path_join root_dir
      [folder_name; "colmap_" +:+ py_str frame; "input"] in
  imap (λ (ind : nat) (cam : string),
          (os_path_join output_path
             [cam; format_0d 5 (frame + 1) +:+ ".png"],
           os_path_join first_frame_path
             ["cam" +:+ format_0d 2 (Z.of_nat ind) +:+ ".png"]))
    camera_names.

(** ** Where the parser and the dataset look ([GIFStream_new.py]) *)

(** Lines 46-51: the reconstruction of the first frame's project if it
    exists, else the scene-wide one; the [assert] on the chosen
    directory. *)
Definition Parser_colmap_dir (os_path_exists : string → bool)
    (data_dir : string) (first_frame : Z) : res string :=
  let colmap_dir :=
    os_path_join data_dir
      ["colmap_" +:+ py_str first_frame; "sparse/0/"] in
  let colmap_dir :=
    if os_path_exists colmap_dir then colmap_dir
    else os_path_join data_dir ["sparse/0/"] in
  if os_path_exists colmap_dir then Ok colmap_dir
  else Raise AssertionError.

(** Line 203: [campaths] from the listing of the [png] directory. *)
Definition Parser_campaths (data_dir : string) (listing : list string)
    : list string :=
  (λ x, os_path_join data_dir ["png"; x]) <$> py_sorted listing.

(** Lines 349-352: the image file [__getitem__] reads. *)
Definition Dataset_image_path (ds : Dataset) (item : Z) : res string :=
  '(cam, frame_idx) ← Dataset_locate ds item;
  camera_path ← py_getitem (campaths (parser ds)) cam;
  mret (os_path_join camera_path [format_0d 5 (frame_idx + 1) +:+ ".png"]).


(** What [os.path.join] puts before a relative component. *)
Definition dir_prefix (path : string) : string :=
  if bool_decide (path = "") || ends_with_sep path then path
  else path +:+ "/".

(** A string without the path separator. *)
Definition no_sep (s : string) : bool :=
  string_all (λ c, negb (bool_decide (c = "/"%char))) s.


(** Lines 245 and 255 of the script: the directories of the [png]
    folder, sorted. *)
Definition script_camera_names (os_path_isdir : string → bool)
    (output_path : string) (listing : list string) : list string :=
  py_sorted
    (filter (λ name, os_path_isdir (os_path_join output_path [name]) = true)
       listing).


(** ** Database conversion ([n3d_video_process.py],
       [convertdynerftocolmapdb]) *)

(** What the loop over the cameras produces for camera [i]: the fields
    of its line of [images.txt] (also the arguments of [db.add_image],
    whose [camera_id] comes from the database) and of its line of
    [cameras.txt] (also the arguments of [db.add_camera]).  The lines
    themselves print floating-point numbers and are left out. *)
Record ImageRow : Type := {
  row_image_id : Z;
  row_qvec : list Qc;
  row_tvec : list Qc;
  row_camera_id : Z;
  row_name : string }.

Record CameraRow : Type := {
  crow_camera_id : Z;
  crow_width : Qc;
  crow_height : Qc;
  crow_params : list Qc }.

(** [x // 2] on a float. *)
Definition float_half_floor (x : Qc) : Qc :=
  Qc_of_Z (Qfloor (x / Qc_of_Z 2)%Qc).

(** [poses_bounds[:, :15].reshape(-1, 3, 5)]. *)
Definition poses_of_bounds (poses_bounds : matrix) : list matrix :=
  (λ row : list Qc,
     let r := take 15 row in
     [take 5 r; take 5 (drop 5 r); take 5 (drop 10 r)]) <$> poses_bounds.

Section Convert.
Variable linalg_inv : matrix → res matrix.
Variable linalg_eigh : matrix → list Qc * matrix.

(** The body of [for i in range(len(poses))]. *)
Definition convert_row (poses : list matrix) (w2c_matriclist : list matrix)
    (i : Z) : res (ImageRow * CameraRow) :=
  let cameraname := "cam" +:+ format_0d 2 i in
  m ← py_getitem w2c_matriclist i;
  let colmapR := take 3 <$> take 3 m in
  let T := (λ row : list Qc, default 0%Qc (row !! 3%nat)) <$> take 3 m in
  pose ← py_getitem poses i;
  let H := default 0%Qc (at2 pose 0 4) in
  let W := default 0%Qc (at2 pose 1 4) in
  let focal := default 0%Qc (at2 pose 2 4) in
  let colmapQ := rotmat2qvec linalg_eigh colmapR in
  let pngname := cameraname +:+ ".png" in
  mret ({| row_image_id := i + 1;
           row_qvec := colmapQ;
           row_tvec := T;
           row_camera_id := i + 1;
           row_name := pngname |},
        {| crow_camera_id := i + 1;
           crow_width := W;
           crow_height := H;
           crow_params :=
             [focal; focal; float_half_floor W; float_half_floor H] |}).

Definition convert_rows (poses_bounds : matrix)
    : res (list (ImageRow * CameraRow)) :=
  let poses := poses_of_bounds poses_bounds in
  let llffposes := transpose_120 0%Qc poses in
  w2c_matriclist ← posetow2c_matrcs 0%Qc 1%Qc Qcopp linalg_inv llffposes;
  mapM (convert_row poses w2c_matriclist)
    (py_range (Z.of_nat (length poses))).
End Convert.


(** ** Points seen by each image, as a specification *)

(** The indices a finished table should hold for [image_name]: one for
    each observation of that image, in the order of the loops. *)
Definition observations_of (image_id_to_name : gmap Z string)
    (point3D_id_to_point3D_idx : gmap Z Z)
    (point3D_id_to_images : list (Z * list (Z * Z)))
    (image_name : string) : list Z :=
  item ← point3D_id_to_images;
  obs ← item.2;
  if decide (image_id_to_name !! obs.1 = Some image_name)
  then option_list (point3D_id_to_point3D_idx !! item.1)
  else [].

(** ** Random crop ([GIFStream_new.py], [Dataset.__getitem__],
       lines 371-378) *)

(** The exclusive upper bound handed to [np.random.randint]. *)
Definition randint_high (size patch_size : Z) : Z :=
  Z.max (size - patch_size) 1.

(** The patch and the shifted intrinsics, for the drawn corner
    [(x, y)]. *)
Definition random_crop {A} (image : list (list A)) (K : matrix)
    (patch_size x y : Z) : list (list A) * matrix :=
  (crop y (y + patch_size) x (x + patch_size) image,
   shift_principal_point x y K).


(** * Part II: theorems *)

(** ** Theorems: keyframe planner *)

Lemma ceil_div_spec a b :
  0 < b → (ceil_div a b - 1) * b < a ≤ ceil_div a b * b.
Proof.
  intros Hb. unfold ceil_div.
  pose proof (Z.div_mod (- a) b ltac:(lia)) as Hdm.
  pose proof (Z.mod_pos_bound (- a) b Hb) as Hm.
  nia.
Qed.

Lemma ceil_div_floor a b : 0 < b → (a + b - 1) / b = ceil_div a b.
Proof.
  intros Hb. pose proof (ceil_div_spec a b Hb) as Hc.
  symmetry. apply Z.div_unique with (r := a + b - 1 - ceil_div a b * b); lia.
Qed.

Lemma increasing_affine S G m n :
  0 < G → increasing ((λ k, S + k * G) <$> seqZ m n).
Proof.
  intros HG. remember (Z.to_nat n) as k eqn:Hk.
  revert m n Hk. induction k as [|k IH]; intros m n Hk.
  - rewrite seqZ_nil by lia. exact I.
  - rewrite seqZ_cons by lia. cbn. split; [|apply IH; lia].
    destruct (decide (0 < Z.pred n)) as [Hp|Hp].
    + rewrite seqZ_cons by lia. cbn. lia.
    + rewrite seqZ_nil by lia. exact I.
Qed.

(** C5. For [E > S] and [G > 0] the planner's keyframe list is exactly
    [S + k*G] for [k = 0 .. ceil((E-S)/G) - 1], in increasing order; its
    members are characterised by that range of [k], where the number of
    keyframes [n] is the ceiling (the least [n] with [E - S <= n*G]); for
    (0, 300, 60) it is 0, 60, 120, 180, 240 and for (10, 25, 10) it is
    10, 20. *)
Theorem frame_list_keyframes (S E G : Z) :
  S < E → 0 < G →
  frame_list S E G = Ok (keyframe_set S E G)
  ∧ increasing (keyframe_set S E G)
  ∧ (∀ x, x ∈ keyframe_set S E G ↔
          ∃ k, 0 ≤ k ∧ (k < ceil_div (E - S) G) ∧ x = S + k * G)
  ∧ (ceil_div (E - S) G - 1) * G < E - S ≤ ceil_div (E - S) G * G
  ∧ frame_list 0 300 60 = Ok [0; 60; 120; 180; 240]
  ∧ frame_list 10 25 10 = Ok [10; 20].
Proof.
  intros HSE HG. split_and!.
  - unfold frame_list, py_floordiv. rewrite decide_False by lia. cbn.
    unfold keyframe_set, py_range. by rewrite ceil_div_floor.
  - by apply increasing_affine.
  - intros x. unfold keyframe_set. rewrite list_elem_of_fmap. split.
    + intros (k & -> & Hk). apply elem_of_seqZ in Hk. exists k. lia.
    + intros (k & H0 & H1 & ->). exists k. split; [done|].
      apply elem_of_seqZ. lia.
  - by apply ceil_div_spec.
  - by apply ceil_div_spec.
  - reflexivity.
  - reflexivity.
Qed.

Lemma frame_list_keyframes_witness :
  frame_list 0 300 60 = Ok (keyframe_set 0 300 60)
  ∧ frame_list 0 300 60 = Ok [0; 60; 120; 180; 240].
Proof.
  pose proof (frame_list_keyframes 0 300 60 ltac:(lia) ltac:(lia)) as H.
  split; [apply H | apply H].
Defined.

(** ** Theorems: sample dataset *)

Lemma bind_Ok {A B} (m : res A) (f : A → res B) b :
  m ≫= f = Ok b ↔ ∃ a, m = Ok a ∧ f a = Ok b.
Proof.
  destruct m as [a|e]; cbn; split.
  - intros H. by exists a.
  - by intros (? & [= <-] & ?).
  - done.
  - by intros (? & ? & ?).
Qed.

Lemma py_getitem_Ok {A} (l : list A) (i : Z) :
  0 ≤ i < Z.of_nat (length l) →
  ∃ a, l !! Z.to_nat i = Some a ∧ py_getitem l i = Ok a.
Proof.
  intros Hi. unfold py_getitem.
  destruct (decide (i < 0)) as [?|_]; [lia|].
  destruct (decide (i < 0)) as [?|_]; [lia|].
  destruct (lookup_lt_is_Some_2 l (Z.to_nat i) ltac:(lia)) as [a Ha].
  exists a. by rewrite Ha.
Qed.

(** The splits are unions of whole camera blocks. *)
Lemma split_indices_filter n split G test_set remove_set :
  split_indices n split G test_set remove_set =
  filter (λ x, kept split test_set remove_set (x / G) = true)
    (seqZ 0 (Z.of_nat n * G)).
Proof.
  unfold split_indices, py_range, kept.
  destruct remove_set as [rs|]; destruct (decide (split = "train")).
  - rewrite list_filter_filter. apply list_filter_iff. intros x.
    rewrite andb_true_iff, !bool_decide_eq_true. tauto.
  - rewrite list_filter_filter. apply list_filter_iff. intros x.
    rewrite andb_true_iff, !bool_decide_eq_true. tauto.
  - apply list_filter_iff. intros x.
    rewrite andb_true_iff, !bool_decide_eq_true. tauto.
  - apply list_filter_iff. intros x.
    rewrite andb_true_iff, !bool_decide_eq_true. tauto.
Qed.

Lemma kept_spec split test_set remove_set c :
  kept split test_set remove_set c = true ↔
  (if decide (split = "train") then c ∉ test_set else c ∈ test_set)
  ∧ match remove_set with None => True | Some rs => c ∉ rs end.
Proof.
  unfold kept. rewrite andb_true_iff.
  destruct (decide (split = "train")), remove_set;
    rewrite ?bool_decide_eq_true; tauto.
Qed.

Lemma filter_block (P : Z → Prop) `{!∀ c, Decision (P c)} G c :
  0 < G → 0 ≤ c →
  filter (λ x, P (x / G)) (seqZ (c * G) G) =
  if decide (P c) then seqZ (c * G) G else [].
Proof.
  intros HG Hc.
  assert (Hdiv : ∀ x, x ∈ seqZ (c * G) G → x / G = c).
  { intros x Hx%elem_of_seqZ. symmetry.
    apply Z.div_unique with (r := x - c * G); lia. }
  revert Hdiv. generalize (seqZ (c * G) G). intros l Hl.
  induction l as [|x l IH]; [by destruct (decide (P c))|].
  rewrite filter_cons, (Hl x) by left.
  rewrite IH by (intros y Hy; apply Hl; by right).
  by destruct (decide (P c)).
Qed.

Lemma filter_blocks_residue (P : Z → Prop) `{!∀ c, Decision (P c)} G n :
  0 < G →
  let L := filter (λ x, P (x / G)) (seqZ 0 (Z.of_nat n * G)) in
  Z.of_nat (length L) mod G = 0
  ∧ ∀ i g, L !! i = Some g → Z.of_nat i mod G = g mod G.
Proof.
  intros HG. induction n as [|n [IHlen IH]]; cbn zeta.
  - rewrite Z.mul_0_l, seqZ_nil by lia. rewrite filter_nil. cbn.
    split; [apply Z.mod_0_l; lia|]. intros i g Hi.
    by rewrite lookup_nil in Hi.
  - replace (Z.of_nat (S n) * G) with (Z.of_nat n * G + G) by lia.
    rewrite seqZ_app by nia. rewrite filter_app, Z.add_0_l.
    rewrite filter_block by lia.
    set (L := filter _ (seqZ 0 (Z.of_nat n * G))) in *.
    destruct (decide (P (Z.of_nat n))) as [HP|HP].
    + split.
      * rewrite length_app, length_seqZ, Nat2Z.inj_add, Z2Nat.id by lia.
        rewrite <-Zplus_mod_idemp_l, IHlen. cbn. apply Z.mod_same. lia.
      * intros i g [Hl|[Hge Hr]]%lookup_app_Some; [by apply IH|].
        apply lookup_seqZ in Hr as [-> Hlt].
        apply Z.mod_divide in IHlen as [k Hk]; [|lia].
        replace (Z.of_nat i) with (Z.of_nat (i - length L) + k * G) by lia.
        rewrite Z.mod_add by lia.
        replace (Z.of_nat n * G + Z.of_nat (i - length L))
          with (Z.of_nat (i - length L) + Z.of_nat n * G) by lia.
        by rewrite Z.mod_add by lia.
    + rewrite app_nil_r. by split.
Qed.

(** C6. In the dataset that [Dataset.__init__] builds, a global index
    [x] is among the indices of the train split iff it is in range and
    [x div GOP_size] is not in [test_set]; it is among those of any other
    split (the test split) iff it is in range and [x div GOP_size] is in
    [test_set]; a [remove_set] then removes the indices whose
    [x div GOP_size] is listed in it, from either split.  With
    [GOP_size = 50] and [test_set = [0]], index 49 is in the test split
    and index 50 in the train split (two cameras). *)
Theorem split_membership (p : Parser) (start_frame G : Z)
    (test_set : list Z) (remove_set : option (list Z)) (split : string)
    (x : Z) :
  let n := length (camera_names p) in
  let removed :=
    match remove_set with None => False | Some rs => x / G ∈ rs end in
  (x ∈ indices (Dataset_init p "train" start_frame G test_set remove_set) ↔
     (0 ≤ x < Z.of_nat n * G) ∧ (x / G ∉ test_set) ∧ ¬ removed)
  ∧ (split ≠ "train" →
     x ∈ indices (Dataset_init p split start_frame G test_set remove_set) ↔
       (0 ≤ x < Z.of_nat n * G) ∧ x / G ∈ test_set ∧ ¬ removed)
  ∧ 49 ∈ indices (Dataset_init demo_parser "test" 0 50 [0] None)
  ∧ 50 ∈ indices (Dataset_init demo_parser "train" 0 50 [0] None)
  ∧ (49 ∉ indices (Dataset_init demo_parser "train" 0 50 [0] None))
  ∧ (50 ∉ indices (Dataset_init demo_parser "test" 0 50 [0] None)).
Proof.
  cbn zeta. unfold Dataset_init. cbn [indices]. split_and!.
  - rewrite split_indices_filter, list_elem_of_filter, elem_of_seqZ, kept_spec.
    rewrite decide_True by done. destruct remove_set; intuition lia.
  - intros Hs.
    rewrite split_indices_filter, list_elem_of_filter, elem_of_seqZ, kept_spec.
    rewrite decide_False by done. destruct remove_set; intuition lia.
  - rewrite split_indices_filter, list_elem_of_filter, elem_of_seqZ.
    split; [reflexivity|cbn; lia].
  - rewrite split_indices_filter, list_elem_of_filter, elem_of_seqZ.
    split; [reflexivity|cbn; lia].
  - rewrite split_indices_filter, list_elem_of_filter. by intros [? _].
  - rewrite split_indices_filter, list_elem_of_filter. by intros [? _].
Qed.

Lemma split_membership_witness :
  49 ∈ indices demo_test
  ↔ (0 ≤ 49 < Z.of_nat (length (camera_names demo_parser)) * 50)
    ∧ 49 / 50 ∈ [0] ∧ ¬ False.
Proof.
  apply (split_membership demo_parser 0 50 [0] None "test" 49). discriminate.
Defined.

Lemma split_indices_position n split G test_set remove_set (i : nat) g :
  split_indices n split G test_set remove_set !! i = Some g →
  0 < G ∧ (0 ≤ g < Z.of_nat n * G) ∧ Z.of_nat i mod G = g mod G.
Proof.
  intros Hi.
  assert (Hin : g ∈ split_indices n split G test_set remove_set)
    by (apply list_elem_of_lookup; eauto).
  rewrite split_indices_filter in Hi, Hin.
  apply list_elem_of_filter in Hin as [_ Hg%elem_of_seqZ].
  assert (HG : 0 < G) by nia.
  split; [done|]. split; [lia|].
  by eapply (filter_blocks_residue
               (λ c, kept split test_set remove_set c = true) G n HG).
Qed.

Lemma Dataset_locate_Ok ds (item : Z) :
  0 < GOP_size ds → 0 ≤ item < Dataset_len ds →
  ∃ g, indices ds !! Z.to_nat item = Some g
       ∧ Dataset_locate ds item
         = Ok (g / GOP_size ds, start_frame ds + item mod GOP_size ds).
Proof.
  intros HG Hitem. unfold Dataset_locate.
  destruct (py_getitem_Ok (indices ds) item Hitem) as (g & Hg & ->).
  exists g. split; [done|]. cbn. unfold py_floordiv.
  destruct (decide (GOP_size ds = 0)) as [?|_]; [lia|]. cbn.
  do 2 f_equal. rewrite Z.mod_eq by lia. lia.
Qed.

Lemma seqZ_div_mod_bijection (n : nat) (G : Z) :
  0 < G →
  (∀ g, 0 ≤ g < Z.of_nat n * G →
        (0 ≤ g / G < Z.of_nat n) ∧ (0 ≤ g mod G < G))
  ∧ (∀ c f, 0 ≤ c < Z.of_nat n → 0 ≤ f < G →
        (0 ≤ c * G + f < Z.of_nat n * G)
        ∧ (c * G + f) / G = c ∧ (c * G + f) mod G = f)
  ∧ (∀ g g', g / G = g' / G → g mod G = g' mod G → g = g').
Proof.
  intros HG. split_and!.
  - intros g Hg. split.
    + split; [apply Z.div_pos; lia|]. apply Z.div_lt_upper_bound; lia.
    + apply Z.mod_pos_bound; lia.
  - intros c f Hc Hf. split; [nia|]. split.
    + symmetry. apply Z.div_unique with (r := f); lia.
    + symmetry. apply Z.mod_unique with (q := c); lia.
  - intros g g' Hd Hm.
    rewrite (Z.div_mod g G), (Z.div_mod g' G) by lia. congruence.
Qed.

Lemma Dataset_getitem_locate ds item s :
  Dataset_getitem ds item = Ok s →
  Dataset_locate ds item = Ok (s_cam s, s_frame_idx s)
  ∧ Dataset_time ds (s_frame_idx s) = Ok (s_time s).
Proof.
  unfold Dataset_getitem. intros H.
  apply bind_Ok in H as ([cam frame_idx] & Hloc & H).
  do 6 (apply bind_Ok in H as (? & _ & H)).
  apply bind_Ok in H as (t & Ht & H).
  injection H as <-. cbn. by rewrite Hloc, Ht.
Qed.

(** C2 (amended). In every split, the sample at a valid position [item]
    is the one of the global index [g = indices[item]]: its camera is
    [g div GOP_size] and its frame is
    [start_frame + (item mod GOP_size) = start_frame + (g mod GOP_size)];
    the stored indices are distinct, and [g ↦ (g div G, g mod G)] is a
    bijection from [0 .. N*G-1] onto cameras times frames-in-GOP. *)
Theorem getitem_global_index (p : Parser) (split : string)
    (start G : Z) (test_set : list Z) (remove_set : option (list Z))
    (item : Z) :
  let ds := Dataset_init p split start G test_set remove_set in
  let n := length (camera_names p) in
  0 ≤ item < Dataset_len ds →
  (∃ g, indices ds !! Z.to_nat item = Some g
        ∧ (0 ≤ g < Z.of_nat n * G)
        ∧ item mod G = g mod G
        ∧ Dataset_locate ds item = Ok (g / G, start + g mod G)
        ∧ ∀ s, Dataset_getitem ds item = Ok s →
               s_cam s = g / G ∧ s_frame_idx s = start + g mod G)
  ∧ NoDup (indices ds)
  ∧ (∀ g, 0 ≤ g < Z.of_nat n * G →
          (0 ≤ g / G < Z.of_nat n) ∧ (0 ≤ g mod G < G))
  ∧ (∀ c f, 0 ≤ c < Z.of_nat n → 0 ≤ f < G →
          (0 ≤ c * G + f < Z.of_nat n * G)
          ∧ (c * G + f) / G = c ∧ (c * G + f) mod G = f)
  ∧ (∀ g g', g / G = g' / G → g mod G = g' mod G → g = g').
Proof.
  intros ds n Hitem.
  destruct (py_getitem_Ok (indices ds) item Hitem) as (g & Hg & _).
  destruct (split_indices_position _ _ _ _ _ _ _ Hg) as (HG & Hrange & Hres).
  rewrite Z2Nat.id in Hres by lia.
  split; [|split; [|by apply seqZ_div_mod_bijection]].
  - exists g. split; [done|]. split; [done|]. split; [done|].
    destruct (Dataset_locate_Ok ds item HG Hitem) as (g' & Hg' & Hloc).
    assert (g' = g) as -> by congruence.
    cbn in Hloc. rewrite Hres in Hloc. split; [done|].
    intros s [Hs _]%Dataset_getitem_locate. split; congruence.
  - cbn. rewrite split_indices_filter. apply NoDup_filter, NoDup_seqZ.
Qed.

Lemma getitem_global_index_witness :
  ∃ g, indices demo_train !! Z.to_nat 0 = Some g
       ∧ Dataset_locate demo_train 0 = Ok (g / 50, 0 + g mod 50).
Proof.
  destruct (getitem_global_index demo_parser "train" 0 50 [0] None 0)
    as [(g & Hg & _ & _ & Hloc & _) _].
  - vm_compute. split; [discriminate | reflexivity].
  - exists g. split; [exact Hg | exact Hloc].
Defined.

(** C2 as stated fails: in the default train split ([test_set = [0]]),
    position 0 holds global index 50, so the sample at dataset index 0 is
    for camera 1, not for camera [0 div 50 = 0]. *)
Lemma getitem_position_counterexample :
  (0 ≤ 0 < Dataset_len demo_train)
  ∧ indices demo_train !! 0%nat = Some 50
  ∧ Dataset_locate demo_train 0 = Ok (1, 0)
  ∧ (∃ s, Dataset_getitem demo_train 0 = Ok s
          ∧ s_image_id s = 0 ∧ s_cam s = 1 ∧ s_frame_idx s = 0)
  ∧ ¬ (∀ s, Dataset_getitem demo_train 0 = Ok s →
            s_cam s = 0 / GOP_size demo_train).
Proof.
  assert (Hs : ∃ s, Dataset_getitem demo_train 0 = Ok s
          ∧ s_image_id s = 0 ∧ s_cam s = 1 ∧ s_frame_idx s = 0).
  { eexists. split; [vm_compute; reflexivity|]. by split_and!. }
  split; [|split; [|split; [|split]]].
  - vm_compute. split; [discriminate | reflexivity].
  - reflexivity.
  - reflexivity.
  - exact Hs.
  - destruct Hs as (s & Hs & _ & Hcam & _). intros H.
    specialize (H s Hs). rewrite Hcam in H. discriminate.
Qed.

Lemma Qc_of_Z_ratio_bounds a b :
  0 ≤ a ≤ b → 0 < b → (0 ≤ Qc_of_Z a / Qc_of_Z b ≤ 1)%Qc.
Proof.
  intros Hab Hb.
  assert (Hpos : (inject_Z 0 < inject_Z b)%Q) by (by rewrite <-Zlt_Qlt).
  unfold Qcle, Qcdiv, Qcmult, Qcinv, Q2Qc, Qc_of_Z; cbn [this].
  rewrite !Qred_correct. split.
  - apply Qle_shift_div_l; [done|]. rewrite Qmult_0_l.
    change 0%Q with (inject_Z 0). rewrite <-Zle_Qle. lia.
  - apply Qle_shift_div_r; [done|]. rewrite Qmult_1_l.
    rewrite <-Zle_Qle. lia.
Qed.

Lemma py_truediv_nonzero a b :
  b ≠ 0 → py_truediv a b = Ok (Qc_of_Z a / Qc_of_Z b)%Qc.
Proof. intros Hb. unfold py_truediv. by destruct (decide (b = 0)). Qed.

Lemma py_truediv_Ok a b t :
  py_truediv a b = Ok t → b ≠ 0 ∧ t = (Qc_of_Z a / Qc_of_Z b)%Qc.
Proof.
  unfold py_truediv. destruct (decide (b = 0)); [done|].
  by intros [= <-].
Qed.

(** C8. With [GOP_size >= 2], every sample carries
    [time = (frame_idx - start_frame) / (GOP_size - 1)], a value in
    [0, 1]; for a GOP of 50 frames starting at frame 0 the frames 0, 49
    and 25 get the times 0, 1 and 25/49 (between 0.51015 and 0.51025);
    with [GOP_size = 1] the division raises [ZeroDivisionError], nothing
    guards it, and no sample is returned. *)
Theorem sample_time_normalized (ds : Dataset) :
  (2 ≤ GOP_size ds → ∀ item s, Dataset_getitem ds item = Ok s →
     s_time s = (Qc_of_Z (s_frame_idx s - start_frame ds)
                 / Qc_of_Z (GOP_size ds - 1))%Qc
     ∧ (0 ≤ s_time s ≤ 1)%Qc)
  ∧ (GOP_size ds = 50 → start_frame ds = 0 →
     Dataset_time ds 0 = Ok (Q2Qc 0)
     ∧ Dataset_time ds 49 = Ok (Q2Qc 1)
     ∧ Dataset_time ds 25 = Ok (Q2Qc (25 # 49))
     ∧ (Q2Qc (51015 # 100000) < Q2Qc (25 # 49) < Q2Qc (51025 # 100000))%Qc)
  ∧ (GOP_size ds = 1 →
     (∀ frame_idx, Dataset_time ds frame_idx = Raise ZeroDivisionError)
     ∧ ∀ item s, Dataset_getitem ds item ≠ Ok s).
Proof.
  split; [|split].
  - intros HG item s Hs.
    apply Dataset_getitem_locate in Hs as [Hloc Ht].
    apply py_truediv_Ok in Ht as [_ Ht]. split; [done|]. rewrite Ht.
    apply Qc_of_Z_ratio_bounds; [|lia].
    unfold Dataset_locate in Hloc.
    apply bind_Ok in Hloc as (g & _ & Hloc).
    apply bind_Ok in Hloc as (cam & _ & Hloc).
    apply bind_Ok in Hloc as (q & Hq & Hloc).
    unfold py_floordiv in Hq. destruct (decide (GOP_size ds = 0)); [done|].
    injection Hq as <-. injection Hloc as _ <-.
    pose proof (Z.mod_pos_bound item (GOP_size ds) ltac:(lia)) as Hm.
    rewrite Z.mod_eq in Hm by lia. lia.
  - intros HG Hstart. unfold Dataset_time. rewrite HG, Hstart.
    split; [|split; [|split; [|split]]].
    + rewrite py_truediv_nonzero by done.
      apply (f_equal Ok), Qc_is_canon. reflexivity.
    + rewrite py_truediv_nonzero by done.
      apply (f_equal Ok), Qc_is_canon. reflexivity.
    + rewrite py_truediv_nonzero by done.
      apply (f_equal Ok), Qc_is_canon. reflexivity.
    + reflexivity.
    + reflexivity.
  - intros HG. assert (Ht : ∀ f, Dataset_time ds f = Raise ZeroDivisionError).
    { intros f. unfold Dataset_time. by rewrite HG. }
    split; [done|]. intros item s [_ Hs]%Dataset_getitem_locate. congruence.
Qed.

Lemma sample_time_normalized_witness :
  ∃ s, Dataset_getitem demo_test 25 = Ok s
       ∧ s_frame_idx s = 25
       ∧ s_time s = (Qc_of_Z (s_frame_idx s - 0) / Qc_of_Z (50 - 1))%Qc
       ∧ (0 ≤ s_time s ≤ 1)%Qc
       ∧ Dataset_time demo_test 25 = Ok (Q2Qc (25 # 49)).
Proof.
  eexists. split; [vm_compute; reflexivity|]. split; [reflexivity|].
  pose proof (sample_time_normalized demo_test) as (H2 & H50 & _).
  split; [|split].
  - eapply (H2 ltac:(vm_compute; discriminate) 25). vm_compute. reflexivity.
  - eapply (H2 ltac:(vm_compute; discriminate) 25). vm_compute. reflexivity.
  - apply H50; reflexivity.
Defined.

(** ** Theorems: calibration parser *)

Lemma assign_distortion_supported cam vars ct :
  own_camtype cam = Some ct →
  assign_distortion cam vars = (own_params cam, Some ct).
Proof.
  unfold own_camtype, own_params, assign_distortion.
  repeat (destruct (type_is _ _ _); cbn; try done); by intros [= <-].
Qed.

Lemma assign_distortion_unsupported cam vars :
  own_camtype cam = None → assign_distortion cam vars = vars.
Proof.
  unfold own_camtype, assign_distortion.
  repeat (destruct (type_is _ _ _); cbn; try done).
Qed.

Lemma own_params_supported cam ct :
  own_camtype cam = Some ct → ∃ ps, own_params cam = Some ps.
Proof.
  unfold own_camtype, own_params, assign_distortion.
  repeat (destruct (type_is _ _ _); cbn; try done); eauto.
Qed.

(** An unsupported tag on the first image stops the parser, through the
    unbound local and not through the assertion. *)
Lemma parse_image_unsupported_first cameras factor im cam :
  cameras !! im_camera_id im = Some cam →
  own_camtype cam = None →
  parse_image cameras factor parse_init im = Raise UnboundLocalError.
Proof.
  intros Hcam Hown. unfold parse_image, py_lookup. rewrite Hcam. cbn.
  by rewrite assign_distortion_unsupported.
Qed.

(** After an image that bound the locals, an unsupported tag passes the
    assertion and the stale [params] are stored for its camera. *)
Lemma parse_image_unsupported_later cameras factor st im cam ps ct :
  cameras !! im_camera_id im = Some cam →
  own_camtype cam = None →
  ps_params st = Some ps → ps_camtype st = Some ct →
  factor ≠ 0 →
  ∃ st', parse_image cameras factor st im = Ok st'
         ∧ ps_params_dict st' !! im_camera_id im = Some ps
         ∧ ps_camtype st' = Some ct.
Proof.
  intros Hcam Hown Hps Hct Hf. unfold parse_image, py_lookup, py_floordiv.
  rewrite Hcam. cbn. rewrite assign_distortion_unsupported by done.
  rewrite Hps, Hct. cbn. destruct (decide (factor = 0)) as [?|_]; [done|].
  cbn. eexists. split; [done|]. cbn. by rewrite lookup_insert_eq.
Qed.

(** C3, at the failing input: a reconstruction whose first image is taken
    by a PINHOLE camera and whose second image is taken by a FULL_OPENCV
    camera (code 6).  The first loop and the whole parser return without
    an error; the unsupported camera is stored with the pinhole camera's
    empty distortion parameters.  With the two images enumerated in the
    other order the parser stops. *)
Theorem unsupported_model_accepted
    (cv2_getOptimalNewCameraMatrix :
       matrix → list Qc → Z * Z → matrix * (Z * Z * Z * Z))
    (cv2_initUndistortRectifyMap :
       matrix → list Qc → matrix → Z * Z → matrix * matrix) :
  own_camtype (demo_camera 6 (Qc_of_Z 1000) 0%Qc) = None
  ∧ (∃ st, parse_images demo_cameras_unsupported 1 parse_init demo_images
           = Ok st
           ∧ ps_params_dict st !! 2 = Some []
           ∧ ps_camtype st = Some perspective)
  ∧ (∃ p, Parser_init cv2_getOptimalNewCameraMatrix
            cv2_initUndistortRectifyMap demo_cameras_unsupported
            demo_images demo_loading demo_png_dirs (720, 1280) 1 = Ok p
          ∧ params_dict p !! 2 = Some []
          ∧ camera_ids p = [1; 2])
  ∧ Parser_init cv2_getOptimalNewCameraMatrix
      cv2_initUndistortRectifyMap demo_cameras_unsupported
      (reverse demo_images) demo_loading demo_png_dirs (720, 1280) 1
    = Raise UnboundLocalError.
Proof.
  split; [reflexivity|]. split; [|split].
  - eexists. split; [vm_compute; reflexivity|]. split; reflexivity.
  - eexists. split; [vm_compute; reflexivity|]. split; reflexivity.
  - reflexivity.
Qed.

Lemma parse_image_Ok cameras factor st im st' :
  parse_image cameras factor st im = Ok st' →
  ∃ cam params camtype,
    cameras !! im_camera_id im = Some cam
    ∧ assign_distortion cam (ps_params st, ps_camtype st)
      = (Some params, Some camtype)
    ∧ factor ≠ 0
    ∧ st' = {| ps_camera_ids := ps_camera_ids st ++ [im_camera_id im];
               ps_Ks_dict :=
                 <[im_camera_id im := intrinsics cam factor]> (ps_Ks_dict st);
               ps_params_dict :=
                 <[im_camera_id im := params]> (ps_params_dict st);
               ps_imsize_dict :=
                 <[im_camera_id im :=
                     (cam_width cam / factor, cam_height cam / factor)]>
                   (ps_imsize_dict st);
               ps_mask_dict := <[im_camera_id im := None]> (ps_mask_dict st);
               ps_params := Some params;
               ps_camtype := Some camtype |}.
Proof.
  unfold parse_image, py_lookup, py_floordiv. intros H.
  destruct (cameras !! im_camera_id im) as [cam|]; [|done]. cbn in H.
  destruct (assign_distortion cam (ps_params st, ps_camtype st))
    as [[params|] [camtype|]] eqn:Ha; try done.
  cbn in H. destruct (decide (factor = 0)); cbn in H; [done|].
  injection H as <-. by exists cam, params, camtype.
Qed.

Lemma parse_image_inv cameras factor st im st' :
  parse_inv cameras factor st →
  parse_image cameras factor st im = Ok st' →
  parse_inv cameras factor st'.
Proof.
  intros Hinv (cam & params & camtype & Hcam & Ha & _ & ->)%parse_image_Ok id.
  cbn. destruct (decide (im_camera_id im = id)) as [<-|Hne].
  - rewrite !lookup_insert_eq. split; [eauto|]. split.
    + intros K [= <-]. eauto.
    + intros ps [= <-]. exists cam. split; [done|]. intros [ct Hct].
      rewrite (assign_distortion_supported _ _ _ Hct) in Ha. congruence.
  - rewrite !lookup_insert_ne by done. apply Hinv.
Qed.

Lemma parse_images_inv cameras factor imdata st st' :
  parse_inv cameras factor st →
  parse_images cameras factor st imdata = Ok st' →
  parse_inv cameras factor st'.
Proof.
  revert st. induction imdata as [|im imdata IH]; intros st Hinv H; cbn in H.
  - by injection H as <-.
  - apply bind_Ok in H as (st1 & H1 & H). eauto using parse_image_inv.
Qed.

Lemma parse_init_inv cameras factor : parse_inv cameras factor parse_init.
Proof.
  intros id. cbn. rewrite !lookup_empty. split; [by intros [? ?]|done].
Qed.

Lemma rescale_lookup s_width s_height (Ks : gmap Z matrix)
    (ims : gmap Z (Z * Z)) :
  (∀ k, is_Some (Ks !! k) → is_Some (ims !! k)) →
  ∃ Ks' ims',
    rescale s_width s_height Ks ims = Ok (Ks', ims')
    ∧ ∀ k, Ks' !! k = scale_rows s_width s_height <$> Ks !! k
           ∧ ims' !! k = match Ks !! k with
                         | Some _ => scale_size s_width s_height <$> ims !! k
                         | None => ims !! k
                         end.
Proof.
  unfold rescale.
  assert (Hgen : ∀ m : gmap Z matrix,
    (∀ k, is_Some (m !! k) → is_Some (ims !! k)) →
    ∃ Ks' ims',
      map_fold (rescale_step s_width s_height) (Ok (Ks, ims)) m
      = Ok (Ks', ims')
      ∧ ∀ k, Ks' !! k = match m !! k with
                        | Some K => Some (scale_rows s_width s_height K)
                        | None => Ks !! k
                        end
             ∧ ims' !! k = match m !! k with
                           | Some _ => scale_size s_width s_height <$> ims !! k
                           | None => ims !! k
                           end).
  { intros m. apply (map_fold_weak_ind (λ r m,
      (∀ k, is_Some (m !! k) → is_Some (ims !! k)) →
      ∃ Ks' ims', r = Ok (Ks', ims')
        ∧ ∀ k, Ks' !! k = match m !! k with
                          | Some K => Some (scale_rows s_width s_height K)
                          | None => Ks !! k
                          end
               ∧ ims' !! k = match m !! k with
                             | Some _ =>
                                 scale_size s_width s_height <$> ims !! k
                             | None => ims !! k
                             end)); clear m.
    - intros _. exists Ks, ims. split; [done|]. intros k.
      by rewrite lookup_empty.
    - intros i K m r Hi IH Hdom.
      destruct IH as (Ks' & ims' & -> & Hl).
      { intros k Hk. apply Hdom. destruct (decide (i = k)) as [->|].
        - rewrite Hi in Hk. by destruct Hk.
        - by rewrite lookup_insert_ne. }
      destruct (Hdom i) as [sz Hsz]; [by rewrite lookup_insert_eq|].
      unfold rescale_step, py_lookup. cbn.
      destruct (Hl i) as [_ Hims]. rewrite Hi in Hims. rewrite Hims, Hsz. cbn.
      eexists _, _. split; [done|]. intros k.
      destruct (decide (i = k)) as [<-|Hne].
      + rewrite !lookup_insert_eq. by rewrite Hsz.
      + rewrite !lookup_insert_ne by done. apply Hl. }
  intros Hdom. destruct (Hgen Ks Hdom) as (Ks' & ims' & Hr & Hl).
  exists Ks', ims'. split; [done|]. intros k. destruct (Hl k) as [HK Hi].
  split; [|done]. rewrite HK. by destruct (Ks !! k).
Qed.

Lemma Qc_trunc_of_Z z : Qc_trunc (Qc_of_Z z) = z.
Proof. unfold Qc_trunc. cbn. apply Z.quot_1_r. Qed.


(** *** Doubles that are exact

    An integer below [2^53] in magnitude is a double, so converting it
    loses nothing; multiplying such an integer by 1 or by 2 is exact as
    long as the product stays below [2^53]. *)

Lemma round_double_pos_Z z :
  0 < z < 2 ^ 53 → Q2Qc (round_double_pos z 1) = Qc_of_Z z.
Proof.
  intros Hz. unfold round_double_pos, floor_log2.
  change (Z.log2 1) with 0. rewrite Z.sub_0_r.
  assert (Hl : 0 ≤ Z.log2 z < 53).
  { split; [apply Z.log2_nonneg|]. apply Z.log2_lt_pow2; lia. }
  rewrite (Z.max_l (Z.log2 z)) by lia.
  rewrite (Z.max_r (- Z.log2 z)) by lia.
  rewrite decide_True
    by (pose proof (Z.log2_spec z ltac:(lia)); cbn; lia).
  set (e := Z.max (Z.log2 z - 52) (-1074)).
  assert (He : -1074 ≤ e ≤ 0) by (unfold e; lia).
  rewrite (Z.max_r e) by lia. rewrite (Z.max_l (- e)) by lia.
  assert (Hp : 0 < 2 ^ (- e)) by (apply Z.pow_pos_nonneg; lia).
  unfold round_half_even. rewrite Z.mul_1_l.
  change (2 ^ 0) with 1. rewrite Z.div_1_r, Z.mod_1_r, Z.mul_1_r.
  rewrite decide_True by lia.
  apply Qc_is_canon. cbn [this Q2Qc]. rewrite Qred_correct.
  unfold Qeq. cbn [Qnum Qden this Qc_of_Z].
  rewrite Z2Pos.id by lia. cbn [inject_Z Qnum Qden]. lia.
Qed.

Lemma round_double_Z z :
  Z.abs z < 2 ^ 53 → round_double (Qc_of_Z z) = Qc_of_Z z.
Proof.
  intros Hz. unfold round_double.
  change (Qnum (Qc_of_Z z)) with z. change (Z.pos (Qden (Qc_of_Z z))) with 1.
  destruct (decide (z = 0)) as [->|Hz0]; [by apply Qc_is_canon|].
  destruct (decide (0 < z)) as [Hpos|Hneg].
  - apply round_double_pos_Z. lia.
  - rewrite round_double_pos_Z by lia.
    rewrite <-Z2Qc_inj_opp. f_equal. lia.
Qed.

Lemma float_mul_int_1 w :
  Z.abs w < 2 ^ 53 → float_mul_int w 1 = Qc_of_Z w.
Proof.
  intros Hw. unfold float_mul_int.
  assert (round_double 1 = 1%Qc) as -> by (by apply Qc_is_canon).
  by rewrite Qcmult_1_r, !round_double_Z.
Qed.


(** *** The fisheye mask and region of interest *)

Lemma np_min_spec l m :
  np_min l = Ok m → m ∈ l ∧ ∀ z, z ∈ l → m ≤ z.
Proof.
  destruct l as [|x l]; [done|]. cbn. intros [= <-].
  induction l as [|y l [IHin IHle]]; cbn.
  - split; [by left|]. by intros z ->%list_elem_of_singleton.
  - split.
    + destruct (Z.min_spec y (foldr Z.min x l)) as [[_ ->]|[_ ->]].
      * right. by left.
      * apply elem_of_cons in IHin as [->|?]; [by left|]. right. by right.
    + intros z [->|[->|Hz]%elem_of_cons]%elem_of_cons.
      * pose proof (IHle x ltac:(by left)). lia.
      * lia.
      * pose proof (IHle z ltac:(by right)). lia.
Qed.

Lemma np_max_spec l m :
  np_max l = Ok m → m ∈ l ∧ ∀ z, z ∈ l → z ≤ m.
Proof.
  destruct l as [|x l]; [done|]. cbn. intros [= <-].
  induction l as [|y l [IHin IHle]]; cbn.
  - split; [by left|]. by intros z ->%list_elem_of_singleton.
  - split.
    + destruct (Z.max_spec y (foldr Z.max x l)) as [[_ ->]|[_ ->]].
      * apply elem_of_cons in IHin as [->|?]; [by left|]. right. by right.
      * right. by left.
    + intros z [->|[->|Hz]%elem_of_cons]%elem_of_cons.
      * pose proof (IHle x ltac:(by left)). lia.
      * lia.
      * pose proof (IHle z ltac:(by right)). lia.
Qed.

Lemma elem_of_nonzero (mask : mask_t) (y x : Z) :
  (y, x) ∈ nonzero mask ↔
  ∃ i j : nat, y = Z.of_nat i ∧ x = Z.of_nat j ∧ at2 mask i j = Some true.
Proof.
  unfold nonzero. rewrite list_elem_of_bind. split.
  - intros (i & (j & Hj & _)%list_elem_of_bind & _).
    destruct (decide (at2 mask i j = Some true)) as [Hij|]; [|by inv Hj].
    apply list_elem_of_singleton in Hj as [= -> ->]. eauto.
  - intros (i & j & -> & -> & Hij). exists i.
    unfold at2 in Hij. destruct (mask !! i) as [row|] eqn:Hrow; [|done].
    cbn in Hij. split.
    + apply list_elem_of_bind. exists j. split.
      * unfold at2. rewrite Hrow. cbn. rewrite decide_True by done. by left.
      * apply elem_of_seq. rewrite (list_lookup_total_correct _ _ _ Hrow).
        apply lookup_lt_Some in Hij. lia.
    + apply elem_of_seq. apply lookup_lt_Some in Hrow. lia.
Qed.

Lemma at2_fisheye_mask width height (mapx mapy : matrix) i j b :
  at2 (fisheye_mask width height mapx mapy) i j = Some b ↔
  ∃ mx my, at2 mapx i j = Some mx ∧ at2 mapy i j = Some my
           ∧ b = in_bounds width height mx my.
Proof.
  unfold at2, fisheye_mask. rewrite lookup_zip_with.
  destruct (mapx !! i) as [rx|]; cbn; [|split; [done|by intros (?&?&?&?)]].
  destruct (mapy !! i) as [ry|]; cbn.
  - rewrite lookup_zip_with.
    destruct (rx !! j) as [mx|]; cbn; [|split; [done|by intros (?&?&?&?)]].
    destruct (ry !! j) as [my|]; cbn.
    + split; [intros [= <-]; eauto|]. by intros (? & ? & [= <-] & [= <-] & ->).
    + split; [done|]. by intros (? & ? & _ & ? & _).
  - split; [done|]. by intros (? & ? & _ & ? & _).
Qed.

Lemma in_bounds_spec width height mx my :
  in_bounds width height mx my = true ↔
  (0 < mx)%Qc ∧ (0 < my)%Qc
  ∧ (mx < Qc_of_Z (width - 1))%Qc ∧ (my < Qc_of_Z (height - 1))%Qc.
Proof.
  unfold in_bounds. rewrite !andb_true_iff, !bool_decide_eq_true. tauto.
Qed.

Lemma at2_crop {A} (a : list (list A)) (y_min y_max x_min x_max : Z)
    (i j : nat) :
  0 ≤ y_min → 0 ≤ x_min →
  Z.of_nat i < y_max - y_min → Z.of_nat j < x_max - x_min →
  at2 (crop y_min y_max x_min x_max a) i j
  = at2 a (Z.to_nat y_min + i) (Z.to_nat x_min + j).
Proof.
  intros Hy Hx Hi Hj. unfold at2, crop, slice.
  rewrite list_lookup_fmap, lookup_take_lt, lookup_drop by lia.
  destruct (a !! (Z.to_nat y_min + i)%nat) as [row|]; [|done]. cbn.
  by rewrite lookup_take_lt, lookup_drop by lia.
Qed.

Lemma at2_shift_principal_point x_min y_min (K : matrix) i j :
  at2 (shift_principal_point x_min y_min K) i j =
  if decide (i = 0%nat ∧ j = 2%nat)
  then (λ v, v - Qc_of_Z x_min)%Qc <$> at2 K i j
  else if decide (i = 1%nat ∧ j = 2%nat)
       then (λ v, v - Qc_of_Z y_min)%Qc <$> at2 K i j
       else at2 K i j.
Proof.
  unfold at2, shift_principal_point.
  destruct (decide (i = 1%nat)) as [->|Hi1].
  - rewrite list_lookup_alter_eq, list_lookup_alter_ne by done.
    rewrite decide_False by lia.
    destruct (K !! 1%nat) as [row|]; cbn; [|by repeat case_decide].
    destruct (decide (j = 2%nat)) as [->|Hj].
    + rewrite list_lookup_alter_eq. by rewrite decide_True.
    + rewrite list_lookup_alter_ne by done. rewrite decide_False by lia. done.
  - rewrite list_lookup_alter_ne by done.
    rewrite (decide_False (P := i = 1%nat ∧ _)) by lia.
    destruct (decide (i = 0%nat)) as [->|Hi0].
    + rewrite list_lookup_alter_eq.
      destruct (K !! 0%nat) as [row|]; cbn; [|by repeat case_decide].
      destruct (decide (j = 2%nat)) as [->|Hj].
      * rewrite list_lookup_alter_eq. by rewrite decide_True.
      * rewrite list_lookup_alter_ne by done. by rewrite decide_False by lia.
    + rewrite list_lookup_alter_ne by done. by rewrite decide_False by lia.
Qed.

Lemma at2_fisheye_maps K params width height (i j : nat) :
  let '(mapx, mapy) := fisheye_maps K params width height in
  let src := fisheye_source K params width height (Z.of_nat j) (Z.of_nat i) in
  let inside := Z.of_nat i < height ∧ Z.of_nat j < width in
  (∀ mx, at2 mapx i j = Some mx ↔ inside ∧ mx = src.1)
  ∧ (∀ my, at2 mapy i j = Some my ↔ inside ∧ my = src.2).
Proof.
  unfold fisheye_maps, at2. cbn zeta.
  split; intros m; rewrite list_lookup_fmap.
  - destruct (seqZ 0 height !! i) as [y|] eqn:Hy; cbn.
    + apply lookup_seqZ in Hy as [-> Hy]. rewrite list_lookup_fmap.
      destruct (seqZ 0 width !! j) as [x|] eqn:Hx; cbn.
      * apply lookup_seqZ in Hx as [-> Hx]. rewrite !Z.add_0_l.
        split; [by intros [= <-]|by intros [_ ->]].
      * split; [done|]. intros [[_ ?] _].
        by rewrite lookup_seqZ_lt in Hx by lia.
    + split; [done|]. intros [[? _] _].
      by rewrite lookup_seqZ_lt in Hy by lia.
  - destruct (seqZ 0 height !! i) as [y|] eqn:Hy; cbn.
    + apply lookup_seqZ in Hy as [-> Hy]. rewrite list_lookup_fmap.
      destruct (seqZ 0 width !! j) as [x|] eqn:Hx; cbn.
      * apply lookup_seqZ in Hx as [-> Hx]. rewrite !Z.add_0_l.
        split; [by intros [= <-]|by intros [_ ->]].
      * split; [done|]. intros [[_ ?] _].
        by rewrite lookup_seqZ_lt in Hx by lia.
    + split; [done|]. intros [[? _] _].
      by rewrite lookup_seqZ_lt in Hy by lia.
Qed.

Lemma fisheye_roi_spec K width height (mapx mapy : matrix) u :
  fisheye_roi K width height mapx mapy = Ok u →
  ∃ x_min y_min w h,
    u_roi u = (x_min, y_min, w, h)
    ∧ 0 ≤ x_min ∧ 0 ≤ y_min ∧ 0 < w ∧ 0 < h
    ∧ u_mapx u = mapx ∧ u_mapy u = mapy
    ∧ u_K u = shift_principal_point x_min y_min K
    ∧ u_mask u = Some (crop y_min (y_min + h) x_min (x_min + w)
                         (fisheye_mask width height mapx mapy))
    ∧ (∀ i j : nat,
         at2 (fisheye_mask width height mapx mapy) i j = Some true →
         (x_min ≤ Z.of_nat j < x_min + w) ∧ (y_min ≤ Z.of_nat i < y_min + h))
    ∧ (∃ i, at2 (fisheye_mask width height mapx mapy)
              i (Z.to_nat x_min) = Some true)
    ∧ (∃ i, at2 (fisheye_mask width height mapx mapy)
              i (Z.to_nat (x_min + w - 1)) = Some true)
    ∧ (∃ j, at2 (fisheye_mask width height mapx mapy)
              (Z.to_nat y_min) j = Some true)
    ∧ (∃ j, at2 (fisheye_mask width height mapx mapy)
              (Z.to_nat (y_min + h - 1)) j = Some true).
Proof.
  unfold fisheye_roi. set (mask := fisheye_mask width height mapx mapy).
  intros H.
  apply bind_Ok in H as (y_min & [Hy0 Hy0le]%np_min_spec & H).
  apply bind_Ok in H as (y_top & [Hy1 Hy1le]%np_max_spec & H).
  apply bind_Ok in H as (x_min & [Hx0 Hx0le]%np_min_spec & H).
  apply bind_Ok in H as (x_top & [Hx1 Hx1le]%np_max_spec & H).
  injection H as <-. cbn.
  assert (Hmem1 : ∀ y, y ∈ (nonzero mask).*1 →
            ∃ i j : nat, y = Z.of_nat i ∧ at2 mask i j = Some true).
  { intros y ([y' x] & -> & Hp)%list_elem_of_fmap.
    apply elem_of_nonzero in Hp as (i & j & -> & -> & Hij). eauto. }
  assert (Hmem2 : ∀ x, x ∈ (nonzero mask).*2 →
            ∃ i j : nat, x = Z.of_nat j ∧ at2 mask i j = Some true).
  { intros x ([y x'] & -> & Hp)%list_elem_of_fmap.
    apply elem_of_nonzero in Hp as (i & j & -> & -> & Hij). eauto. }
  assert (Hin : ∀ i j : nat, at2 mask i j = Some true →
            Z.of_nat i ∈ (nonzero mask).*1 ∧ Z.of_nat j ∈ (nonzero mask).*2).
  { intros i j Hij.
    assert ((Z.of_nat i, Z.of_nat j) ∈ nonzero mask)
      by (apply elem_of_nonzero; eauto).
    split; apply list_elem_of_fmap; by eexists (_, _). }
  destruct (Hmem1 _ Hy0) as (iy0 & jy0 & -> & Hv_y0).
  destruct (Hmem1 _ Hy1) as (iy1 & jy1 & -> & Hv_y1).
  destruct (Hmem2 _ Hx0) as (ix0 & jx0 & -> & Hv_x0).
  destruct (Hmem2 _ Hx1) as (ix1 & jx1 & -> & Hv_x1).
  pose proof (Hy1le _ Hy0). pose proof (Hx1le _ Hx0).
  exists (Z.of_nat jx0), (Z.of_nat iy0),
    (Z.of_nat jx1 + 1 - Z.of_nat jx0), (Z.of_nat iy1 + 1 - Z.of_nat iy0).
  split; [done|]. split; [lia|]. split; [lia|]. split; [lia|]. split; [lia|].
  split; [done|]. split; [done|]. split; [done|].
  split.
  { replace (Z.of_nat iy0 + (Z.of_nat iy1 + 1 - Z.of_nat iy0))
      with (Z.of_nat iy1 + 1) by lia.
    by replace (Z.of_nat jx0 + (Z.of_nat jx1 + 1 - Z.of_nat jx0))
      with (Z.of_nat jx1 + 1) by lia. }
  split.
  { intros i j Hij. destruct (Hin i j Hij) as [Hi Hj].
    pose proof (Hy0le _ Hi). pose proof (Hy1le _ Hi).
    pose proof (Hx0le _ Hj). pose proof (Hx1le _ Hj). lia. }
  rewrite !Nat2Z.id.
  replace (Z.to_nat (Z.of_nat jx0 + (Z.of_nat jx1 + 1 - Z.of_nat jx0) - 1))
    with jx1 by lia.
  replace (Z.to_nat (Z.of_nat iy0 + (Z.of_nat iy1 + 1 - Z.of_nat iy0) - 1))
    with iy1 by lia.
  split_and!; eauto.
Qed.

Lemma valid_pixel_mask K params width height (i j : nat) :
  at2 (fisheye_mask width height
         (fisheye_maps K params width height).1
         (fisheye_maps K params width height).2) i j = Some true
  ↔ valid_pixel K params width height i j.
Proof.
  pose proof (at2_fisheye_maps K params width height i j) as Hm.
  destruct (fisheye_maps K params width height) as [mapx mapy].
  cbn zeta in Hm. destruct Hm as [Hx Hy]. cbn [fst snd].
  rewrite at2_fisheye_mask. unfold valid_pixel. cbn zeta. split.
  - intros (mx & my & [Hin ->]%Hx & [_ ->]%Hy & Hb).
    symmetry in Hb. apply in_bounds_spec in Hb. tauto.
  - intros (Hi & Hj & Hb). eexists _, _.
    split; [by apply Hx|]. split; [by apply Hy|].
    symmetry. apply in_bounds_spec. tauto.
Qed.

Lemma undistort_step_Ok
    (cv2_getOptimalNewCameraMatrix :
       matrix → list Qc → Z * Z → matrix * (Z * Z * Z * Z))
    (cv2_initUndistortRectifyMap :
       matrix → list Qc → matrix → Z * Z → matrix * matrix)
    camtype camera_id params p p' :
  params ≠ [] →
  undistort_step cv2_getOptimalNewCameraMatrix cv2_initUndistortRectifyMap
    camtype camera_id params (Ok p) = Ok p' →
  ∃ ct K width height u,
    camtype = Some ct
    ∧ Ks_dict p !! camera_id = Some K
    ∧ imsize_dict p !! camera_id = Some (width, height)
    ∧ undistort_camera cv2_getOptimalNewCameraMatrix
        cv2_initUndistortRectifyMap ct K params width height = Ok u
    ∧ Ks_dict p' = <[camera_id := u_K u]> (Ks_dict p)
    ∧ imsize_dict p'
      = <[camera_id := ((u_roi u).1.2, (u_roi u).2)]> (imsize_dict p)
    ∧ mask_dict p' = <[camera_id := u_mask u]> (mask_dict p)
    ∧ mapx_dict p' = <[camera_id := u_mapx u]> (mapx_dict p)
    ∧ mapy_dict p' = <[camera_id := u_mapy u]> (mapy_dict p)
    ∧ roi_undist_dict p' = <[camera_id := u_roi u]> (roi_undist_dict p)
    ∧ params_dict p' = params_dict p
    ∧ camera_ids p' = camera_ids p.
Proof.
  intros Hne H. unfold undistort_step in H. cbn in H.
  destruct (decide (length params = 0%nat)) as [Hl|_].
  { by destruct params. }
  apply bind_Ok in H as (K & HK & H).
  apply bind_Ok in H as ([width height] & Hsz & H).
  apply bind_Ok in H as (ct & Hct & H).
  apply bind_Ok in H as (u & Hu & H).
  injection H as <-. cbn.
  destruct (Ks_dict p !! camera_id) as [K'|] eqn:HK'; [|done].
  injection HK as ->.
  unfold py_lookup in Hsz.
  destruct (imsize_dict p !! camera_id) as [sz|] eqn:Hsz'; [|done].
  injection Hsz as ->.
  destruct camtype as [ct'|]; [|done]. injection Hct as ->.
  by exists ct, K, width, height, u.
Qed.




(** *** The undistortion loop, camera by camera *)

Section Leftover.
Variable cv2_getOptimalNewCameraMatrix :
  matrix → list Qc → Z * Z → matrix * (Z * Z * Z * Z).
Variable cv2_initUndistortRectifyMap :
  matrix → list Qc → matrix → Z * Z → matrix * matrix.

Local Abbreviation by_ct :=
  (undistorted_by cv2_getOptimalNewCameraMatrix cv2_initUndistortRectifyMap).

Lemma undistort_all_entries camtype p p' :
  undistort_all cv2_getOptimalNewCameraMatrix cv2_initUndistortRectifyMap
    camtype p = Ok p' →
  params_dict p' = params_dict p
  ∧ camera_ids p' = camera_ids p
  ∧ ∀ id, match params_dict p !! id with
          | Some (x :: params) =>
              ∃ ct, camtype = Some ct ∧ by_ct ct p p' id (x :: params)
          | _ => untouched p p' id
          end.
Proof.
  unfold undistort_all. revert p'.
  apply (map_fold_weak_ind (λ r m, ∀ p',
    r = Ok p' →
    params_dict p' = params_dict p
    ∧ camera_ids p' = camera_ids p
    ∧ ∀ id, match m !! id with
            | Some (x :: params) =>
                ∃ ct, camtype = Some ct ∧ by_ct ct p p' id (x :: params)
            | _ => untouched p p' id
            end)).
  - intros p' [= <-]. split; [done|]. split; [done|]. intros id.
    rewrite lookup_empty. by repeat split.
  - intros i params m r Hi IH p' Hstep.
    destruct r as [p1|e]; [|done].
    destruct (IH p1 eq_refl) as (Hpar & Hids & Hent).
    destruct params as [|x params].
    + cbn in Hstep. injection Hstep as <-.
      split; [done|]. split; [done|]. intros id.
      destruct (decide (i = id)) as [<-|Hne].
      * rewrite lookup_insert_eq. specialize (Hent i). by rewrite Hi in Hent.
      * rewrite lookup_insert_ne by done. apply Hent.
    + apply undistort_step_Ok in Hstep
        as (ct & K & width & height & u & -> & HK & Hsz & Hu
            & HKs & Hims & Hmask & Hmx & Hmy & Hroi & Hpar' & Hids');
        [|done].
      split; [congruence|]. split; [congruence|].
      intros id. destruct (decide (i = id)) as [<-|Hne].
      * rewrite lookup_insert_eq. exists ct. split; [done|].
        specialize (Hent i). rewrite Hi in Hent.
        destruct Hent as (EK & Eims & _).
        exists K, width, height, u.
        rewrite HKs, Hims, Hmask, Hmx, Hmy, Hroi, !lookup_insert_eq.
        rewrite <-EK, <-Eims. by split_and!.
      * rewrite lookup_insert_ne by done. specialize (Hent id).
        destruct (m !! id) as [[|y ps]|].
        -- unfold untouched in *.
           rewrite HKs, Hims, Hmask, Hmx, Hmy, Hroi.
           by rewrite !lookup_insert_ne by done.
        -- destruct Hent as (ct' & Hct' & K' & w' & h' & u' & Hent).
           exists ct'. split; [done|]. exists K', w', h', u'.
           rewrite HKs, Hims, Hmask, Hmx, Hmy, Hroi.
           by rewrite !lookup_insert_ne by done.
        -- unfold untouched in *.
           rewrite HKs, Hims, Hmask, Hmx, Hmy, Hroi.
           by rewrite !lookup_insert_ne by done.
Qed.
End Leftover.

Lemma parse_images_app cameras factor st l1 l2 :
  parse_images cameras factor st (l1 ++ l2)
  = parse_images cameras factor st l1
      ≫= λ st1, parse_images cameras factor st1 l2.
Proof.
  revert st. induction l1 as [|im l1 IH]; intros st; cbn; [done|].
  destruct (parse_image cameras factor st im) as [st1|e]; cbn; [apply IH|done].
Qed.

Lemma parse_images_dom cameras factor st l st' id :
  parse_images cameras factor st l = Ok st' →
  is_Some (ps_params_dict st' !! id) ↔
  is_Some (ps_params_dict st !! id) ∨ ∃ im, im ∈ l ∧ im_camera_id im = id.
Proof.
  revert st. induction l as [|im l IH]; intros st H; cbn in H.
  - injection H as <-. split; [by left|]. intros [?|(im & Him & _)]; [done|].
    by apply elem_of_nil in Him.
  - apply bind_Ok in H as (st1 & H1 & H). rewrite (IH _ H).
    apply parse_image_Ok in H1 as (cam & ps & ct & _ & _ & _ & ->). cbn.
    destruct (decide (im_camera_id im = id)) as [<-|Hne].
    + rewrite lookup_insert_eq. split; [|eauto].
      intros _. right. exists im. split; [by left|done].
    + rewrite lookup_insert_ne by done. split.
      * intros [?|(im' & Him' & Hid)]; [by left|].
        right. exists im'. split; [by right|done].
      * intros [?|(im' & [->|Him']%elem_of_cons & Hid)]; [by left|done|].
        right. eauto.
Qed.

Lemma Parser_init_inv
    (cv2_getOptimalNewCameraMatrix :
       matrix → list Qc → Z * Z → matrix * (Z * Z * Z * Z))
    (cv2_initUndistortRectifyMap :
       matrix → list Qc → matrix → Z * Z → matrix * matrix)
    cameras imdata loading png_dirs actual_shape factor p :
  Parser_init cv2_getOptimalNewCameraMatrix cv2_initUndistortRectifyMap
    cameras imdata loading png_dirs actual_shape factor = Ok p →
  ∃ st id0 s_width s_height Ks ims,
    let sorted := sort_by_name (im_name <$> imdata) (ps_camera_ids st) in
    parse_images cameras factor parse_init imdata = Ok st
    ∧ imdata ≠ []
    ∧ is_Ok (py_getitem png_dirs 0)
    ∧ py_getitem sorted.*2 0 = Ok id0
    ∧ scale_factors actual_shape factor (ps_imsize_dict st) id0
      = Ok (s_width, s_height)
    ∧ rescale s_width s_height (ps_Ks_dict st) (ps_imsize_dict st)
      = Ok (Ks, ims)
    ∧ undistort_all cv2_getOptimalNewCameraMatrix
        cv2_initUndistortRectifyMap (ps_camtype st)
        {| factor := factor;
           camera_names := sorted.*1;
           campaths := png_dirs;
           camera_ids := sorted.*2;
           Ks_dict := Ks;
           params_dict := ps_params_dict st;
           imsize_dict := ims;
           mask_dict := ps_mask_dict st;
           mapx_dict := ∅;
           mapy_dict := ∅;
           roi_undist_dict := ∅ |} = Ok p.
Proof.
  unfold Parser_init. intros H.
  apply bind_Ok in H as (st & Hst & H).
  destruct (decide (length imdata = 0%nat)) as [|Hne]; [done|].
  apply bind_Ok in H as (? & _ & H).
  apply bind_Ok in H as (d0 & Hd0 & H).
  apply bind_Ok in H as (? & _ & H).
  apply bind_Ok in H as (id0 & Hid0 & H).
  apply bind_Ok in H as ([sw sh] & Hs & H).
  apply bind_Ok in H as ([Ks ims] & Hr & H).
  exists st, id0, sw, sh, Ks, ims. cbn zeta.
  split_and!; try done.
  - by intros ->.
  - by exists d0.
Qed.

Lemma parse_images_own_params cameras factor l st im cam ct :
  parse_images cameras factor parse_init l = Ok st →
  im ∈ l →
  cameras !! im_camera_id im = Some cam →
  own_camtype cam = Some ct →
  ps_params_dict st !! im_camera_id im = own_params cam.
Proof.
  intros Hparse Him Hcam Hct.
  pose proof (parse_images_inv _ _ _ _ _ (parse_init_inv cameras factor) Hparse)
    as Hinv.
  destruct (proj2 (parse_images_dom _ _ _ _ _ (im_camera_id im) Hparse))
    as [ps Hps]; [right; eauto|].
  destruct (Hinv (im_camera_id im)) as (_ & _ & Hown).
  destruct (Hown ps Hps) as (cam' & Hcam' & Hp).
  assert (cam' = cam) as -> by congruence.
  rewrite Hps. symmetry. apply Hp. eauto.
Qed.

Lemma py_getitem_0_head {A} (l : list A) a :
  py_getitem l 0 = Ok a → head l = Some a.
Proof. destruct l; cbn; [done|]. by intros [= ->]. Qed.

Lemma undistort_camera_mask
    (cv2_getOptimalNewCameraMatrix :
       matrix → list Qc → Z * Z → matrix * (Z * Z * Z * Z))
    (cv2_initUndistortRectifyMap :
       matrix → list Qc → matrix → Z * Z → matrix * matrix)
    ct K params width height u :
  undistort_camera cv2_getOptimalNewCameraMatrix cv2_initUndistortRectifyMap
    ct K params width height = Ok u →
  u_mask u = None ↔ ct = perspective.
Proof.
  intros Hu. destruct ct; cbn in Hu.
  - injection Hu as <-. unfold undistort_perspective.
    destruct (cv2_getOptimalNewCameraMatrix _ _ _) as [? ?].
    by destruct (cv2_initUndistortRectifyMap _ _ _ _) as [? ?].
  - unfold undistort_fisheye in Hu.
    destruct (fisheye_maps K params width height) as [mapx mapy].
    apply fisheye_roi_spec in Hu
      as (? & ? & ? & ? & _ & _ & _ & _ & _ & _ & _ & _ & -> & _).
    done.
Qed.

(** After a successful first loop on at least one image, [camtype] is the
    classification of the last image whose camera has a supported tag. *)
Lemma parse_images_leftover cameras factor imdata st :
  parse_images cameras factor parse_init imdata = Ok st →
  imdata ≠ [] →
  ∃ before im_ref after cam_ref ct,
    imdata = before ++ im_ref :: after
    ∧ cameras !! im_camera_id im_ref = Some cam_ref
    ∧ own_camtype cam_ref = Some ct
    ∧ (∀ im, im ∈ after →
         ∃ cam, cameras !! im_camera_id im = Some cam
                ∧ own_camtype cam = None)
    ∧ ps_camtype st = Some ct.
Proof.
  revert st. induction imdata as [|im l IH] using rev_ind; [done|].
  intros st H _. rewrite parse_images_app in H.
  apply bind_Ok in H as (st1 & Hst1 & H). cbn in H.
  apply bind_Ok in H as (st2 & H & [= <-]).
  apply parse_image_Ok in H as (cam & ps & ct & Hcam & Ha & _ & ->).
  destruct (own_camtype cam) as [own|] eqn:Hown.
  - rewrite (assign_distortion_supported _ _ _ Hown) in Ha.
    injection Ha as _ ->.
    exists l, im, [], cam, ct. split_and!; try done.
    intros im' Him'. by apply elem_of_nil in Him'.
  - rewrite assign_distortion_unsupported in Ha by done.
    injection Ha as _ Hct.
    destruct l as [|im0 l0].
    { cbn in Hst1. injection Hst1 as <-. done. }
    destruct (IH st1 Hst1 ltac:(done))
      as (before & im_ref & after & cam_ref & ct' & Hl & Hc & Ho & Ha & Hl').
    exists before, im_ref, (after ++ [im]), cam_ref, ct.
    split_and!; try done.
    + by rewrite Hl, <-(assoc_L (++)).
    + congruence.
    + intros im' [Him'|Him']%elem_of_app; [by apply Ha|].
      apply list_elem_of_singleton in Him' as ->. eauto.
Qed.

(** What the parser holds when the undistortion loop starts. *)
Lemma Parser_init_reconciled
    (cv2_getOptimalNewCameraMatrix :
       matrix → list Qc → Z * Z → matrix * (Z * Z * Z * Z))
    (cv2_initUndistortRectifyMap :
       matrix → list Qc → matrix → Z * Z → matrix * matrix)
    cameras imdata loading png_dirs actual_shape f p :
  Parser_init cv2_getOptimalNewCameraMatrix cv2_initUndistortRectifyMap
    cameras imdata loading png_dirs actual_shape f = Ok p →
  ∃ st camera_id0 colmap_width colmap_height pre,
    let s_width :=
      (Qc_of_Z (actual_shape.2 / f) / Qc_of_Z colmap_width)%Qc in
    let s_height :=
      (Qc_of_Z (actual_shape.1 / f) / Qc_of_Z colmap_height)%Qc in
    parse_images cameras f parse_init imdata = Ok st
    ∧ imdata ≠ []
    ∧ head (camera_ids p) = Some camera_id0
    ∧ ps_imsize_dict st !! camera_id0 = Some (colmap_width, colmap_height)
    ∧ scale_factors actual_shape f (ps_imsize_dict st) camera_id0
      = Ok (s_width, s_height)
    ∧ rescale s_width s_height (ps_Ks_dict st) (ps_imsize_dict st)
      = Ok (Ks_dict pre, imsize_dict pre)
    ∧ params_dict pre = ps_params_dict st
    ∧ mask_dict pre = ps_mask_dict st
    ∧ mapx_dict pre = ∅ ∧ mapy_dict pre = ∅ ∧ roi_undist_dict pre = ∅
    ∧ undistort_all cv2_getOptimalNewCameraMatrix
        cv2_initUndistortRectifyMap (ps_camtype st) pre = Ok p
    ∧ ∀ id K,
        ps_Ks_dict st !! id = Some K →
        ∃ cam,
          cameras !! id = Some cam
          ∧ K = intrinsics cam f
          ∧ ps_imsize_dict st !! id
            = Some (cam_width cam / f, cam_height cam / f)
          ∧ Ks_dict pre !! id = Some (scale_rows s_width s_height K)
          ∧ imsize_dict pre !! id
            = Some (scale_size s_width s_height
                      (cam_width cam / f, cam_height cam / f)).
Proof.
  intros H.
  apply Parser_init_inv in H
    as (st & id0 & sw & sh & Ks & ims & Hst & Hne & _ & Hid0 & Hs & Hr & Hu).
  pose proof (parse_images_inv _ _ _ _ _ (parse_init_inv cameras f) Hst)
    as Hinv.
  pose proof Hs as Hs'. unfold scale_factors in Hs'.
  apply bind_Ok in Hs' as (ah & Hah & Hs').
  apply bind_Ok in Hs' as (aw & Haw & Hs').
  apply bind_Ok in Hs' as ([cw ch] & Hc & Hs').
  apply bind_Ok in Hs' as (sh' & [Hch ->]%py_truediv_Ok & Hs').
  apply bind_Ok in Hs' as (sw' & [Hcw ->]%py_truediv_Ok & Hs').
  injection Hs' as <- <-.
  unfold py_floordiv in Hah, Haw.
  destruct (decide (f = 0)) as [|Hf]; [done|].
  injection Hah as <-. injection Haw as <-.
  unfold py_lookup in Hc.
  destruct (ps_imsize_dict st !! id0) as [sz|] eqn:Hsz; [|done].
  injection Hc as ->.
  destruct (undistort_all_entries _ _ _ _ _ Hu) as (_ & Hids & _).
  cbn in Hids.
  match type of Hu with
  | undistort_all _ _ _ ?pre = _ => exists st, id0, cw, ch, pre
  end.
  cbn zeta. split; [done|]. split; [done|].
  split; [rewrite Hids; by apply py_getitem_0_head|].
  split; [done|]. split; [done|]. split; [exact Hr|].
  split; [done|]. split; [done|]. split; [done|]. split; [done|].
  split; [done|]. split; [exact Hu|].
  intros id K HK. cbn.
  destruct (Hinv id) as (_ & HinvK & _).
  destruct (HinvK K HK) as (cam & Hcam & -> & Him).
  destruct (rescale_lookup
              (Qc_of_Z (actual_shape.2 / f) / Qc_of_Z cw)%Qc
              (Qc_of_Z (actual_shape.1 / f) / Qc_of_Z ch)%Qc
              (ps_Ks_dict st) (ps_imsize_dict st))
    as (Ks' & ims' & Hr' & Hl).
  { intros k [K' HK']. destruct (Hinv k) as (_ & HinvK' & _).
    destruct (HinvK' K' HK') as (cam' & _ & _ & Him'). eauto. }
  rewrite Hr in Hr'. injection Hr' as <- <-.
  destruct (Hl id) as [HKs Hims]. rewrite HK in HKs, Hims.
  rewrite Him in Hims. exists cam. by split_and!.
Qed.

(** *** Resolution reconciliation in the parser *)




(** *** The construction is chosen by the leftover [camtype] *)

(** C10, as amended.  The undistortion loop selects the perspective or
    the fisheye construction by the value [camtype] holds when the first
    loop ends: the classification of the last image, in enumeration
    order, whose camera has a supported tag.  Every camera with
    distortion parameters gets that construction, run on its reconciled
    intrinsics and size (the perspective one stores no mask, the fisheye
    one stores a mask), whatever its own tag.  A camera with a supported
    tag and parameters of its own gets the construction of its own family
    exactly when its family is the leftover one; when the cameras of all
    images share one family, that family is the leftover one and every
    camera with parameters gets its own construction. *)
Theorem undistortion_uses_leftover_camtype
    (cv2_getOptimalNewCameraMatrix :
       matrix → list Qc → Z * Z → matrix * (Z * Z * Z * Z))
    (cv2_initUndistortRectifyMap :
       matrix → list Qc → matrix → Z * Z → matrix * matrix)
    (cameras : gmap Z Camera) (imdata : list Image) (loading : Loading)
    (png_dirs : list string) (actual_shape : Z * Z) (factor : Z)
    (p : Parser) :
  Parser_init cv2_getOptimalNewCameraMatrix cv2_initUndistortRectifyMap
    cameras imdata loading png_dirs actual_shape factor = Ok p →
  ∃ st pre before im_ref after cam_ref ct s_width s_height,
    parse_images cameras factor parse_init imdata = Ok st
    ∧ imdata = before ++ im_ref :: after
    ∧ cameras !! im_camera_id im_ref = Some cam_ref
    ∧ own_camtype cam_ref = Some ct
    ∧ (∀ im, im ∈ after →
         ∃ cam, cameras !! im_camera_id im = Some cam
                ∧ own_camtype cam = None)
    ∧ ps_camtype st = Some ct
    ∧ rescale s_width s_height (ps_Ks_dict st) (ps_imsize_dict st)
      = Ok (Ks_dict pre, imsize_dict pre)
    ∧ undistort_all cv2_getOptimalNewCameraMatrix
        cv2_initUndistortRectifyMap (Some ct) pre = Ok p
    ∧ params_dict p = ps_params_dict st
    ∧ (∀ id x params, params_dict p !! id = Some (x :: params) →
         undistorted_by cv2_getOptimalNewCameraMatrix
           cv2_initUndistortRectifyMap ct pre p id (x :: params)
         ∧ (mask_dict p !! id = Some None ↔ ct = perspective))
    ∧ (∀ im cam own x params,
         im ∈ imdata →
         cameras !! im_camera_id im = Some cam →
         own_camtype cam = Some own →
         own_params cam = Some (x :: params) →
         params_dict p !! im_camera_id im = Some (x :: params)
         ∧ (undistorted_by cv2_getOptimalNewCameraMatrix
              cv2_initUndistortRectifyMap own pre p (im_camera_id im)
              (x :: params)
            ↔ own = ct))
    ∧ (∀ shared,
         (∀ im, im ∈ imdata →
            ∃ cam, cameras !! im_camera_id im = Some cam
                   ∧ own_camtype cam = Some shared) →
         shared = ct
         ∧ ∀ id x params, params_dict p !! id = Some (x :: params) →
             ∃ cam, cameras !! id = Some cam
                    ∧ own_camtype cam = Some shared
                    ∧ undistorted_by cv2_getOptimalNewCameraMatrix
                        cv2_initUndistortRectifyMap shared pre p id
                        (x :: params)).
Proof.
  intros Hinit.
  apply Parser_init_reconciled in Hinit
    as (st & id0 & cw & ch & pre & Hparse & Hne & _ & _ & _ & Hr & Hpre
        & _ & _ & _ & _ & Hund & _).
  destruct (parse_images_leftover _ _ _ _ Hparse Hne)
    as (before & im_ref & after & cam_ref & ct & Hsplit & Hcam & Hct
        & Hafter & Hleft).
  rewrite Hleft in Hund.
  destruct (undistort_all_entries _ _ _ _ _ Hund) as (Hpar & _ & Hent).
  assert (HA : ∀ id x params, params_dict p !! id = Some (x :: params) →
    undistorted_by cv2_getOptimalNewCameraMatrix
      cv2_initUndistortRectifyMap ct pre p id (x :: params)
    ∧ (mask_dict p !! id = Some None ↔ ct = perspective)).
  { intros id x params Hid. specialize (Hent id).
    rewrite <-Hpar, Hid in Hent. destruct Hent as (ct' & [= <-] & Hby).
    split; [done|].
    destruct Hby as (K & w & h & u & _ & _ & Hu & _ & _ & -> & _).
    rewrite <-(undistort_camera_mask _ _ _ _ _ _ _ _ Hu).
    split; [by intros [= ?]|by intros ->]. }
  assert (Hstored : ∀ id ps, params_dict p !! id = Some ps →
    ∃ im cam, im ∈ imdata ∧ im_camera_id im = id ∧ cameras !! id = Some cam
              ∧ (is_Some (own_camtype cam) → own_params cam = Some ps)).
  { intros id ps Hid. rewrite Hpar, Hpre in Hid.
    destruct (proj1 (parse_images_dom _ _ _ _ _ id Hparse))
      as [[? Hemp]|(im & Him & <-)];
      [eauto|cbn in Hemp; by rewrite lookup_empty in Hemp|].
    pose proof (parse_images_inv _ _ _ _ _ (parse_init_inv cameras factor)
                  Hparse) as Hinv.
    destruct (Hinv (im_camera_id im)) as (_ & _ & Hown).
    destruct (Hown _ Hid) as (cam & Hc & Hp). by exists im, cam. }
  eexists st, pre, before, im_ref, after, cam_ref, ct, _, _.
  split; [done|]. split; [done|]. split; [done|]. split; [done|].
  split; [done|]. split; [done|]. split; [exact Hr|]. split; [done|].
  split; [congruence|]. split; [exact HA|]. split.
  - intros im cam own x params Him Hc Hown Hps.
    assert (Hst : params_dict p !! im_camera_id im = Some (x :: params)).
    { rewrite Hpar, Hpre, <-Hps. by eapply parse_images_own_params. }
    destruct (HA _ _ _ Hst) as [Hby Hmask]. split; [done|]. split.
    + intros (K & w & h & u & _ & _ & Hu & _ & _ & Hm & _).
      apply undistort_camera_mask in Hu.
      destruct own, ct; try done.
      * rewrite (proj2 Hu eq_refl) in Hm. by pose proof (proj1 Hmask Hm).
      * rewrite (proj2 Hmask eq_refl) in Hm. injection Hm as Hn.
        by pose proof (proj1 Hu (eq_sym Hn)).
    + by intros ->.
  - intros shared Hall.
    assert (shared = ct) as ->.
    { destruct (Hall im_ref) as (cam & Hc & Ho).
      - rewrite Hsplit. apply elem_of_app. right. by left.
      - congruence. }
    split; [done|]. intros id x params Hid.
    destruct (Hstored _ _ Hid) as (im & cam & Him & <- & Hc & _).
    destruct (Hall im Him) as (cam' & Hc' & Ho).
    exists cam. split; [done|]. split; [congruence|]. by apply HA.
Qed.

Lemma undistortion_uses_leftover_camtype_witness :
  own_camtype demo_fisheye_camera = Some fisheye
  ∧ ∃ p, Parser_init identity_getOptimalNewCameraMatrix
           identity_initUndistortRectifyMap demo_mixed_cameras
           [demo_image_1; demo_image_2] demo_loading demo_png_dirs
           (5, 5) 1 = Ok p
         ∧ params_dict p !! 1 = Some demo_fisheye_params
         ∧ mask_dict p !! 1 = Some None.
Proof.
  split; [reflexivity|].
  destruct (Parser_init identity_getOptimalNewCameraMatrix
              identity_initUndistortRectifyMap demo_mixed_cameras
              [demo_image_1; demo_image_2] demo_loading demo_png_dirs
              (5, 5) 1) as [p|e] eqn:Hp;
    [|vm_compute in Hp; discriminate Hp].
  exists p. split; [reflexivity|].
  destruct (undistortion_uses_leftover_camtype _ _ _ _ _ _ _ _ _ Hp)
    as (st & pre & before & im_ref & after & cam_ref & ct & sw & sh
        & Hst & _ & _ & _ & _ & Hleft & _ & _ & _ & HA & HC & _).
  assert (ct = perspective) as ->.
  { vm_compute in Hst. injection Hst as <-. cbn in Hleft. congruence. }
  destruct (HC demo_image_1 demo_fisheye_camera fisheye
              (Q2Qc (3 # 5)) [0%Qc; 0%Qc; 0%Qc])
    as [Hstored _]; [by left|reflexivity|reflexivity|reflexivity|].
  split; [exact Hstored|].
  by apply (HA 1 _ _ Hstored).
Defined.

(** The choice can agree with every camera's own model in a
    reconstruction that mixes the two families: when the image of the
    pinhole camera is enumerated first and that of the fisheye camera
    last, [camtype] ends as fisheye; the fisheye camera, the only one with
    distortion parameters, gets the fisheye construction, and the pinhole
    camera is skipped. *)
Lemma undistortion_own_choice_in_mixed_rig :
  own_camtype demo_pinhole_camera = Some perspective
  ∧ own_camtype demo_fisheye_camera = Some fisheye
  ∧ ∃ p u,
      Parser_init identity_getOptimalNewCameraMatrix
        identity_initUndistortRectifyMap demo_mixed_cameras
        [demo_image_2; demo_image_1] demo_loading demo_png_dirs
        (5, 5) 1 = Ok p
      ∧ params_dict p !! 2 = Some []
      ∧ params_dict p !! 1 = Some demo_fisheye_params
      ∧ undistort_camera identity_getOptimalNewCameraMatrix
          identity_initUndistortRectifyMap fisheye
          demo_fisheye_K demo_fisheye_params 5 5 = Ok u
      ∧ Ks_dict p !! 1 = Some (u_K u)
      ∧ imsize_dict p !! 1 = Some ((u_roi u).1.2, (u_roi u).2)
      ∧ mask_dict p !! 1 = Some (u_mask u)
      ∧ mapx_dict p !! 1 = Some (u_mapx u)
      ∧ mapy_dict p !! 1 = Some (u_mapy u)
      ∧ roi_undist_dict p !! 1 = Some (u_roi u).
Proof.
  split; [reflexivity|]. split; [reflexivity|].
  eexists _, _. split; [vm_compute; reflexivity|].
  split; [reflexivity|]. split; [reflexivity|].
  split; [vm_compute; reflexivity|].
  split_and!; vm_compute;
    repeat first [reflexivity | apply Qc_is_canon; reflexivity | f_equal].
Qed.

(** ** Theorems: pose converter *)

Lemma mapM_res_Ok {A B} (f : A → res B) (l : list A) (k : list B) :
  mapM f l = Ok k →
  length k = length l
  ∧ ∀ i x, l !! i = Some x → ∃ y, k !! i = Some y ∧ f x = Ok y.
Proof.
  revert k. induction l as [|x l IH]; intros k H; cbn in H.
  - injection H as <-. split; [done|]. intros i x Hi.
    by rewrite lookup_nil in Hi.
  - apply bind_Ok in H as (y & Hy & H).
    apply bind_Ok in H as (k' & Hk' & [= <-]).
    destruct (IH k' Hk') as [Hlen Hlk]. split; [cbn; congruence|].
    intros [|i] x' Hi; cbn in *.
    + injection Hi as <-. eauto.
    + by apply Hlk.
Qed.

Lemma mapM_res_Raise {A B} (f : A → res B) (l : list A) i x e :
  l !! i = Some x → f x = Raise e → ∃ e', mapM f l = Raise e'.
Proof.
  revert i. induction l as [|x' l IH]; intros i Hi Hx; [done|].
  cbn. destruct i as [|i]; cbn in Hi.
  - injection Hi as ->. rewrite Hx. cbn. eauto.
  - destruct (f x') as [y|e0]; cbn; [|eauto].
    destruct (IH i Hi Hx) as [e' ->]. cbn. eauto.
Qed.

Lemma seq_lookup_list {A} (d : A) (l : list A) :
  (λ i : nat, default d (l !! i)) <$> seq 0 (length l) = l.
Proof.
  apply list_eq. intros i. rewrite list_lookup_fmap.
  destruct (l !! i) as [x|] eqn:Hi.
  - rewrite (proj2 (lookup_seq 0 (length l) i i)); [cbn; by rewrite Hi|].
    split; [done|]. by eapply lookup_lt_Some.
  - apply lookup_ge_None in Hi.
    destruct (seq 0 (length l) !! i) as [j|] eqn:Hj; [|done].
    apply lookup_seq in Hj. lia.
Qed.

Section PoseConverterProofs.
Context {F : Type}.
Variable fzero fone : F.
Variable fneg : F → F.
Variable linalg_inv : list (list F) → res (list (list F)).

Lemma steps_1_2_transposed (poses : list (list (list F))) :
  inversestep2 (inversestep1 fneg (transpose_120 fzero poses))
  = (λ r : nat,
       [ (λ P, entry fzero P r 1) <$> poses;
         (λ P, entry fzero P r 0) <$> poses;
         fneg <$> ((λ P, entry fzero P r 2) <$> poses);
         (λ P, entry fzero P r 3) <$> poses ]) <$> seq 0 3.
Proof. reflexivity. Qed.

Lemma camera_to_world_3x5 (P : list (list F)) :
  is_3x5 P →
  camera_to_world fzero fone fneg P
  = ((λ r : nat,
        [ entry fzero P r 1; entry fzero P r 0;
          fneg (entry fzero P r 2); entry fzero P r 3 ]) <$> seq 0 3)
    ++ [[fzero; fzero; fzero; fone]].
Proof.
  intros [Hlen _]. by destruct P as [|r0 [|r1 [|r2 [|]]]].
Qed.

Lemma steps_1_2_3_transposed (poses : list (list (list F))) :
  Forall is_3x5 poses →
  inversestep3 fzero fone
    (inversestep2 (inversestep1 fneg (transpose_120 fzero poses)))
  = camera_to_world fzero fone fneg <$> poses.
Proof.
  intros Hposes. rewrite steps_1_2_transposed. unfold inversestep3.
  cbn [seq fmap list_fmap].
  match goal with
  | |- context [seq 0 ?n] =>
      replace n with (length poses) by (cbn; by rewrite length_fmap)
  end.
  apply list_eq. intros n. rewrite !list_lookup_fmap.
  destruct (poses !! n) as [P|] eqn:HP.
  - rewrite (proj2 (lookup_seq 0 (length poses) n n));
      [|split; [done|by eapply lookup_lt_Some]].
    cbn. rewrite !list_lookup_fmap, HP. cbn.
    rewrite camera_to_world_3x5; [done|].
    by eapply Forall_lookup_1.
  - apply lookup_ge_None in HP.
    destruct (seq 0 (length poses) !! n) as [j|] eqn:Hj; [|done].
    apply lookup_seq in Hj. lia.
Qed.
End PoseConverterProofs.

Lemma mapM_res_all_Ok {A B} (f : A → res B) (l : list A) :
  (∀ x, x ∈ l → is_Ok (f x)) → is_Ok (mapM f l).
Proof.
  induction l as [|x l IH]; intros Hl; cbn; [by eexists|].
  destruct (Hl x ltac:(by left)) as [y ->]. cbn.
  destruct IH as [k ->]; [intros x' ?; apply Hl; by right|].
  cbn. by eexists.
Qed.

(** C1. For N legacy 3x5 pose records, handed to the converter
    transposed to shape (3, 5, N) as its caller does, the result is the
    list, in the order of the records, of the inverses of the matrices
    obtained from each record by permuting its direction columns to
    (col1, col0, -col2) with the translation and height/width/focal
    columns kept, dropping the last column and appending the row
    (0, 0, 0, 1); it has N entries, the i-th one coming from the i-th
    record, and it is returned whenever every such matrix is invertible. *)
Theorem posetow2c_matrcs_composition {F : Type} (fzero fone : F)
    (fneg : F → F) (linalg_inv : list (list F) → res (list (list F)))
    (poses : list (list (list F))) :
  Forall is_3x5 poses →
  posetow2c_matrcs fzero fone fneg linalg_inv (transpose_120 fzero poses)
  = mapM (world_to_camera fzero fone fneg linalg_inv) poses
  ∧ (∀ P, P ∈ poses →
       camera_to_world fzero fone fneg P
       = [ [entry fzero P 0 1; entry fzero P 0 0;
            fneg (entry fzero P 0 2); entry fzero P 0 3];
           [entry fzero P 1 1; entry fzero P 1 0;
            fneg (entry fzero P 1 2); entry fzero P 1 3];
           [entry fzero P 2 1; entry fzero P 2 0;
            fneg (entry fzero P 2 2); entry fzero P 2 3];
           [fzero; fzero; fzero; fone] ])
  ∧ (∀ ws,
       posetow2c_matrcs fzero fone fneg linalg_inv (transpose_120 fzero poses)
       = Ok ws →
       length ws = length poses
       ∧ ∀ i P, poses !! i = Some P →
           ∃ W, ws !! i = Some W
                ∧ linalg_inv (camera_to_world fzero fone fneg P) = Ok W)
  ∧ ((∀ P, P ∈ poses →
        is_Ok (linalg_inv (camera_to_world fzero fone fneg P))) →
     is_Ok (posetow2c_matrcs fzero fone fneg linalg_inv
              (transpose_120 fzero poses))).
Proof.
  intros Hposes.
  assert (Heq :
    posetow2c_matrcs fzero fone fneg linalg_inv (transpose_120 fzero poses)
    = mapM (world_to_camera fzero fone fneg linalg_inv) poses).
  { unfold posetow2c_matrcs, inversestep4.
    rewrite steps_1_2_3_transposed by done.
    assert (Hm : mapM linalg_inv (camera_to_world fzero fone fneg <$> poses)
                 = mapM (world_to_camera fzero fone fneg linalg_inv) poses).
    { clear. induction poses as [|P poses IH]; cbn; [done|].
      unfold world_to_camera at 1. by rewrite IH. }
    rewrite Hm.
    destruct (mapM (world_to_camera fzero fone fneg linalg_inv) poses)
      as [ws|e]; cbn; [|done].
    by rewrite seq_lookup_list. }
  split; [done|]. split; [|split].
  - intros P HP. rewrite camera_to_world_3x5; [done|].
    by eapply Forall_forall in Hposes.
  - intros ws Hws. rewrite Heq in Hws. by apply mapM_res_Ok in Hws.
  - intros Hinv. rewrite Heq. by apply mapM_res_all_Ok.
Qed.

Lemma posetow2c_matrcs_composition_witness :
  posetow2c_matrcs 0%Qc 1%Qc Qcopp gauss_jordan_inv
    (transpose_120 0%Qc [demo_pose])
  = mapM (world_to_camera 0%Qc 1%Qc Qcopp gauss_jordan_inv) [demo_pose].
Proof.
  apply (posetow2c_matrcs_composition 0%Qc 1%Qc Qcopp gauss_jordan_inv
           [demo_pose]).
  repeat constructor.
Defined.

(** On that record the converter returns one matrix, and it is the
    inverse of the camera-to-world matrix. *)
Lemma demo_pose_world_to_camera :
  ∃ W, posetow2c_matrcs 0%Qc 1%Qc Qcopp gauss_jordan_inv
         (transpose_120 0%Qc [demo_pose]) = Ok [W]
       ∧ bool_decide
           (mat_mul W (camera_to_world 0%Qc 1%Qc Qcopp demo_pose)
            = identity_matrix 4) = true.
Proof.
  eexists. split; [vm_compute; reflexivity|]. vm_compute. reflexivity.
Qed.

(** The sign step of [rotmat2qvec]: whatever the eigen-solver returns,
    the first component of the result is not negative. *)
Lemma rotmat2qvec_scalar_nonneg (linalg_eigh : matrix → list Qc * matrix)
    (R : matrix) :
  (0 ≤ default 0 (rotmat2qvec linalg_eigh R !! 0%nat))%Qc
  ∧ length (rotmat2qvec linalg_eigh R) = 4%nat.
Proof.
  unfold rotmat2qvec.
  destruct (linalg_eigh (eigen_matrix R)) as [eigvals eigvecs].
  cbn [fmap list_fmap lookup list_lookup default].
  set (w := default 0%Qc (at2 eigvecs 3 (np_argmax eigvals))).
  case_decide as Hsign; cbn.
  - split; [|done].
    replace (w * Qc_of_Z (-1))%Qc with (- w)%Qc
      by (change (Qc_of_Z (-1)) with (Qc_of_Z (- (1)));
          rewrite Z2Qc_inj_opp, Z2Qc_inj_1; ring).
    pose proof (Qcopp_le_compat w 0%Qc (Qclt_le_weak _ _ Hsign)) as Hle.
    by replace (- 0)%Qc with 0%Qc in Hle by ring.
  - split; [|done]. by apply Qcnot_lt_le.
Qed.

(** * Part III: further properties of the code *)

(** ** Keyframe planner *)

Lemma frame_list_Ok S E G :
  0 < G →
  frame_list S E G
  = Ok ((λ x, S + x * G) <$> seqZ 0 (ceil_div (E - S) G)).
Proof.
  intros HG. unfold frame_list, py_floordiv, py_range.
  destruct (decide (G = 0)) as [?|_]; [lia|]. cbn.
  by rewrite ceil_div_floor.
Qed.

(** X1. For a positive GOP size the groups of pictures that start at the
    planned keyframes cover the frame range [S, E) without overlap: every
    keyframe lies in [S, E), and every frame of the range lies in
    [k, k + G) for exactly one keyframe [k]. *)
Theorem frame_list_gop_cover (S E G : Z) (ks : list Z) :
  0 < G →
  frame_list S E G = Ok ks →
  (∀ k, k ∈ ks → S ≤ k < E)
  ∧ ∀ f, S ≤ f < E →
      ∃ k, k ∈ ks ∧ (k ≤ f < k + G)
           ∧ ∀ k', k' ∈ ks → k' ≤ f < k' + G → k' = k.
Proof.
  intros HG Hks. rewrite frame_list_Ok in Hks by done. injection Hks as <-.
  pose proof (ceil_div_spec (E - S) G HG) as Hc.
  split.
  - intros k (x & -> & Hx%elem_of_seqZ)%list_elem_of_fmap. nia.
  - intros f Hf.
    pose proof (Z.div_mod (f - S) G ltac:(lia)) as Hdm.
    pose proof (Z.mod_pos_bound (f - S) G HG) as Hm.
    assert (0 ≤ (f - S) / G) by (apply Z.div_pos; lia).
    exists (S + (f - S) / G * G). split; [|split; [lia|]].
    + apply list_elem_of_fmap. exists ((f - S) / G). split; [done|].
      apply elem_of_seqZ. nia.
    + intros k' (x & -> & Hx%elem_of_seqZ)%list_elem_of_fmap Hin.
      assert (x = (f - S) / G); [|by subst].
      apply Z.div_unique with (r := f - S - x * G); lia.
Qed.

Lemma frame_list_gop_cover_witness :
  ∃ k, k ∈ [0; 60; 120; 180; 240] ∧ (k ≤ 299 < k + 60).
Proof.
  destruct (frame_list_gop_cover 0 300 60 [0; 60; 120; 180; 240]
              ltac:(lia) eq_refl) as [_ H].
  destruct (H 299 ltac:(lia)) as (k & Hk & Hin & _). by exists k.
Defined.

(** X2. Edge cases of the planner: a GOP size of zero stops it with
    [ZeroDivisionError]; with a positive GOP size, an empty frame range
    ([E <= S]) plans no keyframe and a non-empty one plans at least the
    start frame, which is always the first keyframe. *)
Theorem frame_list_edges (S E G : Z) :
  frame_list S E 0 = Raise ZeroDivisionError
  ∧ (0 < G → E ≤ S → frame_list S E G = Ok [])
  ∧ (0 < G → S < E → ∃ ks, frame_list S E G = Ok (S :: ks)).
Proof.
  split; [done|]. split.
  - intros HG HE. rewrite frame_list_Ok by done.
    pose proof (ceil_div_spec (E - S) G HG). rewrite seqZ_nil by nia. done.
  - intros HG HE. rewrite frame_list_Ok by done.
    pose proof (ceil_div_spec (E - S) G HG). rewrite seqZ_cons by nia.
    cbn. rewrite Z.add_0_r. eauto.
Qed.

Lemma frame_list_edges_witness :
  frame_list 10 10 10 = Ok [] ∧ ∃ ks, frame_list 10 25 10 = Ok (10 :: ks).
Proof.
  pose proof (frame_list_edges 10 10 10) as (_ & Hempty & _).
  pose proof (frame_list_edges 10 25 10) as (_ & _ & Hstart).
  split; [apply Hempty; lia | apply Hstart; lia].
Defined.

(** ** Sample dataset: shape of the splits *)

Lemma filter_blocks_concat (P : Z → Prop) `{!∀ c, Decision (P c)} G n :
  0 < G →
  filter (λ x, P (x / G)) (seqZ 0 (Z.of_nat n * G))
  = filter P (seqZ 0 (Z.of_nat n)) ≫= λ c, seqZ (c * G) G.
Proof.
  intros HG. induction n as [|n IH].
  - by rewrite Z.mul_0_l, !seqZ_nil by lia.
  - replace (Z.of_nat (S n) * G) with (Z.of_nat n * G + G) by lia.
    replace (Z.of_nat (S n)) with (Z.of_nat n + 1) by lia.
    rewrite !seqZ_app by nia. rewrite !filter_app, bind_app, IH, !Z.add_0_l.
    f_equal. rewrite filter_block by lia.
    change (seqZ (Z.of_nat n) 1) with [Z.of_nat n].
    rewrite filter_cons, filter_nil.
    destruct (decide (P (Z.of_nat n))); cbn; by rewrite ?app_nil_r.
Qed.

Lemma length_blocks (l : list Z) G :
  0 ≤ G →
  Z.of_nat (length (l ≫= λ c, seqZ (c * G) G)) = G * Z.of_nat (length l).
Proof.
  intros HG. induction l as [|c l IH]; cbn; [lia|].
  rewrite length_app, length_seqZ. lia.
Qed.

(** X3. A split is made of whole camera blocks, in camera order: for a
    positive GOP size the index list built by [Dataset.__init__] is the
    concatenation of the blocks [c*G, ..., c*G + G - 1] of the cameras
    [c] that pass the filters, so [len(dataset)] is [G] times the number
    of those cameras; for a GOP size that is not positive the dataset is
    empty. *)
Theorem split_indices_blocks (p : Parser) (split : string) (start G : Z)
    (test_set : list Z) (remove_set : option (list Z)) :
  let ds := Dataset_init p split start G test_set remove_set in
  let cams := filter (λ c, kept split test_set remove_set c = true)
                (seqZ 0 (Z.of_nat (length (camera_names p)))) in
  (0 < G →
     indices ds = (cams ≫= λ c, seqZ (c * G) G)
     ∧ Dataset_len ds = G * Z.of_nat (length cams))
  ∧ (G ≤ 0 → indices ds = [] ∧ Dataset_len ds = 0).
Proof.
  cbn zeta. unfold Dataset_len. cbn [indices Dataset_init]. split.
  - intros HG. rewrite split_indices_filter.
    pose proof (filter_blocks_concat
                  (λ c, kept split test_set remove_set c = true)
                  G (length (camera_names p)) HG) as Hb.
    cbn beta in Hb. rewrite Hb.
    split; [done|]. apply length_blocks. lia.
  - intros HG. rewrite split_indices_filter, seqZ_nil by nia. done.
Qed.

Lemma split_indices_blocks_witness :
  indices demo_train = seqZ 50 50 ∧ Dataset_len demo_train = 50.
Proof.
  destruct (split_indices_blocks demo_parser "train" 0 50 [0] None)
    as [H _].
  destruct (H ltac:(lia)) as [Hi Hl]. split; [exact Hi | exact Hl].
Defined.

(** X4. Without a [remove_set] the train split and any other split
    partition the global indices [0 .. N*G - 1]: together they hold each
    index once, and no index is in both.  With a [remove_set] they
    partition the indices whose camera is not removed. *)
Theorem split_train_test_partition (n : nat) (G : Z) (test_set : list Z)
    (remove_set : option (list Z)) (split : string) :
  split ≠ "train" →
  let train := split_indices n "train" G test_set remove_set in
  let test := split_indices n split G test_set remove_set in
  train ++ test ≡ₚ
    match remove_set with
    | None => py_range (Z.of_nat n * G)
    | Some rs => filter (λ x, x / G ∉ rs) (py_range (Z.of_nat n * G))
    end
  ∧ ∀ x, x ∈ train → x ∉ test.
Proof.
  intros Hs. cbn zeta. unfold split_indices.
  rewrite decide_True by done. rewrite decide_False by done.
  set (l := py_range _).
  assert (Hp : filter (λ x, x / G ∉ test_set) l
               ++ filter (λ x, x / G ∈ test_set) l ≡ₚ l).
  { rewrite Permutation_app_comm.
    apply (filter_app_complement (λ x, x / G ∈ test_set)). }
  split.
  - destruct remove_set as [rs|]; [|done].
    by rewrite <-filter_app, Hp.
  - intros x Hx Hx'. destruct remove_set as [rs|].
    + apply list_elem_of_filter in Hx as [_ Hx].
      apply list_elem_of_filter in Hx' as [_ Hx'].
      apply list_elem_of_filter in Hx as [Hx _].
      by apply list_elem_of_filter in Hx' as [Hx' _].
    + apply list_elem_of_filter in Hx as [Hx _].
      by apply list_elem_of_filter in Hx' as [Hx' _].
Qed.

Lemma split_train_test_partition_witness :
  indices demo_train ++ indices demo_test ≡ₚ py_range (Z.of_nat 2 * 50).
Proof.
  apply (split_train_test_partition 2 50 [0] None "test"). discriminate.
Defined.

(** X5. Positions outside [-len, len) stop [__getitem__] with
    [IndexError]; a negative position [item] in [-len, 0) selects the
    sample of position [item + len] (same camera, frame, time and camera
    id, with the same error if that sample fails), except that the
    sample's [image_id] is the negative [item] itself. *)
Theorem getitem_item_range (p : Parser) (split : string) (start G : Z)
    (test_set : list Z) (remove_set : option (list Z)) (item : Z) :
  let ds := Dataset_init p split start G test_set remove_set in
  (item < - Dataset_len ds ∨ Dataset_len ds ≤ item →
     Dataset_getitem ds item = Raise IndexError)
  ∧ (- Dataset_len ds ≤ item < 0 →
     Dataset_getitem ds item
     = (λ s, {| s_cam := s_cam s; s_frame_idx := s_frame_idx s;
                s_camera_path := s_camera_path s; s_image_id := item;
                s_time := s_time s; s_camera_id := s_camera_id s |})
       <$> Dataset_getitem ds (item + Dataset_len ds)).
Proof.
  intros ds. split.
  - intros Hi. unfold Dataset_getitem, Dataset_locate, py_getitem.
    fold (Dataset_len ds).
    destruct (decide (item < 0)) as [Hn|Hn].
    + destruct (decide (item + Dataset_len ds < 0)) as [?|?]; [done|lia].
    + destruct (decide (item < 0)) as [?|_]; [lia|].
      rewrite lookup_ge_None_2; [done|]. unfold Dataset_len in Hi. lia.
  - intros Hi.
    assert (Hlen : 0 ≤ item + Dataset_len ds < Dataset_len ds) by lia.
    destruct (py_getitem_Ok (indices ds) _ Hlen) as (g & Hg & Hget).
    destruct (split_indices_position _ _ _ _ _ _ _ Hg) as (HG & _ & _).
    assert (Hmod : Dataset_len ds mod G = 0).
    { unfold Dataset_len, ds. cbn [indices Dataset_init].
      rewrite split_indices_filter.
      by destruct (filter_blocks_residue
                     (λ c, kept split test_set remove_set c = true)
                     G (length (camera_names p)) HG). }
    assert (Hloc : Dataset_locate ds item
                   = Dataset_locate ds (item + Dataset_len ds)).
    { unfold Dataset_locate. rewrite Hget.
      unfold py_getitem at 1. fold (Dataset_len ds).
      destruct (decide (item < 0)) as [_|?]; [|lia].
      destruct (decide (item + Dataset_len ds < 0)) as [?|_]; [lia|].
      rewrite Hg. cbn. unfold py_floordiv.
      change (GOP_size ds) with G.
      destruct (decide (G = 0)) as [?|_]; [lia|]. cbn. do 2 f_equal.
      change (start_frame ds) with start.
      pose proof (Z.mod_eq item G ltac:(lia)).
      pose proof (Z.mod_eq (item + Dataset_len ds) G ltac:(lia)).
      apply Z.mod_divide in Hmod as [k Hk]; [|lia].
      assert ((item + Dataset_len ds) mod G = item mod G)
        by (rewrite Hk, Z.mod_add; lia).
      lia. }
    clearbody ds. unfold Dataset_getitem. rewrite Hloc.
    destruct (Dataset_locate ds (item + Dataset_len ds)) as [[cam f]|];
      cbn; [|done].
    destruct (py_getitem (campaths (parser ds)) cam); cbn; [|done].
    destruct (py_getitem (camera_ids (parser ds)) cam) as [id|]; cbn; [|done].
    destruct (py_lookup (Ks_dict (parser ds)) id); cbn; [|done].
    destruct (py_lookup (params_dict (parser ds)) id) as [ps|]; cbn; [|done].
    destruct (py_lookup (mask_dict (parser ds)) id); cbn; [|done].
    destruct (if decide (0 < length ps)%nat then _ else _); cbn; [|done].
    destruct (Dataset_time ds f); cbn; done.
Qed.

Lemma getitem_item_range_witness :
  Dataset_getitem demo_train 50 = Raise IndexError
  ∧ s_cam <$> Dataset_getitem demo_train (-1) = Ok 1
  ∧ s_frame_idx <$> Dataset_getitem demo_train (-1) = Ok 49.
Proof.
  destruct (getitem_item_range demo_parser "train" 0 50 [0] None 50)
    as [Hout _].
  destruct (getitem_item_range demo_parser "train" 0 50 [0] None (-1))
    as [_ Hneg].
  split; [apply Hout; right; vm_compute; intros H; discriminate H|].
  fold demo_train in Hneg. rewrite Hneg.
  - split; vm_compute; reflexivity.
  - vm_compute. split; [intros H; discriminate H | reflexivity].
Defined.

(** ** Calibration parser: what the first loop stores *)

Lemma parse_images_tables_from cameras factor st l st' :
  parse_images cameras factor st l = Ok st' →
  ps_camera_ids st' = ps_camera_ids st ++ (im_camera_id <$> l)
  ∧ ∀ id,
      (id ∈ im_camera_id <$> l →
         is_Some (ps_Ks_dict st' !! id)
         ∧ is_Some (ps_params_dict st' !! id)
         ∧ is_Some (ps_imsize_dict st' !! id)
         ∧ ps_mask_dict st' !! id = Some None)
      ∧ (id ∉ im_camera_id <$> l →
         ps_Ks_dict st' !! id = ps_Ks_dict st !! id
         ∧ ps_params_dict st' !! id = ps_params_dict st !! id
         ∧ ps_imsize_dict st' !! id = ps_imsize_dict st !! id
         ∧ ps_mask_dict st' !! id = ps_mask_dict st !! id).
Proof.
  revert st. induction l as [|im l IH]; intros st H.
  - injection H as <-. cbn. rewrite app_nil_r. split; [done|].
    intros id. split; [by intros ?%elem_of_nil|done].
  - cbn in H. apply bind_Ok in H as (st1 & H1 & H).
    destruct (IH _ H) as [Hids Hd].
    apply parse_image_Ok in H1 as (cam & ps & ct & _ & _ & _ & ->).
    cbn in *. split; [by rewrite Hids, <-app_assoc|].
    intros id. destruct (Hd id) as [Hin Hout].
    destruct (decide (id ∈ im_camera_id <$> l)) as [Hl|Hl].
    + split; [by intros _; apply Hin|].
      intros Hn. destruct Hn. by right.
    + destruct (Hout Hl) as (-> & -> & -> & ->). split.
      * intros [->|?]%elem_of_cons; [|done].
        rewrite !lookup_insert_eq. eauto.
      * intros Hn. rewrite !lookup_insert_ne; [done|..];
          intros <-; apply Hn; by left.
Qed.

(** X6. After the first loop of [Parser.__init__] has run over all
    images, [camera_ids] lists the images' camera ids in enumeration
    order, and the four tables have exactly those ids as keys: such an id
    is a key of [manager.cameras] and its entries are the intrinsics
    divided by [factor], the size floor-divided by [factor], some
    distortion parameters and the mask [None]; any other id has no
    entry. *)
Theorem parse_images_tables (cameras : gmap Z Camera) (factor : Z)
    (imdata : list Image) (st : ParseState) :
  parse_images cameras factor parse_init imdata = Ok st →
  ps_camera_ids st = im_camera_id <$> imdata
  ∧ ∀ id,
      (id ∈ ps_camera_ids st →
         ∃ cam params,
           cameras !! id = Some cam
           ∧ ps_Ks_dict st !! id = Some (intrinsics cam factor)
           ∧ ps_imsize_dict st !! id
             = Some (cam_width cam / factor, cam_height cam / factor)
           ∧ ps_params_dict st !! id = Some params
           ∧ ps_mask_dict st !! id = Some None)
      ∧ (id ∉ ps_camera_ids st →
         ps_Ks_dict st !! id = None
         ∧ ps_imsize_dict st !! id = None
         ∧ ps_params_dict st !! id = None
         ∧ ps_mask_dict st !! id = None).
Proof.
  intros H.
  pose proof (parse_images_inv _ _ _ _ _ (parse_init_inv cameras factor) H)
    as Hinv.
  destruct (parse_images_tables_from _ _ _ _ _ H) as [Hids Hd].
  cbn in Hids. split; [done|]. rewrite Hids. intros id.
  destruct (Hd id) as [Hin Hout]. split.
  - intros Hid. destruct (Hin Hid) as ([K HK] & [ps Hps] & _ & Hmask).
    destruct (Hinv id) as (_ & HKs & _).
    destruct (HKs K HK) as (cam & Hcam & -> & Hsz).
    by exists cam, ps.
  - intros Hid. destruct (Hout Hid) as (-> & -> & -> & ->). done.
Qed.

Lemma parse_images_tables_witness :
  ps_camera_ids demo_state = im_camera_id <$> demo_images.
Proof.
  apply (parse_images_tables demo_cameras 1 demo_images demo_state).
  vm_compute. reflexivity.
Defined.

(** ** Calibration parser: the finished record *)

Lemma undistort_all_names
    (cv2_getOptimalNewCameraMatrix :
       matrix → list Qc → Z * Z → matrix * (Z * Z * Z * Z))
    (cv2_initUndistortRectifyMap :
       matrix → list Qc → matrix → Z * Z → matrix * matrix)
    camtype p p' :
  undistort_all cv2_getOptimalNewCameraMatrix cv2_initUndistortRectifyMap
    camtype p = Ok p' →
  factor p' = factor p
  ∧ camera_names p' = camera_names p
  ∧ campaths p' = campaths p.
Proof.
  unfold undistort_all. revert p'.
  apply (map_fold_weak_ind (λ r (m : gmap Z (list Qc)), ∀ p',
    r = Ok p' →
    factor p' = factor p
    ∧ camera_names p' = camera_names p
    ∧ campaths p' = campaths p)).
  - by intros p' [= <-].
  - intros i params m r Hi IH p' Hstep.
    destruct r as [p1|e]; [|done].
    destruct (IH p1 eq_refl) as (Hf & Hn & Hc).
    cbn in Hstep.
    destruct (decide (length params = 0%nat)).
    { injection Hstep as <-. done. }
    apply bind_Ok in Hstep as (K & _ & Hstep).
    apply bind_Ok in Hstep as ([w h] & _ & Hstep).
    apply bind_Ok in Hstep as (ct & _ & Hstep).
    apply bind_Ok in Hstep as (u & _ & Hstep).
    injection Hstep as <-. done.
Qed.

Lemma zip_name_and_id (imdata : list Image) :
  zip (im_name <$> imdata) (im_camera_id <$> imdata)
  = name_and_id <$> imdata.
Proof. induction imdata as [|im l IH]; cbn; [done|]. by rewrite IH. Qed.

Lemma name_le_total : Total name_le.
Proof. intros [a x] [b y]. unfold name_le. cbn. apply String.le_total. Qed.

Lemma sort_by_name_images (imdata : list Image) :
  let sorted := sort_by_name (im_name <$> imdata) (im_camera_id <$> imdata) in
  sorted ≡ₚ name_and_id <$> imdata
  ∧ Sorted name_le sorted
  ∧ length sorted.*1 = length imdata
  ∧ length sorted.*2 = length imdata
  ∧ ∀ id, id ∈ sorted.*2 ↔ id ∈ im_camera_id <$> imdata.
Proof.
  cbn zeta. unfold sort_by_name. rewrite zip_name_and_id.
  assert (Hp : merge_sort name_le (name_and_id <$> imdata)
               ≡ₚ name_and_id <$> imdata) by apply merge_sort_Permutation.
  split; [done|]. split.
  - apply (Sorted_merge_sort name_le (Total0 := name_le_total)).
  - rewrite !length_fmap, Hp, length_fmap. split; [done|]. split; [done|].
    intros id. rewrite Hp, <-list_fmap_compose. done.
Qed.

(** X7. A parser that [Parser.__init__] returns is complete for the
    dataset: the names and the ids are the images' (name, camera id)
    pairs sorted by name, one per image, [campaths] is the sorted listing
    of the [png] directory, and every listed camera id has intrinsics, a
    size, a mask entry and distortion parameters, and, when the
    parameters are not empty, the two undistortion tables and a region of
    interest. *)
Theorem Parser_init_complete
    (cv2_getOptimalNewCameraMatrix :
       matrix → list Qc → Z * Z → matrix * (Z * Z * Z * Z))
    (cv2_initUndistortRectifyMap :
       matrix → list Qc → matrix → Z * Z → matrix * matrix)
    (cameras : gmap Z Camera) (imdata : list Image)
    (loading : Loading) (png_dirs : list string) (actual_shape : Z * Z)
    (f : Z) (p : Parser) :
  Parser_init cv2_getOptimalNewCameraMatrix cv2_initUndistortRectifyMap
    cameras imdata loading png_dirs actual_shape f = Ok p →
  zip (camera_names p) (camera_ids p) ≡ₚ name_and_id <$> imdata
  ∧ Sorted name_le (zip (camera_names p) (camera_ids p))
  ∧ length (camera_names p) = length imdata
  ∧ campaths p = png_dirs
  ∧ factor p = f
  ∧ parser_complete p.
Proof.
  intros H.
  apply Parser_init_inv in H
    as (st & id0 & sw & sh & Ks & ims & Hst & _ & _ & _ & _ & Hr & Hu).
  destruct (parse_images_tables_from _ _ _ _ _ Hst) as [Hids Hd].
  cbn in Hids. rewrite Hids in Hu.
  destruct (sort_by_name_images imdata) as (Hp & Hs & Hl1 & Hl2 & Hmem).
  set (sorted := sort_by_name _ _) in *.
  destruct (undistort_all_names _ _ _ _ _ Hu) as (Hf & Hn & Hc).
  destruct (undistort_all_entries _ _ _ _ _ Hu) as (Hpar & Hcids & Hent).
  cbn in Hf, Hn, Hc, Hpar, Hcids.
  rewrite Hn, Hcids, zip_fst_snd.
  split; [done|]. split; [done|]. split; [done|]. split; [done|].
  split; [done|]. split; [by rewrite Hn, Hcids, Hl1, Hl2|].
  rewrite Hcids. intros id Hid%Hmem.
  destruct (Hd id) as [Hin _].
  destruct (Hin Hid) as ([K HK] & [ps Hps] & [sz Hsz] & Hm).
  destruct (rescale_lookup sw sh (ps_Ks_dict st) (ps_imsize_dict st))
    as (Ks' & ims' & Hr' & Hlk).
  { intros k [K' HK'].
    destruct (decide (k ∈ im_camera_id <$> imdata)) as [Hk|Hk].
    - by destruct (Hd k) as [(_ & _ & ? & _) _].
    - destruct (Hd k) as [_ (HKn & _)]; [done|].
      rewrite HKn in HK'. done. }
  rewrite Hr in Hr'. injection Hr' as <- <-.
  destruct (Hlk id) as [HKid Himid]. rewrite HK in HKid, Himid.
  rewrite Hsz in Himid. cbn in HKid, Himid.
  specialize (Hent id). cbn in Hent. rewrite Hpar, Hps.
  destruct ps as [|x ps].
  - rewrite Hps in Hent. destruct Hent as (-> & -> & -> & _). cbn.
    rewrite HKid, Himid, Hm. split_and!; eauto.
    exists []. by split.
  - rewrite Hps in Hent.
    destruct Hent as (ct & _ & K' & w' & h' & u & _ & _ & _
                      & -> & -> & -> & -> & -> & ->).
    split_and!; eauto.
Qed.

Lemma Parser_init_complete_witness :
  ∃ p, Parser_init identity_getOptimalNewCameraMatrix
         identity_initUndistortRectifyMap demo_fisheye_cameras
         demo_fisheye_images demo_loading ["png/cam00"] (5, 5) 1 = Ok p
       ∧ parser_complete p.
Proof.
  eexists. split; [vm_compute; reflexivity|].
  eapply (Parser_init_complete identity_getOptimalNewCameraMatrix
            identity_initUndistortRectifyMap demo_fisheye_cameras
            demo_fisheye_images demo_loading ["png/cam00"] (5, 5) 1).
  vm_compute. reflexivity.
Defined.

Lemma py_lookup_Some {V} (d : gmap Z V) k :
  is_Some (d !! k) → ∃ v, py_lookup d k = Ok v.
Proof. intros [v Hv]. exists v. unfold py_lookup. by rewrite Hv. Qed.

(** X8. On a complete parser whose [png] listing has a directory for
    every image, with a GOP size other than 1, [__getitem__] finds what
    it looks up for every valid position: no list index or dictionary key
    is missing and the time is defined.  The sample carries the position
    as [image_id], the directory [campaths[cam]], and the camera id
    [camera_ids[cam] - 1] in the train split and [-1] in any other. *)
Theorem getitem_lookups_Ok (p : Parser) (split : string) (start G : Z)
    (test_set : list Z) (remove_set : option (list Z)) (item : Z) :
  let ds := Dataset_init p split start G test_set remove_set in
  parser_complete p →
  (length (camera_names p) ≤ length (campaths p))%nat →
  G ≠ 1 →
  0 ≤ item < Dataset_len ds →
  ∃ s cid path,
    Dataset_getitem ds item = Ok s
    ∧ camera_ids p !! Z.to_nat (s_cam s) = Some cid
    ∧ campaths p !! Z.to_nat (s_cam s) = Some path
    ∧ s_camera_path s = path
    ∧ s_image_id s = item
    ∧ s_camera_id s = if decide (split = "train") then cid - 1 else -1.
Proof.
  intros ds [Hlen Hcomplete] Hpaths HG1 Hitem.
  destruct (py_getitem_Ok (indices ds) item Hitem) as (g & Hg & _).
  destruct (split_indices_position _ _ _ _ _ _ _ Hg) as (HG & Hrange & _).
  destruct (Dataset_locate_Ok ds item HG Hitem) as (g' & Hg' & Hloc).
  assert (g' = g) as -> by congruence.
  change (GOP_size ds) with G in Hloc.
  destruct (seqZ_div_mod_bijection (length (camera_names p)) G HG)
    as (Hdm & _ & _).
  destruct (Hdm g Hrange) as [Hcam _].
  destruct (py_getitem_Ok (campaths p) (g / G) ltac:(lia))
    as (path & Hpath & Hgp).
  destruct (py_getitem_Ok (camera_ids p) (g / G) ltac:(lia))
    as (cid & Hcid & Hgc).
  destruct (Hcomplete cid) as (HK & _ & Hm & ps & Hps & Hmaps).
  { by eapply list_elem_of_lookup_2. }
  destruct (py_lookup_Some _ _ HK) as (K & HlK).
  destruct (py_lookup_Some _ _ Hm) as (m & Hlm).
  assert (Hlp : py_lookup (params_dict p) cid = Ok ps)
    by (unfold py_lookup; by rewrite Hps).
  assert (Hund :
    (if decide (0 < length ps)%nat then
       _ ← py_lookup (mapx_dict p) cid;
       _ ← py_lookup (mapy_dict p) cid;
       _ ← py_lookup (roi_undist_dict p) cid;
       Ok ()
     else Ok ()) = Ok ()).
  { destruct (decide (0 < length ps)%nat) as [Hps0|]; [|done].
    destruct Hmaps as (Hx & Hy & Hr); [by destruct ps; cbn in Hps0; [lia|]|].
    destruct (py_lookup_Some _ _ Hx) as (? & ->).
    destruct (py_lookup_Some _ _ Hy) as (? & ->).
    destruct (py_lookup_Some _ _ Hr) as (? & ->). done. }
  eexists _, cid, path. unfold Dataset_getitem. rewrite Hloc.
  change (parser ds) with p. cbn.
  rewrite Hgp. cbn. rewrite Hgc. cbn. rewrite HlK. cbn. rewrite Hlp. cbn.
  rewrite Hlm. cbn. rewrite Hund. cbn.
  unfold Dataset_time. rewrite py_truediv_nonzero by (cbn; lia). cbn.
  split; [done|]. cbn. by split_and!.
Qed.

Lemma getitem_lookups_Ok_witness :
  ∃ s, Dataset_getitem demo_test 49 = Ok s ∧ s_image_id s = 49.
Proof.
  destruct (getitem_lookups_Ok demo_parser "test" 0 50 [0] None 49)
    as (s & cid & path & Hs & _ & _ & _ & Hid & _).
  - split; [reflexivity|]. intros id Hid.
    apply elem_of_cons in Hid as [->|Hid];
      [|apply list_elem_of_singleton in Hid as ->].
    + split_and!; [by eexists..|]. exists []. by split.
    + split_and!; [by eexists..|]. exists []. by split.
  - cbn. lia.
  - lia.
  - vm_compute. split; [intros H; discriminate H | reflexivity].
  - exists s. split; [exact Hs | exact Hid].
Defined.

(** ** Calibration parser: how it stops *)

Lemma add_observation_Raise (image_id_to_name : gmap Z string)
    (point3D_id_to_point3D_idx : gmap Z Z) (point_id : Z) e
    (data : list (Z * Z)) :
  foldl (add_observation image_id_to_name point3D_id_to_point3D_idx
           point_id) (Raise e) data = Raise e.
Proof. induction data as [|obs data IH]; [done|]. cbn. apply IH. Qed.

Lemma collect_point_indices_Raise (image_id_to_name : gmap Z string)
    (point3D_id_to_point3D_idx : gmap Z Z) e
    (items : list (Z * list (Z * Z))) :
  foldl (λ acc item,
           foldl (add_observation image_id_to_name
                    point3D_id_to_point3D_idx item.1) acc item.2)
    (Raise e) items = Raise e.
Proof.
  induction items as [|item items IH]; [done|]. cbn.
  by rewrite add_observation_Raise.
Qed.

(** X9. [Parser.__init__] stops with [ValueError] on a reconstruction
    without images, with [KeyError] when the first image refers to a
    camera that [manager.cameras] does not hold, and with
    [ZeroDivisionError] when [factor] is 0 and the first image's camera
    has a supported model.  When the first loop succeeds on a non-empty
    reconstruction, an exception raised by one of lines 121-203 ends the
    parser with that exception, among them the [KeyError] of a point
    observed by an image id without a name; when those lines complete
    and the [png] directory is empty, the parser stops with
    [IndexError], and when the directory is not empty but the first
    image cannot be read, with the exception of the reader. *)
Theorem Parser_init_errors
    (cv2_getOptimalNewCameraMatrix :
       matrix → list Qc → Z * Z → matrix * (Z * Z * Z * Z))
    (cv2_initUndistortRectifyMap :
       matrix → list Qc → matrix → Z * Z → matrix * matrix)
    (cameras : gmap Z Camera) (im : Image) (rest : list Image)
    (loading : Loading) (png_dirs : list string) (actual_shape : Z * Z)
    (f : Z) :
  let init := Parser_init cv2_getOptimalNewCameraMatrix
                cv2_initUndistortRectifyMap cameras in
  init [] loading png_dirs actual_shape f = Raise ValueError
  ∧ (cameras !! im_camera_id im = None →
     init (im :: rest) loading png_dirs actual_shape f = Raise KeyError)
  ∧ ((∃ cam, cameras !! im_camera_id im = Some cam
             ∧ is_Some (own_camtype cam)) →
     init (im :: rest) loading png_dirs actual_shape 0
     = Raise ZeroDivisionError)
  ∧ (is_Ok (parse_images cameras f parse_init (im :: rest)) →
     (∀ e, run_loading loading = Raise e →
        init (im :: rest) loading png_dirs actual_shape f = Raise e)
     ∧ (∀ point_id image_id point2D_idx others more,
          poses_and_metadata loading = Ok () →
          point3D_id_to_images loading
          = (point_id, (image_id, point2D_idx) :: others) :: more →
          invert_names (name_to_image_id loading) !! image_id = None →
          init (im :: rest) loading png_dirs actual_shape f
          = Raise KeyError)
     ∧ (run_loading loading = Ok () →
        init (im :: rest) loading [] actual_shape f = Raise IndexError)
     ∧ (∀ e dir dirs,
          run_loading loading = Ok () →
          first_image_read loading = Raise e →
          init (im :: rest) loading (dir :: dirs) actual_shape f
          = Raise e)).
Proof.
  cbn zeta. split_and!.
  - done.
  - intros Hcam. unfold Parser_init. cbn.
    unfold parse_image, py_lookup. by rewrite Hcam.
  - intros (cam & Hcam & ct & Hct). unfold Parser_init. cbn.
    unfold parse_image, py_lookup. rewrite Hcam. cbn.
    rewrite (assign_distortion_supported cam _ ct Hct).
    destruct (own_params_supported cam ct Hct) as [ps ->]. done.
  - intros [st Hst].
    assert (Hload : ∀ e, run_loading loading = Raise e →
      Parser_init cv2_getOptimalNewCameraMatrix cv2_initUndistortRectifyMap
        cameras (im :: rest) loading png_dirs actual_shape f = Raise e).
    { intros e He. unfold Parser_init. rewrite Hst. cbn. by rewrite He. }
    split_and!.
    + exact Hload.
    + intros point_id image_id point2D_idx others more Hposes Hpoints Hname.
      apply Hload. unfold run_loading, collect_point_indices.
      rewrite Hposes, Hpoints. cbn. unfold py_lookup. rewrite Hname. cbn.
      by rewrite add_observation_Raise, collect_point_indices_Raise.
    + intros Hload'. unfold Parser_init. rewrite Hst. cbn.
      by rewrite Hload'.
    + intros e dir dirs Hload' Hread. unfold Parser_init. rewrite Hst. cbn.
      rewrite Hload'. cbn. by rewrite Hread.
Qed.

Lemma Parser_init_errors_witness :
  Parser_init identity_getOptimalNewCameraMatrix
    identity_initUndistortRectifyMap demo_cameras [demo_image_1; demo_image_2]
    demo_loading [] (720, 1280) 1 = Raise IndexError
  ∧ Parser_init identity_getOptimalNewCameraMatrix
      identity_initUndistortRectifyMap demo_cameras
      [demo_image_1; demo_image_2] demo_loading demo_png_dirs (720, 1280) 0
    = Raise ZeroDivisionError
  ∧ Parser_init identity_getOptimalNewCameraMatrix
      identity_initUndistortRectifyMap ∅ [demo_image_1; demo_image_2]
      demo_loading demo_png_dirs (720, 1280) 1 = Raise KeyError
  ∧ Parser_init identity_getOptimalNewCameraMatrix
      identity_initUndistortRectifyMap demo_cameras
      [demo_image_1; demo_image_2] demo_loading_unnamed demo_png_dirs
      (720, 1280) 1 = Raise KeyError.
Proof.
  pose proof (Parser_init_errors identity_getOptimalNewCameraMatrix
                identity_initUndistortRectifyMap demo_cameras
                demo_image_1 [demo_image_2] demo_loading demo_png_dirs
                (720, 1280) 1)
    as (_ & _ & Hzero & Hrest).
  pose proof (Parser_init_errors identity_getOptimalNewCameraMatrix
                identity_initUndistortRectifyMap ∅
                demo_image_1 [demo_image_2] demo_loading demo_png_dirs
                (720, 1280) 1)
    as (_ & Hkey & _).
  pose proof (Parser_init_errors identity_getOptimalNewCameraMatrix
                identity_initUndistortRectifyMap demo_cameras
                demo_image_1 [demo_image_2] demo_loading_unnamed
                demo_png_dirs (720, 1280) 1)
    as (_ & _ & _ & Hunnamed).
  split; [|split; [|split]].
  - destruct Hrest as (_ & _ & Hindex & _).
    + eexists. vm_compute. reflexivity.
    + apply Hindex. reflexivity.
  - apply Hzero. eexists. split; [reflexivity|]. eexists.
    vm_compute. reflexivity.
  - apply Hkey. reflexivity.
  - destruct Hunnamed as (_ & Hpoint & _).
    + eexists. vm_compute. reflexivity.
    + apply (Hpoint 7 3 0 [] []); reflexivity.
Defined.

(** ** Resolution reconciliation: equal sizes *)

Lemma Qc_of_Z_self_ratio a : a ≠ 0 → (Qc_of_Z a / Qc_of_Z a)%Qc = 1%Qc.
Proof.
  intros Ha.
  assert (Qc_of_Z a ≠ 0%Qc) by (rewrite <-Z2Qc_inj_0; by intros ?%Z2Qc_inj).
  by field.
Qed.

Lemma scale_rows_unit (K : matrix) : scale_rows 1 1 K = K.
Proof.
  unfold scale_rows.
  assert (Hid : ∀ row : list Qc, (λ v, v * 1)%Qc <$> row = row).
  { intros row. induction row as [|v row IH]; cbn; [done|].
    by rewrite IH, Qcmult_1_r. }
  rewrite !list_alter_id by done. done.
Qed.

Lemma scale_size_unit (sz : Z * Z) :
  Z.abs sz.1 < 2 ^ 53 → Z.abs sz.2 < 2 ^ 53 → scale_size 1 1 sz = sz.
Proof.
  destruct sz as [w h]. unfold scale_size. cbn [fst snd]. intros Hw Hh.
  by rewrite !float_mul_int_1, !Qc_trunc_of_Z by done.
Qed.

(** X10. When the image on disk (after [// factor]) has the size recorded
    for the first camera, both scale factors are exactly 1 and the
    reconciliation loop leaves every intrinsic matrix and every recorded
    size as it was, the recorded sizes being below [2^53] (an integer
    that a double holds exactly). *)
Theorem reconciliation_equal_sizes (Ks : gmap Z matrix)
    (ims : gmap Z (Z * Z)) (actual_shape : Z * Z) (f camera_id0 w h : Z) :
  (∀ k, is_Some (Ks !! k) → is_Some (ims !! k)) →
  (∀ k sz, ims !! k = Some sz → Z.abs sz.1 < 2 ^ 53 ∧ Z.abs sz.2 < 2 ^ 53) →
  f ≠ 0 → w ≠ 0 → h ≠ 0 →
  ims !! camera_id0 = Some (w, h) →
  actual_shape.1 / f = h →
  actual_shape.2 / f = w →
  scale_factors actual_shape f ims camera_id0 = Ok (1%Qc, 1%Qc)
  ∧ rescale 1 1 Ks ims = Ok (Ks, ims).
Proof.
  intros Hdom Hsmall Hf Hw Hh Hid0 Hah Haw. split.
  - unfold scale_factors, py_floordiv, py_lookup.
    destruct (decide (f = 0)) as [?|_]; [done|]. cbn.
    rewrite Hid0. cbn. rewrite Hah, Haw.
    rewrite !py_truediv_nonzero by done. cbn.
    by rewrite !Qc_of_Z_self_ratio by done.
  - destruct (rescale_lookup 1 1 Ks ims Hdom) as (Ks' & ims' & -> & Hlk).
    do 2 f_equal.
    + apply map_eq. intros k. destruct (Hlk k) as [-> _].
      destruct (Ks !! k); cbn; [|done]. by rewrite scale_rows_unit.
    + apply map_eq. intros k. destruct (Hlk k) as [_ ->].
      destruct (Ks !! k); [|done].
      destruct (ims !! k) as [sz|] eqn:Hsz; cbn; [|done].
      destruct (Hsmall k sz Hsz). by rewrite scale_size_unit.
Qed.

Lemma reconciliation_equal_sizes_witness :
  rescale 1 1 (ps_Ks_dict demo_state) (ps_imsize_dict demo_state)
  = Ok (ps_Ks_dict demo_state, ps_imsize_dict demo_state).
Proof.
  apply (reconciliation_equal_sizes (ps_Ks_dict demo_state)
           (ps_imsize_dict demo_state) (720, 1280) 1 1 1280 720).
  - intros k [K HK].
    destruct (parse_images_tables_from demo_cameras 1 parse_init demo_images
                demo_state eq_refl) as [_ Hd].
    destruct (decide (k ∈ im_camera_id <$> demo_images)) as [Hk|Hk].
    + by destruct (Hd k) as [(_ & _ & ? & _) _].
    + destruct (Hd k) as [_ (HKn & _)]; [done|]. rewrite HKn in HK. done.
  - intros k sz Hk.
    destruct (decide (k = 1)) as [->|H1];
      [vm_compute in Hk; injection Hk as <-; cbn; lia|].
    destruct (decide (k = 2)) as [->|H2];
      [vm_compute in Hk; injection Hk as <-; cbn; lia|].
    destruct (parse_images_tables_from demo_cameras 1 parse_init demo_images
                demo_state eq_refl) as [_ Hd].
    destruct (Hd k) as [_ (_ & _ & Hn & _)].
    + cbn. intros Hin. apply elem_of_cons in Hin as [?|Hin]; [done|].
      by apply list_elem_of_singleton in Hin.
    + rewrite Hn in Hk. done.
  - lia.
  - lia.
  - lia.
  - reflexivity.
  - reflexivity.
  - reflexivity.
Defined.

(** ** Cameras without distortion *)

(** X11. In the parser that [Parser.__init__] returns, a camera whose
    distortion parameters are empty is skipped by the undistortion loop:
    it has no table and no region of interest, its mask is [None], and
    its intrinsics and size are the recorded ones after division by
    [factor] and reconciliation by the two ratios of the parser: the
    actual image size (divided by [factor]) over the size recorded for
    the camera at the head of [camera_ids]. *)
Theorem undistorted_cameras_skipped
    (cv2_getOptimalNewCameraMatrix :
       matrix → list Qc → Z * Z → matrix * (Z * Z * Z * Z))
    (cv2_initUndistortRectifyMap :
       matrix → list Qc → matrix → Z * Z → matrix * matrix)
    (cameras : gmap Z Camera) (imdata : list Image) (loading : Loading)
    (png_dirs : list string) (actual_shape : Z * Z) (f : Z) (p : Parser) :
  Parser_init cv2_getOptimalNewCameraMatrix cv2_initUndistortRectifyMap
    cameras imdata loading png_dirs actual_shape f = Ok p →
  ∃ camera_id0 cam0,
    let s_width :=
      (Qc_of_Z (actual_shape.2 / f) / Qc_of_Z (cam_width cam0 / f))%Qc in
    let s_height :=
      (Qc_of_Z (actual_shape.1 / f) / Qc_of_Z (cam_height cam0 / f))%Qc in
    head (camera_ids p) = Some camera_id0
    ∧ cameras !! camera_id0 = Some cam0
    ∧ ∀ id, params_dict p !! id = Some [] →
        mapx_dict p !! id = None
        ∧ mapy_dict p !! id = None
        ∧ roi_undist_dict p !! id = None
        ∧ mask_dict p !! id = Some None
        ∧ ∃ cam,
            cameras !! id = Some cam
            ∧ Ks_dict p !! id
              = Some (scale_rows s_width s_height (intrinsics cam f))
            ∧ imsize_dict p !! id
              = Some (scale_size s_width s_height
                        (cam_width cam / f, cam_height cam / f)).
Proof.
  intros H.
  apply Parser_init_reconciled in H
    as (st & id0 & cw & ch & pre & Hst & _ & Hhead & Hsz & _ & _ & Hpar
        & Hmask & Hmx & Hmy & Hroi & Hu & Hall).
  pose proof (parse_images_inv _ _ _ _ _ (parse_init_inv cameras f) Hst)
    as Hinv.
  destruct (parse_images_tables_from _ _ _ _ _ Hst) as [_ Hd].
  assert (Hcam0 : ∃ cam0, cameras !! id0 = Some cam0
            ∧ cw = cam_width cam0 / f ∧ ch = cam_height cam0 / f).
  { assert (Hin : id0 ∈ im_camera_id <$> imdata).
    { destruct (decide (id0 ∈ im_camera_id <$> imdata)) as [|Hn]; [done|].
      destruct (Hd id0) as [_ (_ & _ & Hn' & _)]; [done|].
      rewrite Hn' in Hsz. done. }
    destruct (Hd id0) as [([K HK] & _) _]; [done|].
    destruct (Hinv id0) as (_ & HKs & _).
    destruct (HKs K HK) as (cam0 & Hc & _ & Hs0).
    rewrite Hsz in Hs0. injection Hs0 as -> ->. by exists cam0. }
  destruct Hcam0 as (cam0 & Hc0 & -> & ->).
  exists id0, cam0. cbn zeta. split; [done|]. split; [done|].
  intros id Hid.
  destruct (undistort_all_entries _ _ _ _ _ Hu) as (Hpar' & _ & Hent).
  rewrite Hpar' in Hid.
  specialize (Hent id). rewrite Hid in Hent.
  destruct Hent as (HK & Hims & Hm & Hx & Hy & Hr).
  rewrite Hx, Hy, Hr, HK, Hims, Hm, Hmx, Hmy, Hroi, Hmask, !lookup_empty.
  assert (Hin : id ∈ im_camera_id <$> imdata).
  { destruct (decide (id ∈ im_camera_id <$> imdata)) as [|Hn]; [done|].
    destruct (Hd id) as [_ (_ & Hn' & _)]; [done|].
    rewrite Hpar, Hn' in Hid. done. }
  destruct (Hd id) as [([K HK'] & _ & _ & Hmask') _]; [done|].
  destruct (Hall id K HK') as (cam & Hcam & -> & _ & HKs & Hsize).
  split_and!; try done. by exists cam.
Qed.

Lemma undistorted_cameras_skipped_witness :
  ∃ p, Parser_init identity_getOptimalNewCameraMatrix
         identity_initUndistortRectifyMap demo_cameras demo_images
         demo_loading demo_png_dirs (1440, 2560) 1 = Ok p
       ∧ mapx_dict p !! 2 = None
       ∧ mask_dict p !! 2 = Some None
       ∧ imsize_dict p !! 2 = Some (2560, 1440).
Proof.
  destruct (Parser_init identity_getOptimalNewCameraMatrix
              identity_initUndistortRectifyMap demo_cameras demo_images
              demo_loading demo_png_dirs (1440, 2560) 1) as [p|e] eqn:Hp;
    [|vm_compute in Hp; discriminate Hp].
  destruct (undistorted_cameras_skipped _ _ _ _ _ _ _ _ _ Hp)
    as (id0 & cam0 & Hhead & Hcam0 & Hall).
  assert (Hpar : params_dict p !! 2 = Some []).
  { vm_compute in Hp. injection Hp as <-. vm_compute. reflexivity. }
  assert (id0 = 1) as ->.
  { vm_compute in Hp. injection Hp as <-. vm_compute in Hhead. congruence. }
  assert (cam0 = demo_camera 1 (Qc_of_Z 1000) 0%Qc) as ->.
  { vm_compute in Hcam0. by injection Hcam0 as <-. }
  destruct (Hall 2 Hpar) as (Hx & _ & _ & Hm & cam & Hcam & _ & Hsize).
  assert (cam = demo_camera 1 (Qc_of_Z 1200) 0%Qc) as ->.
  { vm_compute in Hcam. by injection Hcam as <-. }
  exists p. split; [reflexivity|]. split; [exact Hx|]. split; [exact Hm|].
  rewrite Hsize. vm_compute. reflexivity.
Defined.

(** ** Fisheye branch: when it stops, and where the region lies *)

Lemma undistort_fisheye_unfold K params width height :
  undistort_fisheye K params width height
  = fisheye_roi K width height
      (fisheye_maps K params width height).1
      (fisheye_maps K params width height).2.
Proof.
  unfold undistort_fisheye.
  by destruct (fisheye_maps K params width height).
Qed.




Lemma fisheye_mask_shape K params width height :
  let mask := fisheye_mask width height
                (fisheye_maps K params width height).1
                (fisheye_maps K params width height).2 in
  length mask = Z.to_nat height
  ∧ Forall (λ row, length row = Z.to_nat width) mask.
Proof.
  cbn zeta. unfold fisheye_mask, fisheye_maps. cbn [fst snd]. split.
  - rewrite length_zip_with, !length_fmap, length_seqZ. lia.
  - apply Forall_lookup. intros i row Hrow.
    apply lookup_zip_with_Some in Hrow as (rx & ry & -> & Hrx & Hry).
    apply list_lookup_fmap_Some in Hrx as (y & -> & _).
    apply list_lookup_fmap_Some in Hry as (y' & -> & _).
    rewrite length_zip_with, !length_fmap, length_seqZ. lia.
Qed.

Lemma length_slice {A} (a b : nat) (l : list A) :
  (b ≤ length l)%nat → length (slice a b l) = (b - a)%nat.
Proof. intros Hb. unfold slice. rewrite length_take, length_drop. lia. Qed.

(** X13. When the fisheye branch returns, the region of interest
    [(x, y, w, h)] is a non-empty rectangle inside the image, and the
    stored mask has exactly the region's shape: [h] rows of [w] entries,
    so it lines up with the image cropped to the region. *)
Theorem fisheye_roi_inside_image (K : matrix) (params : list Qc)
    (width height : Z) (u : Undist) :
  undistort_fisheye K params width height = Ok u →
  ∃ x y w h mask,
    u_roi u = (x, y, w, h)
    ∧ u_mask u = Some mask
    ∧ 0 ≤ x ∧ 0 ≤ y ∧ 0 < w ∧ 0 < h
    ∧ x + w ≤ width ∧ y + h ≤ height
    ∧ Z.of_nat (length mask) = h
    ∧ Forall (λ row, Z.of_nat (length row) = w) mask.
Proof.
  rewrite undistort_fisheye_unfold. intros Hu.
  apply fisheye_roi_spec in Hu
    as (x & y & w & h & Hroi & Hx & Hy & Hw & Hh & _ & _ & _ & Hmask
        & _ & _ & (i & Hright) & _ & (j & Hbottom)).
  apply valid_pixel_mask in Hright as (_ & Hright & _).
  apply valid_pixel_mask in Hbottom as (Hbottom & _).
  destruct (fisheye_mask_shape K params width height) as [Hrows Hcols].
  cbn zeta in Hrows, Hcols.
  set (full := fisheye_mask _ _ _ _) in *.
  exists x, y, w, h, (crop y (y + h) x (x + w) full).
  split_and!; try done; try lia.
  - unfold crop. rewrite length_fmap, length_slice by lia. lia.
  - unfold crop. apply Forall_fmap, Forall_forall. intros row Hrow.
    assert (Hfull : row ∈ full).
    { unfold slice in Hrow.
      by eapply subseteq_drop, subseteq_take. }
    rewrite Forall_forall in Hcols. cbn.
    rewrite length_slice by (rewrite (Hcols row Hfull); lia). lia.
Qed.

Lemma fisheye_roi_inside_image_witness :
  ∃ x y w h, x + w ≤ 5 ∧ y + h ≤ 5
    ∧ (u_roi <$> undistort_fisheye demo_fisheye_K demo_fisheye_params 5 5)
      = Ok (x, y, w, h).
Proof.
  destruct (undistort_fisheye demo_fisheye_K demo_fisheye_params 5 5)
    as [u|e] eqn:Hu; [|vm_compute in Hu; discriminate Hu].
  destruct (fisheye_roi_inside_image _ _ _ _ _ Hu)
    as (x & y & w & h & mask & Hroi & _ & _ & _ & _ & _ & Hxw & Hyh & _).
  exists x, y, w, h. cbn. rewrite Hroi. by split_and!.
Defined.

(** ** Reconstruction driver *)

Lemma move_files_spec folder files :
  ∃ t, move_files folder files = (t, inr ())
       ∧ commands_run t = []
       ∧ moves_done t
         = (λ file, (os_path_join folder ["sparse"; file],
                     os_path_join folder ["sparse"; "0"; file]))
             <$> filter (λ file, file ≠ "0") files.
Proof.
  induction files as [|file rest (t & IH & Hc & Hm)].
  - by exists [].
  - cbn [move_files]. rewrite IH, filter_cons.
    destruct (decide (file = "0")) as [->|Hne].
    + exists t. rewrite decide_False by (by intros []). done.
    + exists (move_to_sparse_0 folder file :: t).
      rewrite decide_True by done. split; [done|].
      unfold commands_run, moves_done in *.
      unfold move_to_sparse_0. cbn [omap list_omap fmap list_fmap].
      by rewrite Hc, Hm.
Qed.

Section DriverProofs.
Variable os_path_exists : string → bool.
Variable os_system : string → Z.
Variable os_listdir : string → option (list string).

Lemma run_checked_spec cmd :
  run_checked os_system cmd
  = ([System cmd],
     if decide (os_system cmd = 0) then inr ()
     else inl (SystemExit (os_system cmd))).
Proof.
  unfold run_checked. cbn.
  destruct (decide (os_system cmd ≠ 0)), (decide (os_system cmd = 0));
    done.
Qed.

Lemma ensure_dir_spec path :
  ∃ t, ensure_dir os_path_exists path = (t, inr ())
       ∧ commands_run t = [] ∧ moves_done t = [].
Proof.
  unfold ensure_dir. destruct (os_path_exists path).
  - by exists [].
  - by exists [Makedirs path].
Qed.
End DriverProofs.

(** X14. The reconstruction driver runs nothing when the project folder
    is missing (the assertion fails first).  Otherwise it runs the five
    shell commands in their fixed order and stops at the first one whose
    exit status is not 0, leaving with that status and running no later
    command and no move.  Only when all five return 0 does it list
    [sparse/]; it then moves every listed entry except ['0'] into
    [sparse/0/], in listing order, and nothing else. *)
Theorem getcolmapsinglen3d_trace (os_path_exists : string → bool)
    (os_system : string → Z) (os_listdir : string → option (list string))
    (root : string) (offset : Z) :
  let folder := os_path_join root ["colmap_" +:+ py_str offset] in
  let cmds := colmap_commands folder in
  let run :=
    getcolmapsinglen3d os_path_exists os_system os_listdir root offset in
  (os_path_exists folder = false → run = ([], inl AssertFailed))
  ∧ (os_path_exists folder = true →
     (∀ k c, cmds !! k = Some c → os_system c ≠ 0 →
        (∀ j c', (j < k)%nat → cmds !! j = Some c' → os_system c' = 0) →
        commands_run run.1 = take (S k) cmds
        ∧ run.2 = inl (SystemExit (os_system c))
        ∧ moves_done run.1 = [])
     ∧ ((∀ c, c ∈ cmds → os_system c = 0) →
        commands_run run.1 = cmds
        ∧ match os_listdir (folder +:+ "/sparse") with
          | None => run.2 = inl FileNotFound ∧ moves_done run.1 = []
          | Some files =>
              run.2 = inr ()
              ∧ moves_done run.1
                = (λ file, (os_path_join folder ["sparse"; file],
                            os_path_join folder ["sparse"; "0"; file]))
                    <$> filter (λ file, file ≠ "0") files
          end)).
Proof.
  cbn zeta. unfold getcolmapsinglen3d, colmap_commands.
  set (folder := os_path_join root _). clearbody folder.
  destruct (os_path_exists folder) eqn:Hex; cbn [negb]; [|by split].
  split; [done|]. intros _.
  destruct (ensure_dir_spec os_path_exists (os_path_join folder ["tmp"]))
    as (t1 & -> & Hc1 & Hm1).
  destruct (ensure_dir_spec os_path_exists
              (os_path_join folder ["distorted/sparse"]))
    as (t2 & -> & Hc2 & Hm2).
  rewrite !run_checked_spec.
  generalize (featureextract folder) (featurematcher folder)
    (triandmap folder) (img_undist_cmd folder) (removeinput folder).
  intros c1 c2 c3 c4 c5.
  assert (Happ : ∀ t t', commands_run (t ++ t')
                         = commands_run t ++ commands_run t')
    by (intros; apply omap_app).
  assert (Happ' : ∀ t t', moves_done (t ++ t') = moves_done t ++ moves_done t')
    by (intros; apply omap_app).
  split.
  - intros k c Hk Hc Hbefore.
    assert (H1 : (0 < k)%nat → os_system c1 = 0)
      by (intros; by apply (Hbefore 0%nat)).
    assert (H2 : (1 < k)%nat → os_system c2 = 0)
      by (intros; by apply (Hbefore 1%nat)).
    assert (H3 : (2 < k)%nat → os_system c3 = 0)
      by (intros; by apply (Hbefore 2%nat)).
    assert (H4 : (3 < k)%nat → os_system c4 = 0)
      by (intros; by apply (Hbefore 3%nat)).
    destruct k as [|[|[|[|[|k]]]]]; [| | | | |done];
      injection Hk as ->;
      rewrite ?H1, ?H2, ?H3, ?H4 by lia;
      rewrite (decide_False (P := os_system c = 0)) by done;
      rewrite ?(decide_True (P := 0 = 0)) by done;
      cbn -[commands_run moves_done];
      rewrite !Happ, !Happ', Hc1, Hc2, Hm1, Hm2; done.
  - intros Hall.
    rewrite (Hall c1), (Hall c2), (Hall c3), (Hall c4), (Hall c5)
      by set_solver.
    rewrite !(decide_True (P := 0 = 0)) by done. unfold listdir.
    destruct (os_listdir (folder +:+ "/sparse")) as [files|].
    + destruct (move_files_spec folder files) as (t & Ht & Hc & Hm).
      cbn -[commands_run moves_done move_files]. rewrite Ht.
      cbn -[commands_run moves_done].
      rewrite !Happ, !Happ', Hc1, Hc2, Hm1, Hm2.
      change (System c1 :: System c2 :: System c3 :: System c4
              :: System c5 :: Makedirs (folder +:+ "/sparse/0") :: t)
        with ([System c1; System c2; System c3; System c4; System c5;
               Makedirs (folder +:+ "/sparse/0")] ++ t).
      rewrite !Happ, !Happ', Hc, Hm. done.
    + cbn -[commands_run moves_done].
      rewrite !Happ, !Happ', Hc1, Hc2, Hm1, Hm2. done.
Qed.

Lemma getcolmapsinglen3d_trace_witness :
  let run := getcolmapsinglen3d (λ _, true)
               (λ c, if decide (c = featurematcher "scene/colmap_60")
                     then 256 else 0)
               (λ _, Some []) "scene" 60 in
  commands_run run.1
  = [featureextract "scene/colmap_60"; featurematcher "scene/colmap_60"]
  ∧ run.2 = inl (SystemExit 256).
Proof.
  destruct (getcolmapsinglen3d_trace (λ _, true)
              (λ c, if decide (c = featurematcher "scene/colmap_60")
                    then 256 else 0)
              (λ _, Some []) "scene" 60) as [_ H].
  destruct (H eq_refl) as [Hfail _].
  destruct (Hfail 1%nat (featurematcher "scene/colmap_60"))
    as (Hc & Hr & _).
  - reflexivity.
  - vm_compute. discriminate.
  - intros j c' Hj Hc'. destruct j as [|j]; [|lia].
    injection Hc' as <-. vm_compute. reflexivity.
  - split; [exact Hc | exact Hr].
Defined.

(** ** Pose converter: the axis remapping undoes itself *)

Lemma inversestep1_cons {F} (fneg : F → F) (row : list (list F))
    (a : list (list (list F))) :
  inversestep1 fneg (row :: a)
  = (slice 1 2 row ++ slice 0 1 row
       ++ ((λ col : list F, fneg <$> col) <$> slice 2 3 row)
       ++ slice 3 4 row ++ slice 4 5 row)
    :: inversestep1 fneg a.
Proof. done. Qed.

(** X15. On an array of shape [(R, 5, N)] the first step is its own
    inverse whenever negation is an involution: swapping the first two
    columns twice and negating the third twice gives the array back. *)
Theorem inversestep1_involutive {F} (fneg : F → F)
    (newposes : list (list (list F))) :
  (∀ x, fneg (fneg x) = x) →
  Forall (λ row, length row = 5%nat) newposes →
  inversestep1 fneg (inversestep1 fneg newposes) = newposes.
Proof.
  intros Hneg Hshape. induction Hshape as [|row a Hrow _ IH]; [done|].
  rewrite !inversestep1_cons, IH. f_equal.
  destruct row as [|c0 [|c1 [|c2 [|c3 [|c4 [|]]]]]]; try done. cbn.
  do 3 f_equal.
  rewrite <-list_fmap_compose. rewrite <-(list_fmap_id c2) at 2.
  apply list_fmap_ext. intros _ x _. cbn. apply Hneg.
Qed.

Lemma inversestep1_involutive_witness :
  let poses := transpose_120 0%Qc [demo_pose] in
  inversestep1 Qcopp (inversestep1 Qcopp poses) = poses.
Proof.
  apply (inversestep1_involutive Qcopp (transpose_120 0%Qc [demo_pose])).
  - intros x. ring.
  - vm_compute. repeat constructor.
Defined.

(** ** Rotation to quaternion: the sign is fixed by the code *)

Lemma Qcmult_minus_one (v : Qc) : (v * Qc_of_Z (-1))%Qc = (- v)%Qc.
Proof.
  change (Qc_of_Z (-1)) with (Qc_of_Z (- (1))).
  rewrite Z2Qc_inj_opp, Z2Qc_inj_1. ring.
Qed.

(** X16. The sign flip makes the quaternion independent of the sign the
    eigen-solver happens to return: two solvers that agree on the
    eigenvalues and return opposite eigenvectors for the largest one give
    the same quaternion, provided the scalar component is not 0.  (With a
    zero scalar component the vector is returned as the solver gave
    it.) *)
Theorem rotmat2qvec_sign_independent
    (linalg_eigh linalg_eigh' : matrix → list Qc * matrix) (R : matrix) :
  let c := np_argmax (linalg_eigh (eigen_matrix R)).1 in
  let vecs := (linalg_eigh (eigen_matrix R)).2 in
  let vecs' := (linalg_eigh' (eigen_matrix R)).2 in
  (linalg_eigh' (eigen_matrix R)).1 = (linalg_eigh (eigen_matrix R)).1 →
  (∀ r, (r < 4)%nat →
        default 0%Qc (at2 vecs' r c) = (- default 0%Qc (at2 vecs r c))%Qc) →
  default 0%Qc (at2 vecs 3 c) ≠ 0%Qc →
  rotmat2qvec linalg_eigh' R = rotmat2qvec linalg_eigh R.
Proof.
  cbn zeta. unfold rotmat2qvec.
  destruct (linalg_eigh (eigen_matrix R)) as [vals vecs].
  destruct (linalg_eigh' (eigen_matrix R)) as [vals' vecs'].
  cbn [fst snd]. intros -> Hopp Hw.
  cbn [fmap list_fmap lookup list_lookup default].
  rewrite !Hopp by lia.
  set (c := np_argmax vals) in *.
  set (w := default 0%Qc (at2 vecs 3 c)) in *.
  set (x := default 0%Qc (at2 vecs 0 c)).
  set (y := default 0%Qc (at2 vecs 1 c)).
  set (z := default 0%Qc (at2 vecs 2 c)).
  destruct (decide (w < 0)%Qc) as [Hneg|Hpos].
  - rewrite decide_False.
    + cbn. rewrite !Qcmult_minus_one. by case_decide.
    + intros Hlt. unfold id in Hlt.
      pose proof (Qcopp_le_compat _ _ (Qclt_le_weak _ _ Hlt)) as H.
      replace (- - w)%Qc with w in H by ring.
      replace (- 0)%Qc with 0%Qc in H by ring.
      exact (Qclt_not_le _ _ Hneg H).
  - rewrite decide_True.
    + cbn. rewrite !Qcmult_minus_one.
      replace (- - w)%Qc with w by ring.
      replace (- - x)%Qc with x by ring.
      replace (- - y)%Qc with y by ring.
      replace (- - z)%Qc with z by ring.
      by case_decide.
    + apply Qcnot_lt_le in Hpos. apply Qcnot_le_lt. intros Hle.
      unfold id in Hle.
      pose proof (Qcopp_le_compat _ _ Hle) as H.
      replace (- - w)%Qc with w in H by ring.
      replace (- 0)%Qc with 0%Qc in H by ring.
      apply Hw. by apply Qcle_antisym.
Qed.

Lemma rotmat2qvec_sign_independent_witness :
  let vecs : matrix := [ [0]; [0]; [0]; [1] ]%Qc in
  let vecs' : matrix := [ [0]; [0]; [0]; [-(1)] ]%Qc in
  rotmat2qvec (λ _, ([1%Qc], vecs')) (identity_matrix 3)
  = rotmat2qvec (λ _, ([1%Qc], vecs)) (identity_matrix 3).
Proof.
  cbn zeta.
  apply (rotmat2qvec_sign_independent
           (λ _, ([1%Qc], [ [0]; [0]; [0]; [1] ]%Qc))
           (λ _, ([1%Qc], [ [0]; [0]; [0]; [-(1)] ]%Qc))
           (identity_matrix 3)).
  - reflexivity.
  - intros r Hr.
    destruct r as [|[|[|[|r]]]]; [| | | |lia];
      apply Qc_is_canon; reflexivity.
  - intros H. discriminate H.
Defined.

(** ** Numbered file names *)

Lemma string_all_app P s t :
  string_all P (s +:+ t) = string_all P s && string_all P t.
Proof.
  induction s as [|c s IH]; [done|].
  change (String c s +:+ t) with (String c (s +:+ t)).
  cbn. by rewrite IH, andb_assoc.
Qed.

Lemma string_length_app s t :
  String.length (s +:+ t) = (String.length s + String.length t)%nat.
Proof.
  induction s as [|c s IH]; [done|].
  change (String c s +:+ t) with (String c (s +:+ t)). cbn. by rewrite IH.
Qed.

Lemma string_app_assoc (s t u : string) : (s +:+ t) +:+ u = s +:+ (t +:+ u).
Proof.
  induction s as [|c s IH]; [done|].
  change (String c s +:+ t) with (String c (s +:+ t)).
  change (String c (s +:+ t) +:+ u) with (String c ((s +:+ t) +:+ u)).
  by rewrite IH.
Qed.

Lemma pretty_N_char_digit x : is_digit (pretty_N_char x) = true.
Proof. unfold pretty_N_char. by repeat case_match. Qed.

Lemma pretty_N_go_digits x s :
  string_all is_digit s = true →
  string_all is_digit (pretty_N_go x s) = true.
Proof.
  revert s. induction (N.lt_wf_0 x) as [x _ IH]. intros s Hs.
  destruct (decide (x = 0)%N) as [->|Hx]; [by rewrite pretty_N_go_0|].
  rewrite pretty_N_go_step by lia. apply IH.
  - apply N.div_lt; lia.
  - cbn. by rewrite pretty_N_char_digit, Hs.
Qed.

(** The first digit of a positive number is not a zero. *)
Lemma pretty_N_go_leading x s :
  (0 < x)%N → ∃ c t, pretty_N_go x s = String c t ∧ c ≠ "0"%char.
Proof.
  revert s. induction (N.lt_wf_0 x) as [x _ IH]. intros s Hx.
  rewrite pretty_N_go_step by done.
  destruct (decide (x < 10)%N) as [Hlt|Hge].
  - rewrite N.div_small, pretty_N_go_0, N.mod_small by done.
    eexists _, _. split; [done|].
    assert (x = 1 ∨ x = 2 ∨ x = 3 ∨ x = 4 ∨ x = 5 ∨ x = 6
            ∨ x = 7 ∨ x = 8 ∨ x = 9)%N as Hcases by lia.
    by repeat (destruct Hcases as [->|Hcases]; [done|]); subst.
  - apply IH.
    + apply N.div_lt; lia.
    + apply N.div_str_pos; lia.
Qed.

Lemma py_str_numeral n : 0 ≤ n → numeral (py_str n).
Proof.
  intros Hn. unfold py_str, pretty, pretty_Z.
  destruct n as [|p|p]; [|clear Hn|lia].
  { split; [done|]. split; [done|]. by intros t [= <-]. }
  unfold pretty, pretty_positive, pretty, pretty_N.
  destruct (decide (N.pos p = 0)%N) as [|_]; [done|].
  destruct (pretty_N_go_leading (N.pos p) "" ltac:(lia)) as (c & t & Heq & Hc).
  split; [by apply pretty_N_go_digits|]. rewrite Heq.
  split; [done|]. intros t' [= -> _]. done.
Qed.

Lemma zeros_numeral_inj m n s t :
  numeral s → numeral t →
  zeros m +:+ s = zeros n +:+ t → s = t.
Proof.
  intros (_ & Hs & Hs0) (_ & Ht & Ht0). revert n.
  induction m as [|m IH]; intros [|n] Heq; cbn in Heq.
  - done.
  - change (String "0" (zeros n) +:+ t)
      with (String "0" (zeros n +:+ t)) in Heq.
    pose proof (Hs0 _ Heq) as Hnil.
    destruct n, t; cbn in Hnil; done.
  - change (String "0" (zeros m) +:+ s)
      with (String "0" (zeros m +:+ s)) in Heq.
    symmetry in Heq. pose proof (Ht0 _ Heq) as Hnil.
    destruct m, s; cbn in Hnil; done.
  - change (String "0" (zeros m) +:+ s)
      with (String "0" (zeros m +:+ s)) in Heq.
    change (String "0" (zeros n) +:+ t)
      with (String "0" (zeros n +:+ t)) in Heq.
    injection Heq as Heq. by apply (IH n).
Qed.

Lemma zeros_numeral_first m s :
  numeral s → ∃ c t, zeros m +:+ s = String c t ∧ is_digit c = true.
Proof.
  intros (Hd & Hs & _). destruct m as [|m].
  - destruct s as [|c s]; [done|]. cbn in Hd.
    apply andb_true_iff in Hd as [Hc _]. by exists c, s.
  - by eexists _, _.
Qed.

Lemma format_0d_inj w a b : format_0d w a = format_0d w b → a = b.
Proof.
  unfold format_0d.
  destruct (decide (a < 0)) as [Ha|Ha], (decide (b < 0)) as [Hb|Hb];
    cbn zeta; intros Heq.
  - change ("-" +:+ ?s) with (String "-" s) in Heq.
    injection Heq as Heq.
    apply zeros_numeral_inj in Heq; [|apply py_str_numeral; lia..].
    apply (inj pretty) in Heq. lia.
  - exfalso.
    destruct (zeros_numeral_first (w - String.length (py_str b)) (py_str b))
      as (c & t & Hct & Hc); [apply py_str_numeral; lia|].
    rewrite Hct in Heq. by injection Heq as <- _.
  - exfalso.
    destruct (zeros_numeral_first (w - String.length (py_str a)) (py_str a))
      as (c & t & Hct & Hc); [apply py_str_numeral; lia|].
    rewrite Hct in Heq. by injection Heq as -> _.
  - apply zeros_numeral_inj in Heq; [|apply py_str_numeral; lia..].
    by apply (inj pretty) in Heq.
Qed.

(** ** Paths *)

Lemma os_path_join_app a l1 l2 :
  os_path_join (os_path_join a l1) l2 = os_path_join a (l1 ++ l2).
Proof. unfold os_path_join. by rewrite foldl_app. Qed.

Lemma path_join2_relative path b :
  starts_with_sep b = false → path_join2 path b = dir_prefix path +:+ b.
Proof.
  intros Hb. unfold path_join2, dir_prefix. rewrite Hb.
  destruct (bool_decide (path = "") || ends_with_sep path); [done|].
  by rewrite string_app_assoc.
Qed.

Lemma ends_with_sep_app a b :
  b ≠ "" → ends_with_sep (a +:+ b) = ends_with_sep b.
Proof.
  intros Hb. induction a as [|c a IH]; [done|].
  change (String c a +:+ b) with (String c (a +:+ b)).
  cbn [ends_with_sep]. rewrite IH.
  destruct (a +:+ b) eqn:Hab; [|done].
  destruct a, b; done.
Qed.

Lemma string_all_impl (P Q : ascii → bool) s :
  (∀ c, P c = true → Q c = true) →
  string_all P s = true → string_all Q s = true.
Proof.
  intros HPQ. induction s as [|c s IH]; [done|]. cbn.
  rewrite !andb_true_iff. intros [Hc Hs]. auto.
Qed.

Lemma no_sep_ends s : no_sep s = true → ends_with_sep s = false.
Proof.
  unfold no_sep. induction s as [|c s IH]; [done|]. cbn.
  rewrite andb_true_iff, negb_true_iff. intros [Hc Hs].
  destruct s; [done|]. by apply IH.
Qed.

Lemma py_str_no_sep n : no_sep (py_str n) = true ∧ py_str n ≠ "".
Proof.
  assert (Hpos : ∀ m, 0 ≤ m → no_sep (py_str m) = true ∧ py_str m ≠ "").
  { intros m Hm. destruct (py_str_numeral m Hm) as (Hd & Hne & _).
    split; [|done]. revert Hd. apply string_all_impl.
    intros c. unfold is_digit. rewrite bool_decide_eq_true, negb_true_iff.
    rewrite bool_decide_eq_false. intros Hc ->.
    repeat (apply elem_of_cons in Hc as [Hc|Hc]; [discriminate Hc|]).
    by apply elem_of_nil in Hc. }
  destruct (decide (0 ≤ n)) as [Hn|Hn]; [by apply Hpos|].
  destruct n as [|p|p]; [lia|lia|].
  destruct (Hpos (Z.pos p) ltac:(lia)) as [Hs _].
  unfold py_str, pretty, pretty_Z.
  change ("-" +:+ ?s) with (String "-" s). split; [|done].
  unfold no_sep. cbn. exact Hs.
Qed.

(** The first separator of a string splits it in one way only. *)
Lemma string_split_sep s1 t1 s2 t2 :
  no_sep s1 = true → no_sep s2 = true →
  s1 +:+ String "/" t1 = s2 +:+ String "/" t2 → s1 = s2 ∧ t1 = t2.
Proof.
  unfold no_sep. revert s2.
  induction s1 as [|c s1 IH]; intros [|c' s2] H1 H2 Heq; cbn in *.
  - by injection Heq as ->.
  - change (String c' s2 +:+ ?t) with (String c' (s2 +:+ t)) in Heq.
    injection Heq as <- _. done.
  - change (String c s1 +:+ ?t) with (String c (s1 +:+ t)) in Heq.
    injection Heq as -> _. done.
  - change (String c s1 +:+ ?t) with (String c (s1 +:+ t)) in Heq.
    change (String c' s2 +:+ ?t) with (String c' (s2 +:+ t)) in Heq.
    injection Heq as -> Heq.
    apply andb_true_iff in H1 as [_ H1]. apply andb_true_iff in H2 as [_ H2].
    destruct (IH s2 H1 H2 Heq) as [-> ->]. done.
Qed.

Lemma string_app_inj_r s a b : a +:+ s = b +:+ s → a = b.
Proof.
  revert b. induction a as [|c a IH]; intros [|c' b] Heq.
  - done.
  - apply (f_equal String.length) in Heq.
    rewrite !string_length_app in Heq. cbn in Heq. lia.
  - apply (f_equal String.length) in Heq.
    rewrite !string_length_app in Heq. cbn in Heq. lia.
  - change (String c a +:+ s) with (String c (a +:+ s)) in Heq.
    change (String c' b +:+ s) with (String c' (b +:+ s)) in Heq.
    injection Heq as -> Heq. by rewrite (IH b Heq).
Qed.

(** The destination of a staged image, spelled out: a prefix that
    depends on the scene only, then the project folder of the key frame
    and the numbered camera file. *)
Lemma stage_destination root_dir folder_name frame (ind : nat) :
  path_join2
    (path_join2
       (path_join2 (path_join2 root_dir folder_name)
          ("colmap_" +:+ py_str frame))
       "input")
    ("cam" +:+ format_0d 2 (Z.of_nat ind) +:+ ".png")
  = (dir_prefix (path_join2 root_dir folder_name) +:+ "colmap_")
    +:+ (py_str frame
         +:+ String "/" ("input/cam"
                         +:+ (format_0d 2 (Z.of_nat ind) +:+ ".png"))).
Proof.
  set (Q := path_join2 root_dir folder_name).
  destruct (py_str_no_sep frame) as [Hns Hne].
  rewrite (path_join2_relative Q) by done.
  set (X := dir_prefix Q +:+ "colmap_" +:+ py_str frame).
  assert (HX : ends_with_sep X = false).
  { unfold X. rewrite <-string_app_assoc.
    rewrite ends_with_sep_app by done. by apply no_sep_ends. }
  assert (HXne : X ≠ "").
  { unfold X. intros HX0. apply (f_equal String.length) in HX0.
    rewrite !string_length_app in HX0. cbn in HX0. lia. }
  rewrite (path_join2_relative X) by done.
  assert (HdX : dir_prefix X = X +:+ "/").
  { unfold dir_prefix. rewrite HX, bool_decide_eq_false_2 by done. done. }
  rewrite HdX.
  set (Y := (X +:+ "/") +:+ "input").
  assert (HdY : dir_prefix Y = Y +:+ "/").
  { unfold dir_prefix, Y.
    rewrite ends_with_sep_app by done.
    rewrite bool_decide_eq_false_2; [done|].
    intros HY0. apply (f_equal String.length) in HY0.
    rewrite !string_length_app in HY0. cbn in HY0. lia. }
  rewrite (path_join2_relative Y) by done. rewrite HdY.
  unfold Y, X. rewrite !string_app_assoc. done.
Qed.

(** X17. Staging never overwrites: over all key frames of the plan (GOP
    size positive) and all cameras, the copy destinations
    [colmap_<frame>/input/cam<ind>.png] are pairwise distinct, and each
    key frame gets one copy per camera. *)
Theorem staging_never_overwrites (root_dir folder_name : string)
    (camera_names : list string) (S E G : Z) (ks : list Z) :
  0 < G →
  frame_list S E G = Ok ks →
  NoDup (ks ≫= λ frame,
           (stage_copies root_dir folder_name camera_names frame).*2)
  ∧ ∀ frame,
      length (stage_copies root_dir folder_name camera_names frame)
      = length camera_names.
Proof.
  intros HG Hks. rewrite frame_list_Ok in Hks by done. injection Hks as <-.
  split; [|intros; apply length_imap].
  assert (Hdest : ∀ frame d,
    d ∈ (stage_copies root_dir folder_name camera_names frame).*2 →
    ∃ ind : nat,
      d = (dir_prefix (path_join2 root_dir folder_name) +:+ "colmap_")
          +:+ (py_str frame
               +:+ String "/" ("input/cam"
                     +:+ (format_0d 2 (Z.of_nat ind) +:+ ".png")))).
  { intros frame d ([src d'] & -> & Hin)%list_elem_of_fmap.
    apply elem_of_lookup_imap_1 in Hin as (ind & cam & [= -> ->] & _).
    exists ind. apply stage_destination. }
  apply NoDup_bind.
  - intros f1 f2 d _ _ (i1 & ->)%Hdest (i2 & Heq)%Hdest.
    apply (inj _) in Heq.
    apply string_split_sep in Heq as [Heq _];
      [|apply py_str_no_sep..].
    by apply (inj pretty) in Heq.
  - intros frame _. unfold stage_copies. cbn zeta.
    rewrite fmap_imap. apply NoDup_alt. intros i j d Hi Hj.
    rewrite list_lookup_imap in Hi, Hj.
    destruct (camera_names !! i) as [ci|] eqn:Hci; [|done].
    destruct (camera_names !! j) as [cj|] eqn:Hcj; [|done].
    injection Hi as Hi. injection Hj as Hj. rewrite <-Hj in Hi.
    unfold os_path_join in Hi. cbn [foldl compose snd] in Hi.
    rewrite !stage_destination in Hi.
    apply (inj _) in Hi. apply (inj _) in Hi.
    injection Hi as Hi. apply (inj _) in Hi.
    apply string_app_inj_r in Hi. apply format_0d_inj in Hi. lia.
  - apply NoDup_fmap_2_strong; [|apply NoDup_seqZ].
    intros x y _ _ Hxy. nia.
Qed.

Lemma staging_never_overwrites_witness :
  NoDup ([0; 60; 120; 180; 240] ≫= λ frame,
           (stage_copies "data" "scene" ["cam00"; "cam01"] frame).*2).
Proof.
  apply (staging_never_overwrites "data" "scene" ["cam00"; "cam01"]
           0 300 60 [0; 60; 120; 180; 240]).
  - lia.
  - reflexivity.
Defined.

(** ** The two programs agree on where the files are *)

Lemma filter_all {A} (P : A → Prop) `{!∀ x, Decision (P x)} (l : list A) :
  (∀ x, x ∈ l → P x) → filter P l = l.
Proof.
  induction l as [|x l IH]; intros Hall; [done|].
  rewrite filter_cons, decide_True by (apply Hall; left).
  rewrite IH; [done|]. intros y Hy. apply Hall. by right.
Qed.

(** X18. The image [__getitem__] opens at the first position of a camera
    block is the image the script staged for COLMAP: for a dataset whose
    GOP starts at key frame [start], whose parser lists the same [png]
    folder (holding directories only), a valid position [item] with
    [item mod GOP_size = 0] reads the file that the script copied, for
    the same camera index and key frame [start], into the project's
    [input] folder. *)
Theorem staged_image_is_dataset_image (os_path_isdir : string → bool)
    (root_dir folder_name : string) (listing : list string)
    (p : Parser) (split : string) (start G : Z)
    (test_set : list Z) (remove_set : option (list Z)) (item : Z) :
  let ds := Dataset_init p split start G test_set remove_set in
  let output_path := os_path_join root_dir [folder_name; "png"] in
  let cams := script_camera_names os_path_isdir output_path listing in
  (∀ name, name ∈ listing →
     os_path_isdir (os_path_join output_path [name]) = true) →
  campaths p = Parser_campaths (os_path_join root_dir [folder_name]) listing →
  (length (camera_names p) ≤ length listing)%nat →
  0 ≤ item < Dataset_len ds →
  item mod G = 0 →
  ∃ (cam : nat) (src dst : string),
    Dataset_locate ds item = Ok (Z.of_nat cam, start)
    ∧ stage_copies root_dir folder_name cams start !! cam = Some (src, dst)
    ∧ Dataset_image_path ds item = Ok src.
Proof.
  intros ds output_path cams Hdirs Hpaths Hlen Hitem Hmod.
  destruct (py_getitem_Ok (indices ds) item Hitem) as (g & Hg & _).
  destruct (split_indices_position _ _ _ _ _ _ _ Hg) as (HG & Hrange & _).
  destruct (Dataset_locate_Ok ds item HG Hitem) as (g' & Hg' & Hloc).
  assert (g' = g) as -> by congruence.
  change (GOP_size ds) with G in Hloc. change (start_frame ds) with start in Hloc.
  rewrite Hmod, Z.add_0_r in Hloc.
  destruct (seqZ_div_mod_bijection (length (camera_names p)) G HG)
    as (Hdm & _ & _).
  destruct (Hdm g Hrange) as [Hcam _].
  assert (Hcams : cams = py_sorted listing).
  { unfold cams, script_camera_names. by rewrite filter_all. }
  assert (Hsorted : length (py_sorted listing) = length listing).
  { unfold py_sorted. by rewrite merge_sort_Permutation. }
  destruct (lookup_lt_is_Some_2 (py_sorted listing) (Z.to_nat (g / G)))
    as [name Hname]; [lia|].
  exists (Z.to_nat (g / G)). eexists _, _.
  rewrite Z2Nat.id by lia. split; [done|]. split.
  - rewrite Hcams. unfold stage_copies. cbn zeta.
    rewrite list_lookup_imap, Hname. done.
  - unfold Dataset_image_path. rewrite Hloc. cbn.
    change (parser ds) with p. rewrite Hpaths.
    unfold py_getitem, Parser_campaths.
    destruct (decide (g / G < 0)) as [?|_]; [lia|].
    destruct (decide (g / G < 0)) as [?|_]; [lia|].
    rewrite list_lookup_fmap, Hname. cbn. done.
Qed.

Lemma staged_image_is_dataset_image_witness :
  ∃ src dst,
    stage_copies "data" "scene" ["cam00"; "cam01"] 0 !! 1%nat = Some (src, dst)
    ∧ Dataset_image_path
        (Dataset_init
           {| factor := 1; camera_names := ["cam00.png"; "cam01.png"];
              campaths := ["data/scene/png/cam00"; "data/scene/png/cam01"];
              camera_ids := [1; 2]; Ks_dict := ∅; params_dict := ∅;
              imsize_dict := ∅; mask_dict := ∅; mapx_dict := ∅;
              mapy_dict := ∅; roi_undist_dict := ∅ |}
           "train" 0 50 [0] None) 0 = Ok src.
Proof.
  destruct (staged_image_is_dataset_image (λ _, true) "data" "scene"
              ["cam00"; "cam01"]
              {| factor := 1; camera_names := ["cam00.png"; "cam01.png"];
                 campaths := ["data/scene/png/cam00"; "data/scene/png/cam01"];
                 camera_ids := [1; 2]; Ks_dict := ∅; params_dict := ∅;
                 imsize_dict := ∅; mask_dict := ∅; mapx_dict := ∅;
                 mapy_dict := ∅; roi_undist_dict := ∅ |}
              "train" 0 50 [0] None 0)
    as (cam & src & dst & Hloc & Hstage & Hpath).
  - reflexivity.
  - reflexivity.
  - cbn. lia.
  - vm_compute. split; [intros H; discriminate H | reflexivity].
  - reflexivity.
  - assert (cam = 1%nat) as ->.
    { change (Ok (1, 0) = Ok (Z.of_nat cam, 0)) in Hloc.
      injection Hloc as Hloc. lia. }
    exists src, dst. split; [exact Hstage | exact Hpath].
Defined.

Lemma project_folder_shape data_dir frame :
  let folder := os_path_join data_dir ["colmap_" +:+ py_str frame] in
  folder ≠ "" ∧ ends_with_sep folder = false.
Proof.
  cbn zeta. unfold os_path_join. cbn [foldl].
  destruct (py_str_no_sep frame) as [Hns Hne].
  rewrite path_join2_relative by done. split.
  - intros H0. apply (f_equal String.length) in H0.
    rewrite !string_length_app in H0. cbn in H0. lia.
  - rewrite <-string_app_assoc. rewrite ends_with_sep_app by done.
    by apply no_sep_ends.
Qed.

Lemma path_join2_plain path b :
  path ≠ "" → ends_with_sep path = false → starts_with_sep b = false →
  path_join2 path b = path +:+ "/" +:+ b.
Proof.
  intros Hne Hend Hb. unfold path_join2.
  by rewrite Hb, Hend, bool_decide_eq_false_2.
Qed.

(** X19. What the driver leaves for key frame [frame] is where the parser
    looks first: every file the driver moves ends up directly in
    [<data_dir>/colmap_<frame>/sparse/0/], the directory
    [Parser.__init__] called with [first_frame = frame] picks whenever
    it exists; only when it is missing does the parser fall back to
    [<data_dir>/sparse/0/], and the assertion fails when that is missing
    too. *)
Theorem driver_output_where_parser_looks (os_path_exists : string → bool)
    (data_dir : string) (frame : Z) (file : string) :
  let folder := os_path_join data_dir ["colmap_" +:+ py_str frame] in
  let colmap_dir :=
    os_path_join data_dir ["colmap_" +:+ py_str frame; "sparse/0/"] in
  let fallback := os_path_join data_dir ["sparse/0/"] in
  starts_with_sep file = false →
  (∃ src, move_to_sparse_0 folder file
          = Move src (os_path_join colmap_dir [file]))
  ∧ (os_path_exists colmap_dir = true →
     Parser_colmap_dir os_path_exists data_dir frame = Ok colmap_dir)
  ∧ (os_path_exists colmap_dir = false →
     Parser_colmap_dir os_path_exists data_dir frame
     = if os_path_exists fallback then Ok fallback
       else Raise AssertionError).
Proof.
  intros folder colmap_dir fallback Hfile.
  destruct (project_folder_shape data_dir frame) as [Hne Hend].
  cbn zeta in Hne, Hend.
  split; [|split].
  - eexists. unfold move_to_sparse_0. f_equal.
    unfold colmap_dir, folder, os_path_join in *. cbn [foldl] in *.
    clear folder colmap_dir fallback.
    set (folder := path_join2 data_dir _) in *. clearbody folder.
    rewrite (path_join2_plain folder "sparse") by done.
    rewrite (path_join2_plain folder "sparse/0/") by done.
    assert (H1 : ends_with_sep (folder +:+ "/" +:+ "sparse") = false)
      by (by rewrite ends_with_sep_app).
    assert (H2 : folder +:+ "/" +:+ "sparse" ≠ "").
    { intros H0. apply (f_equal String.length) in H0.
      rewrite !string_length_app in H0. cbn in H0. lia. }
    rewrite (path_join2_plain _ "0") by done.
    rewrite (path_join2_plain _ file); [|..|done].
    + rewrite (path_join2_relative _ file) by done.
      unfold dir_prefix. rewrite (ends_with_sep_app folder) by done.
      cbn [ends_with_sep bool_decide decide_rel orb].
      rewrite orb_true_r. by rewrite !string_app_assoc.
    + intros H0. apply (f_equal String.length) in H0.
      rewrite !string_length_app in H0. cbn in H0. lia.
    + by rewrite ends_with_sep_app.
  - intros Hex. unfold Parser_colmap_dir. fold colmap_dir.
    by rewrite !Hex.
  - intros Hex. unfold Parser_colmap_dir. fold colmap_dir fallback.
    by rewrite Hex.
Qed.

Lemma driver_output_where_parser_looks_witness :
  move_to_sparse_0 "data/scene/colmap_60" "cameras.bin"
  = Move "data/scene/colmap_60/sparse/cameras.bin"
         "data/scene/colmap_60/sparse/0/cameras.bin"
  ∧ Parser_colmap_dir (λ _, true) "data/scene" 60
    = Ok "data/scene/colmap_60/sparse/0/".
Proof.
  destruct (driver_output_where_parser_looks (λ _, true) "data/scene" 60
              "cameras.bin" eq_refl) as ([src Hmove] & Hdir & _).
  split; [|exact (Hdir eq_refl)].
  etrans; [exact Hmove|]. vm_compute in Hmove.
  injection Hmove as <-. reflexivity.
Defined.

(** ** Database conversion *)

Lemma posetow2c_matrcs_mapM {F : Type} (fzero fone : F) (fneg : F → F)
    (linalg_inv : list (list F) → res (list (list F)))
    (poses : list (list (list F))) :
  Forall is_3x5 poses →
  posetow2c_matrcs fzero fone fneg linalg_inv (transpose_120 fzero poses)
  = mapM (world_to_camera fzero fone fneg linalg_inv) poses.
Proof.
  intros Hposes. unfold posetow2c_matrcs, inversestep4.
  rewrite steps_1_2_3_transposed by done.
  assert (Hm : mapM linalg_inv (camera_to_world fzero fone fneg <$> poses)
               = mapM (world_to_camera fzero fone fneg linalg_inv) poses).
  { clear. induction poses as [|P poses IH]; cbn; [done|].
    unfold world_to_camera at 1. by rewrite IH. }
  rewrite Hm.
  destruct (mapM (world_to_camera fzero fone fneg linalg_inv) poses)
    as [ws|e]; cbn; [|done].
  by rewrite seq_lookup_list.
Qed.

Lemma poses_of_bounds_3x5 (poses_bounds : matrix) :
  Forall (λ row, (15 ≤ length row)%nat) poses_bounds →
  Forall is_3x5 (poses_of_bounds poses_bounds).
Proof.
  intros Hrows. unfold poses_of_bounds. apply Forall_fmap.
  eapply Forall_impl; [exact Hrows|]. intros row Hrow. cbn in *.
  split; [done|].
  rewrite !Forall_cons, Forall_nil. cbn beta.
  rewrite !length_take, !length_drop, !length_take. lia.
Qed.

(** X20. The database conversion walks the cameras in the order of the
    pose file and never indexes out of range: when every camera-to-world
    matrix is invertible it yields one image row and one camera row per
    row of [poses_bounds]; the rows of camera [i] (counted from 0) carry
    the image id and camera id [i + 1], the name [cam<i:02d>.png], the
    quaternion and translation of the i-th world-to-camera matrix, and
    the size and focal length of the i-th pose with the principal point
    at half the size rounded down; the names are pairwise distinct.
    When an inversion fails, its error is the conversion's and no row is
    produced. *)
Theorem convert_rows_in_pose_order (linalg_inv : matrix → res matrix)
    (linalg_eigh : matrix → list Qc * matrix) (poses_bounds : matrix) :
  Forall (λ row, (15 ≤ length row)%nat) poses_bounds →
  let poses := poses_of_bounds poses_bounds in
  let w2c := mapM (world_to_camera 0%Qc 1%Qc Qcopp linalg_inv) poses in
  (∀ ws, w2c = Ok ws →
     ∃ rows,
       convert_rows linalg_inv linalg_eigh poses_bounds = Ok rows
       ∧ length rows = length poses_bounds
       ∧ (∀ (i : nat) pose W,
            poses !! i = Some pose → ws !! i = Some W →
            rows !! i
            = Some ({| row_image_id := Z.of_nat i + 1;
                       row_qvec :=
                         rotmat2qvec linalg_eigh (take 3 <$> take 3 W);
                       row_tvec :=
                         (λ row : list Qc, default 0%Qc (row !! 3%nat))
                           <$> take 3 W;
                       row_camera_id := Z.of_nat i + 1;
                       row_name :=
                         ("cam" +:+ format_0d 2 (Z.of_nat i)) +:+ ".png" |},
                    {| crow_camera_id := Z.of_nat i + 1;
                       crow_width := default 0%Qc (at2 pose 1 4);
                       crow_height := default 0%Qc (at2 pose 0 4);
                       crow_params :=
                         [default 0%Qc (at2 pose 2 4);
                          default 0%Qc (at2 pose 2 4);
                          float_half_floor (default 0%Qc (at2 pose 1 4));
                          float_half_floor
                            (default 0%Qc (at2 pose 0 4))] |}))
       ∧ NoDup ((λ r : ImageRow * CameraRow, row_name r.1) <$> rows))
  ∧ (∀ e, w2c = Raise e →
       convert_rows linalg_inv linalg_eigh poses_bounds = Raise e).
Proof.
  intros Hrows poses w2c.
  pose proof (poses_of_bounds_3x5 _ Hrows) as H3x5. fold poses in H3x5.
  assert (Hlen : length poses = length poses_bounds)
    by apply length_fmap.
  unfold convert_rows. fold poses.
  rewrite posetow2c_matrcs_mapM by done. fold w2c. split.
  - intros ws Hws. rewrite Hws. cbn.
    destruct (mapM_res_Ok _ _ _ Hws) as [Hwlen Hw].
    set (f := convert_row linalg_eigh poses ws).
    assert (Hf : ∀ (i : nat) pose W,
      poses !! i = Some pose → ws !! i = Some W →
      f (Z.of_nat i)
      = Ok ({| row_image_id := Z.of_nat i + 1;
               row_qvec := rotmat2qvec linalg_eigh (take 3 <$> take 3 W);
               row_tvec :=
                 (λ row : list Qc, default 0%Qc (row !! 3%nat)) <$> take 3 W;
               row_camera_id := Z.of_nat i + 1;
               row_name :=
                 ("cam" +:+ format_0d 2 (Z.of_nat i)) +:+ ".png" |},
            {| crow_camera_id := Z.of_nat i + 1;
               crow_width := default 0%Qc (at2 pose 1 4);
               crow_height := default 0%Qc (at2 pose 0 4);
               crow_params :=
                 [default 0%Qc (at2 pose 2 4);
                  default 0%Qc (at2 pose 2 4);
                  float_half_floor (default 0%Qc (at2 pose 1 4));
                  float_half_floor (default 0%Qc (at2 pose 0 4))] |})).
    { intros i pose W Hpose HW. unfold f, convert_row, py_getitem.
      destruct (decide (Z.of_nat i < 0)) as [?|_]; [lia|].
      destruct (decide (Z.of_nat i < 0)) as [?|_]; [lia|].
      rewrite Nat2Z.id, HW, Hpose. done. }
    assert (Hall : ∀ x, x ∈ py_range (Z.of_nat (length poses)) →
                        is_Ok (f x)).
    { intros x Hx%elem_of_seqZ.
      destruct (lookup_lt_is_Some_2 poses (Z.to_nat x) ltac:(lia))
        as [pose Hpose].
      destruct (Hw _ _ Hpose) as (W & HW & _).
      rewrite <-(Z2Nat.id x) by lia. eexists. by apply Hf. }
    destruct (mapM_res_all_Ok _ _ Hall) as [rows Hrows'].
    exists rows. split; [done|].
    destruct (mapM_res_Ok _ _ _ Hrows') as [Hrlen Hr].
    unfold py_range in Hrlen, Hr. rewrite length_seqZ in Hrlen.
    assert (Hrow : ∀ (i : nat) pose W,
      poses !! i = Some pose → ws !! i = Some W →
      ∃ y, rows !! i = Some y ∧ f (Z.of_nat i) = Ok y).
    { intros i pose W Hpose HW. apply (Hr i (Z.of_nat i)).
      apply lookup_seqZ. split; [lia|].
      apply lookup_lt_Some in Hpose. lia. }
    split; [lia|]. split.
    + intros i pose W Hpose HW.
      destruct (Hrow i pose W Hpose HW) as (y & -> & Hy).
      rewrite (Hf i pose W Hpose HW) in Hy. by injection Hy as <-.
    + apply NoDup_alt. intros i j name Hi Hj.
      rewrite list_lookup_fmap in Hi, Hj.
      destruct (rows !! i) as [ri|] eqn:Hri; [|done].
      destruct (rows !! j) as [rj|] eqn:Hrj; [|done].
      assert (Hilt : (i < length poses)%nat)
        by (apply lookup_lt_Some in Hri; lia).
      assert (Hjlt : (j < length poses)%nat)
        by (apply lookup_lt_Some in Hrj; lia).
      destruct (lookup_lt_is_Some_2 poses i Hilt) as [pi Hpi].
      destruct (lookup_lt_is_Some_2 poses j Hjlt) as [pj Hpj].
      destruct (Hw _ _ Hpi) as (Wi & HWi & _).
      destruct (Hw _ _ Hpj) as (Wj & HWj & _).
      destruct (Hrow i pi Wi Hpi HWi) as (yi & Hyi & Hfi).
      destruct (Hrow j pj Wj Hpj HWj) as (yj & Hyj & Hfj).
      rewrite (Hf i pi Wi Hpi HWi) in Hfi.
      rewrite (Hf j pj Wj Hpj HWj) in Hfj.
      injection Hfi as <-. injection Hfj as <-.
      rewrite Hri in Hyi. rewrite Hrj in Hyj.
      injection Hyi as ->. injection Hyj as ->.
      cbn in Hi, Hj. rewrite <-Hj in Hi. injection Hi as Hi.
      apply string_app_inj_r in Hi. apply (inj _) in Hi.
      apply format_0d_inj in Hi. lia.
  - intros e He. by rewrite He.
Qed.

Lemma convert_rows_in_pose_order_witness :
  ∃ rows,
    convert_rows gauss_jordan_inv
      (λ _, ([1%Qc], [ [0]; [0]; [0]; [1] ]%Qc))
      [concat demo_pose] = Ok rows
    ∧ (row_name ∘ fst) <$> rows = ["cam00.png"].
Proof.
  destruct (convert_rows_in_pose_order gauss_jordan_inv
              (λ _, ([1%Qc], [ [0]; [0]; [0]; [1] ]%Qc))
              [concat demo_pose]) as [Hok _].
  - repeat constructor.
  - destruct (mapM (world_to_camera 0%Qc 1%Qc Qcopp gauss_jordan_inv)
                (poses_of_bounds [concat demo_pose])) as [ws|e] eqn:Hws;
      [|vm_compute in Hws; discriminate Hws].
    destruct (Hok ws eq_refl) as (rows & Hrows & Hlen & Hrow & _).
    exists rows. split; [exact Hrows|].
    destruct ws as [|W ws]; [vm_compute in Hws; discriminate Hws|].
    specialize (Hrow 0%nat _ W eq_refl eq_refl).
    destruct rows as [|r [|r' rows]]; [discriminate Hlen| |discriminate Hlen].
    injection Hrow as ->. reflexivity.
Defined.

(** ** Points seen by each image *)

Lemma collect_point_indices_flat (image_id_to_name : gmap Z string)
    (idx_of : gmap Z Z) (points : list (Z * list (Z * Z))) :
  collect_point_indices image_id_to_name idx_of points
  = foldl (λ acc (po : Z * (Z * Z)),
             add_observation image_id_to_name idx_of po.1 acc po.2)
      (Ok ∅)
      (points ≫= λ item, pair item.1 <$> item.2).
Proof.
  unfold collect_point_indices. generalize (Ok (∅ : gmap string (list Z))).
  induction points as [|item rest IH]; intros acc; [done|].
  cbn [foldl]. rewrite IH. cbn [mbind list_bind].
  rewrite foldl_app, foldl_fmap. done.
Qed.

Lemma observations_of_flat (image_id_to_name : gmap Z string)
    (idx_of : gmap Z Z) (points : list (Z * list (Z * Z))) name :
  observations_of image_id_to_name idx_of points name
  = (points ≫= λ item, pair item.1 <$> item.2)
      ≫= λ po : Z * (Z * Z),
           if decide (image_id_to_name !! po.2.1 = Some name)
           then option_list (idx_of !! po.1)
           else [].
Proof.
  unfold observations_of.
  induction points as [|item rest IH]; [done|].
  cbn [mbind list_bind]. rewrite bind_app, <-IH. f_equal.
  generalize (item.2). intros track.
  induction track as [|obs track IHt]; [done|].
  cbn. by rewrite IHt.
Qed.

(** X21. The table of points per image is the inverse index of the
    tracks: when the two loops finish, the list stored for an image name
    holds one point index for every observation of that image, in the
    order the points and their observations are enumerated, and a name
    is a key exactly when it has an observation; the loops finish
    whenever every observed image id and every observed point id is
    known, and stop with [KeyError] otherwise. *)
Theorem point_indices_inverse_index (image_id_to_name : gmap Z string)
    (point3D_id_to_point3D_idx : gmap Z Z)
    (point3D_id_to_images : list (Z * list (Z * Z))) :
  let known :=
    ∀ item obs, item ∈ point3D_id_to_images → obs ∈ item.2 →
      is_Some (image_id_to_name !! obs.1)
      ∧ is_Some (point3D_id_to_point3D_idx !! item.1) in
  let run := collect_point_indices image_id_to_name
               point3D_id_to_point3D_idx point3D_id_to_images in
  (known → is_Ok run)
  ∧ (¬ known → run = Raise KeyError)
  ∧ ∀ point_indices, run = Ok point_indices →
      ∀ image_name,
        default [] (point_indices !! image_name)
        = observations_of image_id_to_name point3D_id_to_point3D_idx
            point3D_id_to_images image_name
        ∧ (is_Some (point_indices !! image_name) ↔
           observations_of image_id_to_name point3D_id_to_point3D_idx
             point3D_id_to_images image_name ≠ []).
Proof.
  cbn zeta. rewrite collect_point_indices_flat.
  setoid_rewrite observations_of_flat.
  set (flat := point3D_id_to_images ≫= λ item, pair item.1 <$> item.2).
  set (step := λ acc (po : Z * (Z * Z)),
         add_observation image_id_to_name point3D_id_to_point3D_idx
           po.1 acc po.2).
  assert (Hknown :
    (∀ item obs, item ∈ point3D_id_to_images → obs ∈ item.2 →
       is_Some (image_id_to_name !! obs.1)
       ∧ is_Some (point3D_id_to_point3D_idx !! item.1))
    ↔ ∀ po, po ∈ flat →
        is_Some (image_id_to_name !! po.2.1)
        ∧ is_Some (point3D_id_to_point3D_idx !! po.1)).
  { unfold flat. split.
    - intros H po (item & (obs & -> & Hobs)%list_elem_of_fmap & Hitem)
        %list_elem_of_bind. by apply (H item obs).
    - intros H item obs Hitem Hobs. apply (H (item.1, obs)).
      apply list_elem_of_bind. exists item. split; [|done].
      apply list_elem_of_fmap. by exists obs. }
  rewrite Hknown. clear Hknown. clearbody flat.
  assert (Hraise : ∀ l e, foldl step (Raise e) l = Raise e).
  { intros l e. induction l as [|po l IH]; [done|]. cbn. apply IH. }
  assert (Herr : ∀ l acc, foldl step acc l = Raise KeyError
                          ∨ is_Ok (foldl step acc l)
                          ∨ ∃ e, acc = Raise e).
  { intros l. induction l as [|po l IH]; intros acc.
    - destruct acc; [right; left; by eexists | right; right; by eexists].
    - cbn [foldl]. destruct (IH (step acc po)) as [?|[?|[e He]]]; [auto..|].
      destruct acc as [m|e']; [|right; right; by eexists].
      left. rewrite He, Hraise. f_equal.
      unfold step, add_observation, py_lookup in He. cbn in He.
      destruct (image_id_to_name !! po.2.1); cbn in He;
        [|by injection He as <-].
      destruct (point3D_id_to_point3D_idx !! po.1); cbn in He; [done|].
      by injection He as <-. }
  assert (Hinv : ∀ l,
    ((∀ po, po ∈ l →
        is_Some (image_id_to_name !! po.2.1)
        ∧ is_Some (point3D_id_to_point3D_idx !! po.1)) ↔
     is_Ok (foldl step (Ok ∅) l))
    ∧ ∀ m, foldl step (Ok ∅) l = Ok m → ∀ name,
        default [] (m !! name)
        = l ≫= (λ po : Z * (Z * Z),
                  if decide (image_id_to_name !! po.2.1 = Some name)
                  then option_list (point3D_id_to_point3D_idx !! po.1)
                  else [])
        ∧ (is_Some (m !! name) ↔
           l ≫= (λ po : Z * (Z * Z),
                   if decide (image_id_to_name !! po.2.1 = Some name)
                   then option_list (point3D_id_to_point3D_idx !! po.1)
                   else []) ≠ [])).
  { intros l. induction l as [|po l [IHok IH]] using rev_ind.
    - split.
      + split; [intros _; by eexists | intros _ po Hpo].
        by apply elem_of_nil in Hpo.
      + intros m [= <-] name. rewrite lookup_empty. cbn.
        split; [done|]. split; [by intros [? ?] | done].
    - rewrite foldl_app. cbn [foldl]. split.
      + split.
        * intros Hall.
          destruct (proj1 IHok) as [m Hm].
          { intros po' Hpo'. apply Hall, elem_of_app. by left. }
          destruct (Hall po) as [[n Hn] [k Hk]].
          { apply elem_of_app. right. by left. }
          rewrite Hm. unfold step, add_observation, py_lookup. cbn.
          rewrite Hn. cbn. rewrite Hk. cbn. by eexists.
        * intros [m' Hm'].
          destruct (foldl step (Ok ∅) l) as [m|e] eqn:Hm; [|done].
          unfold step at 1, add_observation, py_lookup in Hm'. cbn in Hm'.
          destruct (image_id_to_name !! po.2.1) as [n|] eqn:Hn;
            [|done]. cbn in Hm'.
          destruct (point3D_id_to_point3D_idx !! po.1) as [k|] eqn:Hk;
            [|done].
          intros po' [Hpo'|Hpo']%elem_of_app.
          -- apply (proj2 IHok); [by eexists|done].
          -- apply list_elem_of_singleton in Hpo' as ->.
             rewrite Hn, Hk. split; by eexists.
      + intros m' Hm' name.
        destruct (foldl step (Ok ∅) l) as [m|e] eqn:Hm; [|done].
        unfold step at 1, add_observation, py_lookup in Hm'. cbn in Hm'.
        destruct (image_id_to_name !! po.2.1) as [n|] eqn:Hn;
          [|done]. cbn in Hm'.
        destruct (point3D_id_to_point3D_idx !! po.1) as [k|] eqn:Hk;
          [|done]. cbn in Hm'. injection Hm' as <-.
        destruct (IH m eq_refl name) as [Hlist Hkey].
        rewrite bind_app. cbn [mbind list_bind]. rewrite app_nil_r.
        destruct (decide (n = name)) as [->|Hne].
        * rewrite lookup_insert_eq, decide_True by done.
          rewrite Hk. cbn [option_list default]. rewrite <-Hlist.
          split; [done|]. split; [intros _|by eexists].
          by intros [_ ?]%app_eq_nil.
        * rewrite lookup_insert_ne by done.
          rewrite decide_False by congruence.
          by rewrite app_nil_r. }
  destruct (Hinv flat) as [Hok Hlists].
  split; [apply Hok|]. split; [|done].
  intros Hnot. destruct (Herr flat (Ok ∅)) as [?|[Hsome|[e He]]];
    [done| |done].
  by destruct Hnot; apply Hok.
Qed.

Lemma point_indices_inverse_index_witness :
  ∃ point_indices,
    collect_point_indices {[ 1 := "cam00.png"; 2 := "cam01.png" ]}
      {[ 10 := 0; 11 := 1 ]}
      [ (10, [(1, 5); (2, 7)]); (11, [(2, 3)]) ] = Ok point_indices
    ∧ default [] (point_indices !! "cam01.png") = [0; 1].
Proof.
  destruct (point_indices_inverse_index
              {[ 1 := "cam00.png"; 2 := "cam01.png" ]}
              {[ 10 := 0; 11 := 1 ]}
              [ (10, [(1, 5); (2, 7)]); (11, [(2, 3)]) ])
    as ([pi Hpi] & _ & Hlists).
  - intros item obs Hitem Hobs.
    repeat (apply elem_of_cons in Hitem as [->|Hitem]);
      [| |by apply elem_of_nil in Hitem]; cbn in Hobs;
      repeat (apply elem_of_cons in Hobs as [->|Hobs]);
      try (by apply elem_of_nil in Hobs);
      split; by eexists.
  - exists pi. split; [exact Hpi|].
    destruct (Hlists pi Hpi "cam01.png") as [-> _]. reflexivity.
Defined.

(** ** Random crop *)

Lemma length_slice_min {A} (a b : nat) (l : list A) :
  length (slice a b l) = ((b - a) `min` (length l - a))%nat.
Proof. unfold slice. by rewrite length_take, length_drop. Qed.

(** X22. The random crop of [__getitem__], for an image of [h] rows and
    [w] columns and a corner drawn by
    [np.random.randint(0, max(size - patch_size, 1))]: the patch is the
    window of the image at the drawn corner, it has
    [min(patch_size, h)] rows and [min(patch_size, w)] columns (an
    image smaller than the patch is returned whole, not padded), and the
    principal point is shifted by the corner.  Since the upper bound of
    the draw is exclusive, a patch smaller than the image never reaches
    the last column or the last row. *)
Theorem random_crop_window {A} (image : list (list A)) (K : matrix)
    (patch_size x y w h : Z) :
  length image = Z.to_nat h →
  Forall (λ row, length row = Z.to_nat w) image →
  0 < patch_size → 0 < w → 0 < h →
  0 ≤ x < randint_high w patch_size →
  0 ≤ y < randint_high h patch_size →
  let patch := (random_crop image K patch_size x y).1 in
  let K' := (random_crop image K patch_size x y).2 in
  Z.of_nat (length patch) = Z.min patch_size h
  ∧ Forall (λ row, Z.of_nat (length row) = Z.min patch_size w) patch
  ∧ (∀ i j : nat,
       Z.of_nat i < Z.min patch_size h → Z.of_nat j < Z.min patch_size w →
       at2 patch i j = at2 image (Z.to_nat y + i) (Z.to_nat x + j))
  ∧ (patch_size < w → x + patch_size < w)
  ∧ (patch_size < h → y + patch_size < h)
  ∧ (w ≤ patch_size → x = 0)
  ∧ (h ≤ patch_size → y = 0)
  ∧ at2 K' 0 2 = (λ v, v - Qc_of_Z x)%Qc <$> at2 K 0 2
  ∧ at2 K' 1 2 = (λ v, v - Qc_of_Z y)%Qc <$> at2 K 1 2
  ∧ at2 K' 0 0 = at2 K 0 0
  ∧ at2 K' 1 1 = at2 K 1 1.
Proof.
  unfold randint_high. intros Hh Hw Hp Hw0 Hh0 Hx Hy. cbn zeta.
  unfold random_crop. cbn [fst snd].
  rewrite !at2_shift_principal_point. cbn.
  split_and!; try done; try lia.
  - unfold crop. rewrite length_fmap, length_slice_min. lia.
  - unfold crop. apply Forall_fmap, Forall_forall. intros row Hrow.
    assert (Hin : row ∈ image).
    { unfold slice in Hrow. by eapply subseteq_drop, subseteq_take. }
    rewrite Forall_forall in Hw. cbn.
    rewrite length_slice_min, (Hw row Hin). lia.
  - intros i j Hi Hj. apply at2_crop; lia.
Qed.

Lemma random_crop_window_witness :
  let image := [ [1; 2; 3]; [4; 5; 6]; [7; 8; 9] ] in
  (random_crop image demo_fisheye_K 2 0 0).1 = [ [1; 2]; [4; 5] ]
  ∧ Z.of_nat (length (random_crop image demo_fisheye_K 2 0 0).1) = 2.
Proof.
  cbn zeta. split; [reflexivity|].
  apply (random_crop_window [ [1; 2; 3]; [4; 5; 6]; [7; 8; 9] ]
           demo_fisheye_K 2 0 0 3 3).
  - reflexivity.
  - repeat constructor.
  - lia.
  - lia.
  - lia.
  - vm_compute. split; [intros H; discriminate H | reflexivity].
  - vm_compute. split; [intros H; discriminate H | reflexivity].
Defined.

(** ** The camera that sets the scale *)

Lemma name_le_trans : Transitive name_le.
Proof. intros a b c. unfold name_le. apply transitivity. Qed.

(** X23. The camera whose recorded size sets the two scale factors is
    the camera of the image with the smallest name: in the parser that
    [Parser.__init__] returns, the first name and the first camera id
    belong to an image whose name is below or equal to every other
    image's name, and the scale factors were computed from the size the
    first loop recorded for that image's camera. *)
Theorem reference_camera_has_least_name
    (cv2_getOptimalNewCameraMatrix :
       matrix → list Qc → Z * Z → matrix * (Z * Z * Z * Z))
    (cv2_initUndistortRectifyMap :
       matrix → list Qc → matrix → Z * Z → matrix * matrix)
    (cameras : gmap Z Camera) (imdata : list Image)
    (loading : Loading) (png_dirs : list string) (actual_shape : Z * Z)
    (f : Z) (p : Parser) :
  Parser_init cv2_getOptimalNewCameraMatrix cv2_initUndistortRectifyMap
    cameras imdata loading png_dirs actual_shape f = Ok p →
  ∃ im0 st s_width s_height,
    im0 ∈ imdata
    ∧ (∀ im, im ∈ imdata → String.le (im_name im0) (im_name im))
    ∧ head (camera_names p) = Some (im_name im0)
    ∧ head (camera_ids p) = Some (im_camera_id im0)
    ∧ parse_images cameras f parse_init imdata = Ok st
    ∧ scale_factors actual_shape f (ps_imsize_dict st) (im_camera_id im0)
      = Ok (s_width, s_height).
Proof.
  intros H.
  apply Parser_init_inv in H
    as (st & id0 & sw & sh & Ks & ims & Hst & _ & _ & Hid0 & Hs & _ & Hu).
  destruct (parse_images_tables_from _ _ _ _ _ Hst) as [Hids _].
  cbn in Hids. rewrite Hids in Hu, Hid0.
  destruct (sort_by_name_images imdata) as (Hp & Hsorted & _ & _ & _).
  set (sorted := sort_by_name _ _) in *.
  destruct (undistort_all_names _ _ _ _ _ Hu) as (_ & Hn & _).
  destruct (undistort_all_entries _ _ _ _ _ Hu) as (_ & Hcids & _).
  cbn in Hn, Hcids. rewrite Hn, Hcids.
  destruct sorted as [|[n0 id0'] rest] eqn:Hsort; [done|].
  cbn in Hid0. injection Hid0 as ->.
  assert (Hin : (n0, id0) ∈ name_and_id <$> imdata)
    by (rewrite <-Hp; left).
  apply list_elem_of_fmap in Hin as (im0 & Him0 & Hin0).
  unfold name_and_id in Him0. injection Him0 as -> ->.
  exists im0, st, sw, sh. split; [done|]. split; [|done].
  intros im Him.
  assert (Hin : name_and_id im ∈ (im_name im0, im_camera_id im0) :: rest).
  { rewrite Hp. apply list_elem_of_fmap. by exists im. }
  apply (@sorting.Sorted_StronglySorted _ name_le name_le_trans) in Hsorted.
  apply StronglySorted_inv in Hsorted as [_ Hall].
  apply elem_of_cons in Hin as [Heq|Hin].
  - unfold name_and_id in Heq. injection Heq as -> _. done.
  - rewrite Forall_forall in Hall. apply (Hall _ Hin).
Qed.

Lemma reference_camera_has_least_name_witness :
  ∃ p, Parser_init identity_getOptimalNewCameraMatrix
         identity_initUndistortRectifyMap demo_cameras
         [demo_image_2; demo_image_1] demo_loading demo_png_dirs
         (720, 1280) 1 = Ok p
       ∧ head (camera_ids p) = Some 1.
Proof.
  destruct (Parser_init identity_getOptimalNewCameraMatrix
              identity_initUndistortRectifyMap demo_cameras
              [demo_image_2; demo_image_1] demo_loading demo_png_dirs
              (720, 1280) 1)
    as [p|e] eqn:Hp; [|vm_compute in Hp; discriminate Hp].
  destruct (reference_camera_has_least_name _ _ _ _ _ _ _ _ _ Hp)
    as (im0 & st & sw & sh & Hin & Hleast & _ & Hhead & _).
  exists p. split; [reflexivity|]. rewrite Hhead. f_equal.
  apply elem_of_cons in Hin as [->|Hin]; [exfalso|].
  - specialize (Hleast demo_image_1 ltac:(right; left)).
    vm_compute in Hleast. destruct Hleast.
  - apply list_elem_of_singleton in Hin as ->. reflexivity.
Defined.

(** ** The last group of pictures *)

(** X24. The groups of pictures are planned whole even when the GOP size
    does not divide the number of frames: for a non-empty range and a
    positive GOP size the last key frame [k] satisfies
    [E <= k + G < E + G], with [k + G = E] exactly when [G] divides
    [E - S].  A non-empty dataset built on that key frame with the same
    GOP size reads, at position [G - 1], the frame [k + G - 1]; when [G]
    does not divide [E - S] this frame index is at or past the end of
    the planned range. *)
Theorem last_gop_reaches_past_end (S E G : Z) (ks : list Z) :
  0 < G → S < E →
  frame_list S E G = Ok ks →
  ∃ k_last,
    last ks = Some k_last
    ∧ (E ≤ k_last + G < E + G)
    ∧ (k_last + G = E ↔ (E - S) mod G = 0)
    ∧ ∀ (p : Parser) (split : string) (test_set : list Z)
        (remove_set : option (list Z)),
        let ds := Dataset_init p split k_last G test_set remove_set in
        0 < Dataset_len ds →
        ∃ cam, Dataset_locate ds (G - 1) = Ok (cam, k_last + G - 1)
               ∧ ((E - S) mod G ≠ 0 → E ≤ k_last + G - 1).
Proof.
  intros HG HSE Hks. rewrite frame_list_Ok in Hks by done.
  injection Hks as <-.
  pose proof (ceil_div_spec (E - S) G HG) as Hc.
  set (n := ceil_div (E - S) G) in *.
  assert (Hn : 0 < n) by nia.
  exists (S + (n - 1) * G).
  assert (Hdiv : S + (n - 1) * G + G = E ↔ (E - S) mod G = 0).
  { split.
    - intros Heq. replace (E - S) with (n * G) by lia.
      by apply Z.mod_mul; lia.
    - intros Hmod. apply Z.mod_divide in Hmod as [q Hq]; [|lia].
      assert (q = n) as -> by nia. lia. }
  split; [|split; [nia|split; [done|]]].
  - replace n with ((n - 1) + 1) at 1 by lia.
    rewrite seqZ_app by lia. rewrite fmap_app, Z.add_0_l.
    rewrite (seqZ_cons (n - 1) 1) by lia.
    rewrite (seqZ_nil (Z.succ (n - 1))) by lia.
    cbn [fmap list_fmap]. by rewrite last_snoc.
  - intros p split test_set remove_set ds Hlen.
    assert (Hmod : Dataset_len ds mod G = 0).
    { unfold Dataset_len, ds. cbn [indices Dataset_init].
      rewrite split_indices_filter.
      by destruct (filter_blocks_residue
                     (λ c, kept split test_set remove_set c = true)
                     G (length (camera_names p)) HG). }
    apply Z.mod_divide in Hmod as [q Hq]; [|lia].
    assert (Hq0 : 0 < q) by nia.
    assert (Hlast : 0 ≤ G - 1 < Dataset_len ds) by (rewrite Hq; nia).
    destruct (Dataset_locate_Ok ds (G - 1) HG Hlast) as (g & _ & Hloc).
    change (GOP_size ds) with G in Hloc.
    change (start_frame ds) with (S + (n - 1) * G) in Hloc.
    rewrite (Z.mod_small (G - 1) G) in Hloc by lia.
    exists (g / G). split; [rewrite Hloc; do 2 f_equal; lia|].
    intros Hnd. assert (S + (n - 1) * G + G ≠ E) by (by rewrite Hdiv). lia.
Qed.

Lemma last_gop_reaches_past_end_witness :
  ∃ k_last, last [10; 20] = Some k_last ∧ (25 ≤ k_last + 10 < 25 + 10).
Proof.
  destruct (last_gop_reaches_past_end 10 25 10 [10; 20])
    as (k & Hlast & Hrange & _).
  - lia.
  - lia.
  - reflexivity.
  - exists k. split; [exact Hlast | exact Hrange].
Defined.
